(** * k9s: the live table engine and the port-forward lifecycle

    A shallow embedding of the filter pipeline of [internal/ui] (the helpers
    [filterToast], [rxFilter], [fuzzyFilter] and the methods [Table.filtered],
    [Table.doUpdate], [Table.buildRow]) and of the port-forward extender of
    [internal/view] ([runForward], [startFwdCB], [fetchPodName],
    [portFwdCmd], [showFwdDialog]).

    Go slices are lists, [int] indices are [Z] (with [-1] for "not found"),
    maps are [gmap], a runtime panic is the [Panic] outcome of [Exec], and
    the packages the code only calls into (regexp, sahilm/fuzzy, tview, the
    cluster client) are interfaces the development is parametric in. *)

From Stdlib Require Import ZArith Ascii String List Lia.
From stdpp Require Import gmap strings list sorting.

Local Open Scope Z_scope.

(** ** Outcomes of code that can panic *)

Inductive Exec (A : Type) : Type :=
| Done (a : A)
| Panic (why : string).
Arguments Done {A} a.
Arguments Panic {A} why.

Global Instance Exec_ret : MRet Exec := fun _ a => Done a.
Global Instance Exec_bind : MBind Exec := fun _ _ f m =>
  match m with
  | Done a => f a
  | Panic why => Panic why
  end.

Definition indexOutOfRange : string := "runtime error: index out of range".

(** [xs[i]] on a slice. *)
Definition at_index {A : Type} (xs : list A) (i : Z) : Exec A :=
  if i <? 0 then Panic indexOutOfRange
  else match xs !! Z.to_nat i with
       | Some x => Done x
       | None => Panic indexOutOfRange
       end.

(** ** Strings *)

(** [strings.Join]. *)
Fixpoint Join (elems : list string) (sep : string) : string :=
  match elems with
  | [] => ""
  | [s] => s
  | s :: rest => s +:+ sep +:+ Join rest sep
  end.

(** [s[n:]] on bytes. *)
Fixpoint string_drop (n : nat) (s : string) : string :=
  match n, s with
  | O, _ => s
  | S n', String _ s' => string_drop n' s'
  | S _, EmptyString => EmptyString
  end.

(** ASCII lower-casing, the folding both matchers apply. *)
Definition lower (c : ascii) : ascii :=
  let n := nat_of_ascii c in
  if ((65 <=? n) && (n <=? 90))%nat then ascii_of_nat (n + 32) else c.

Fixpoint lower_string (s : string) : string :=
  match s with
  | EmptyString => EmptyString
  | String c s' => String (lower c) (lower_string s')
  end.

(** ** The row model (package render) *)

Inductive Alignment := AlignLeft | AlignCenter | AlignRight.

Record HeaderColumn := {
  hcName : string;
  hcAlign : Alignment;
  hcDecorator : option (string -> string);
  hcWide : bool;
  hcMX : bool;
  hcTime : bool
}.

Abbreviation Header := (list HeaderColumn).

Record Row := { rowID : string; rowFields : list string }.

Abbreviation DeltaRow := (list string).

Record RowEvent := { reRow : Row; reDeltas : DeltaRow }.

Abbreviation RowEvents := (list RowEvent).

Record TableData := {
  tdHeader : Header;
  tdRowEvents : RowEvents;
  tdNamespace : string
}.

(** Modelled from the spec: [Header.IndexOf] (package render, not among the
    sources).  The position of the column called [colName], or [-1] when the
    header has no such column; columns flagged wide are passed over unless
    [includeWide] is set. *)
Fixpoint IndexOf_from (i : Z) (h : Header) (colName : string) (includeWide : bool) : Z :=
  match h with
  | [] => -1
  | c :: h' =>
      if hcWide c && negb includeWide then IndexOf_from (i + 1) h' colName includeWide
      else if String.eqb (hcName c) colName then i
      else IndexOf_from (i + 1) h' colName includeWide
  end.

Definition IndexOf (h : Header) (colName : string) (includeWide : bool) : Z :=
  IndexOf_from 0 h colName includeWide.

(** Modelled from the spec: [DeltaRow.IsBlank] (package render): a row
    carries no delta when every recorded previous value is empty. *)
Definition IsBlank (d : DeltaRow) : bool :=
  forallb (fun v => String.eqb v "") d.

(** Modelled from the spec: [Header.IsAgeCol] (package render): the column is
    a time column. *)
Definition IsAgeCol (h : Header) (c : nat) : bool :=
  match h !! c with
  | Some hc => hcTime hc
  | None => false
  end.

(** ** The regular-expression package

    [regexp.Compile] and [Regexp.MatchString] belong to the Go library.  The
    filters are parametric in them. *)

Record RegexEngine := {
  Regexp : Type;
  Compile : string -> Regexp + string;
  MatchString : Regexp -> string -> bool
}.

(** The prefix regexps [\A\-l] and [\A\-f] of the helpers. *)
Definition LableRx_MatchString (s : string) : bool := String.prefix "-l" s.
Definition fuzzyRx_MatchString (s : string) : bool := String.prefix "-f" s.

Definition IsLabelSelector (s : string) : bool :=
  if String.eqb s "" then false else LableRx_MatchString s.

Definition IsFuzzySelector (s : string) : bool :=
  if String.eqb s "" then false else fuzzyRx_MatchString s.

(** ** The fuzzy finder (package sahilm/fuzzy) *)

Record Match := { mStr : string; mIndex : Z; mScore : Z }.

Definition Finder := string -> list string -> list Match.

(** ** The filters *)

Fixpoint filterToast_loop (validX : Z) (res : RowEvents) (toast : RowEvents)
  : Exec RowEvents :=
  match res with
  | [] => Done toast
  | re :: res' =>
      v ← at_index (rowFields (reRow re)) validX;
      if negb (String.eqb v "")
      then filterToast_loop validX res' (toast ++ [re])
      else filterToast_loop validX res' toast
  end.

Definition filterToast (data : TableData) : Exec TableData :=
  let validX := IndexOf (tdHeader data) "VALID" true in
  if validX =? -1 then Done data
  else
    toast ← filterToast_loop validX (tdRowEvents data) [];
    Done {| tdHeader := tdHeader data;
            tdRowEvents := toast;
            tdNamespace := tdNamespace data |}.

Section Filters.
Context (rxe : RegexEngine) (Find : Finder).

Fixpoint rxFilter_loop (rx : Regexp rxe) (res : RowEvents) (filtered : RowEvents)
  : RowEvents :=
  match res with
  | [] => filtered
  | re :: res' =>
      let f := Join (rowFields (reRow re)) " " in
      if MatchString rxe rx f
      then rxFilter_loop rx res' (filtered ++ [re])
      else rxFilter_loop rx res' filtered
  end.

Definition rxFilter (q : string) (data : TableData) : TableData * option string :=
  match Compile rxe ("(?i)" +:+ q) with
  | inr err => (data, Some err)
  | inl rx =>
      ({| tdHeader := tdHeader data;
          tdRowEvents := rxFilter_loop rx (tdRowEvents data) [];
          tdNamespace := tdNamespace data |}, None)
  end.

Fixpoint fuzzyFilter_names (index : Z) (res : RowEvents) (ss : list string)
  : Exec (list string) :=
  match res with
  | [] => Done ss
  | re :: res' =>
      v ← at_index (rowFields (reRow re)) index;
      fuzzyFilter_names index res' (ss ++ [v])
  end.

Fixpoint fuzzyFilter_pick (rows : RowEvents) (mm : list Match) (filtered : RowEvents)
  : Exec RowEvents :=
  match mm with
  | [] => Done filtered
  | m :: mm' =>
      re ← at_index rows (mIndex m);
      fuzzyFilter_pick rows mm' (filtered ++ [re])
  end.

Definition fuzzyFilter (q : string) (index : Z) (data : TableData) : Exec TableData :=
  ss ← fuzzyFilter_names index (tdRowEvents data) [];
  let mm := Find q ss in
  filtered ← fuzzyFilter_pick (tdRowEvents data) mm [];
  Done {| tdHeader := tdHeader data;
          tdRowEvents := filtered;
          tdNamespace := tdNamespace data |}.
End Filters.

(** ** The table controller (package ui) *)

Definition Color := Z.
Definition Key := Z.
Abbreviation MaxyPad := (list Z).
Definition ColorerFunc := string -> Header -> RowEvent -> Color.

Record SortColumn := { scName : string; scAsc : bool }.

(** Modelled from the spec: [CmdBuff], the live query buffer (ui package;
    its test file is the only part among the sources).  [Clear] empties the
    text and leaves the activation state alone. *)
Record CmdBuff := { cbBuff : string; cbActive : bool }.

Definition CmdBuff_String (b : CmdBuff) : string := cbBuff b.
Definition CmdBuff_Empty (b : CmdBuff) : bool := String.eqb (cbBuff b) "".
Definition CmdBuff_Clear (b : CmdBuff) : CmdBuff :=
  {| cbBuff := ""; cbActive := cbActive b |}.

Record Styles := {
  stHeaderFgColor : Color;
  stHeaderBgColor : Color;
  stSorterColor : string;
  stMarkColor : Color
}.

Record TableCell := {
  cText : string;
  cExpansion : Z;
  cAlign : Alignment;
  cTextColor : option Color;
  cBackgroundColor : option Color;
  cReference : option string
}.

Definition NewTableCell (text : string) : TableCell :=
  {| cText := text; cExpansion := 0; cAlign := AlignLeft;
     cTextColor := None; cBackgroundColor := None; cReference := None |}.

Definition SetExpansion (e : Z) (c : TableCell) : TableCell :=
  {| cText := cText c; cExpansion := e; cAlign := cAlign c;
     cTextColor := cTextColor c; cBackgroundColor := cBackgroundColor c;
     cReference := cReference c |}.

Definition SetAlign (a : Alignment) (c : TableCell) : TableCell :=
  {| cText := cText c; cExpansion := cExpansion c; cAlign := a;
     cTextColor := cTextColor c; cBackgroundColor := cBackgroundColor c;
     cReference := cReference c |}.

Definition SetTextColor (k : Color) (c : TableCell) : TableCell :=
  {| cText := cText c; cExpansion := cExpansion c; cAlign := cAlign c;
     cTextColor := Some k; cBackgroundColor := cBackgroundColor c;
     cReference := cReference c |}.

Definition SetBackgroundColor (k : Color) (c : TableCell) : TableCell :=
  {| cText := cText c; cExpansion := cExpansion c; cAlign := cAlign c;
     cTextColor := cTextColor c; cBackgroundColor := Some k;
     cReference := cReference c |}.

Definition SetReference (ref : string) (c : TableCell) : TableCell :=
  {| cText := cText c; cExpansion := cExpansion c; cAlign := cAlign c;
     cTextColor := cTextColor c; cBackgroundColor := cBackgroundColor c;
     cReference := Some ref |}.

(** What the table model answers when asked. *)
Record Model := {
  mdNamespace : string;
  mdClusterWide : bool;
  mdPeek : TableData
}.

(** The embedded [SelectTable]: the tview grid, the model and the marks. *)
Record SelectTable := {
  stGrid : gmap (nat * nat) TableCell;
  stModel : Model;
  stMarks : gset string;
  stSelectedRow : Z
}.

Definition SelectTable_SetCell (r col : nat) (c : TableCell) (s : SelectTable)
  : SelectTable :=
  {| stGrid := <[(r, col) := c]> (stGrid s); stModel := stModel s;
     stMarks := stMarks s; stSelectedRow := stSelectedRow s |}.

Definition SelectTable_Clear (s : SelectTable) : SelectTable :=
  {| stGrid := ∅; stModel := stModel s;
     stMarks := stMarks s; stSelectedRow := stSelectedRow s |}.

Definition IsMarked (s : SelectTable) (id : string) : bool :=
  bool_decide (id ∈ stMarks s).

Inductive ActionHandler :=
| SortColCmd (name : string) (asc : bool)
| OtherHandler (tag : string).

Record KeyAction := {
  kaDescription : string;
  kaAction : ActionHandler;
  kaVisible : bool
}.

Definition NewKeyAction (d : string) (a : ActionHandler) (display : bool) : KeyAction :=
  {| kaDescription := d; kaAction := a; kaVisible := display |}.

(** Entries written to the process log. *)
Inductive LogEntry :=
| LogInvalidFilter
| LogFieldHeaderOverflow (gvr : string) (c : nat) (n : nat).

Record Table := {
  tSelectTable : SelectTable;
  tActions : gmap Key KeyAction;
  tGVR : string;
  tCmdBuff : CmdBuff;
  tStyles : Styles;
  tViewSetting : option (list string);
  tSortCol : SortColumn;
  tColorerFn : option ColorerFunc;
  tWide : bool;
  tToast : bool;
  tHeader : Header;
  tHasMetrics : bool;
  tLog : list LogEntry
}.

Definition Table_withSelectTable (s : SelectTable) (t : Table) : Table :=
  {| tSelectTable := s; tActions := tActions t; tGVR := tGVR t;
     tCmdBuff := tCmdBuff t; tStyles := tStyles t;
     tViewSetting := tViewSetting t; tSortCol := tSortCol t;
     tColorerFn := tColorerFn t; tWide := tWide t; tToast := tToast t;
     tHeader := tHeader t; tHasMetrics := tHasMetrics t; tLog := tLog t |}.

Definition Table_withActions (aa : gmap Key KeyAction) (t : Table) : Table :=
  {| tSelectTable := tSelectTable t; tActions := aa; tGVR := tGVR t;
     tCmdBuff := tCmdBuff t; tStyles := tStyles t;
     tViewSetting := tViewSetting t; tSortCol := tSortCol t;
     tColorerFn := tColorerFn t; tWide := tWide t; tToast := tToast t;
     tHeader := tHeader t; tHasMetrics := tHasMetrics t; tLog := tLog t |}.

Definition Table_withCmdBuff (b : CmdBuff) (t : Table) : Table :=
  {| tSelectTable := tSelectTable t; tActions := tActions t; tGVR := tGVR t;
     tCmdBuff := b; tStyles := tStyles t;
     tViewSetting := tViewSetting t; tSortCol := tSortCol t;
     tColorerFn := tColorerFn t; tWide := tWide t; tToast := tToast t;
     tHeader := tHeader t; tHasMetrics := tHasMetrics t; tLog := tLog t |}.

Definition Table_withSortCol (sc : SortColumn) (t : Table) : Table :=
  {| tSelectTable := tSelectTable t; tActions := tActions t; tGVR := tGVR t;
     tCmdBuff := tCmdBuff t; tStyles := tStyles t;
     tViewSetting := tViewSetting t; tSortCol := sc;
     tColorerFn := tColorerFn t; tWide := tWide t; tToast := tToast t;
     tHeader := tHeader t; tHasMetrics := tHasMetrics t; tLog := tLog t |}.

Definition Table_logged (e : LogEntry) (t : Table) : Table :=
  {| tSelectTable := tSelectTable t; tActions := tActions t; tGVR := tGVR t;
     tCmdBuff := tCmdBuff t; tStyles := tStyles t;
     tViewSetting := tViewSetting t; tSortCol := tSortCol t;
     tColorerFn := tColorerFn t; tWide := tWide t; tToast := tToast t;
     tHeader := tHeader t; tHasMetrics := tHasMetrics t;
     tLog := tLog t ++ [e] |}.

Definition Table_SetCell (r col : nat) (c : TableCell) (t : Table) : Table :=
  Table_withSelectTable (SelectTable_SetCell r col c (tSelectTable t)) t.

Definition GetModel (t : Table) : Model := stModel (tSelectTable t).

(** What the controller calls into and the sources do not contain: the
    client's namespace predicates, the render package's customizer and
    sorter, padding helpers and the selection logic of [SelectTable]. *)
Record Collaborators := {
  ErrColor : Color;
  DefaultColorer : ColorerFunc;
  KeyShiftP : Key;
  IsAllNamespaces : string -> bool;
  IsClusterScoped : string -> bool;
  Columns : Header -> bool -> list string;
  Customize : TableData -> list string -> bool -> TableData;
  Sort : RowEvents -> string -> Z -> bool -> bool -> RowEvents;
  FindIndex : RowEvents -> string -> Z * bool;
  ComputeMaxColumns : MaxyPad -> string -> Header -> RowEvents -> MaxyPad;
  Deltas : string -> string -> string;
  IsASCII : string -> bool;
  Pad : string -> Z -> string;
  updateSelection : bool -> SelectTable -> SelectTable
}.

Definition descIndicator : string := "↓".
Definition ascIndicator : string := "↑".

Definition sortIndicator (sort asc : bool) (style : Styles) (name : string) : string :=
  if negb sort then name
  else
    let order := if asc then ascIndicator else descIndicator in
    name +:+ "[" +:+ stSorterColor style +:+ "::b]" +:+ order +:+ "[::]".

Section Controller.
Context (rxe : RegexEngine) (Find : Finder) (ext : Collaborators).

Definition formatCell (field : string) (padding : Z) : string :=
  if IsASCII ext field then Pad ext field padding else field.

Definition NameColIndex (t : Table) : Z :=
  let col := 0 in
  if IsClusterScoped ext (mdNamespace (GetModel t)) then col
  else if mdClusterWide (GetModel t) then col + 1
  else col.

Definition filtered (t : Table) (data : TableData) : Exec (TableData * Table) :=
  filtered0 ← (if tToast t then filterToast data else Done data);
  if CmdBuff_Empty (tCmdBuff t) || IsLabelSelector (CmdBuff_String (tCmdBuff t))
  then Done (filtered0, t)
  else
    let q := CmdBuff_String (tCmdBuff t) in
    if IsFuzzySelector q
    then
      r ← fuzzyFilter Find (string_drop 2 q) (NameColIndex t) filtered0;
      Done (r, t)
    else
      match rxFilter rxe (CmdBuff_String (tCmdBuff t)) filtered0 with
      | (filtered1, Some _) =>
          Done (filtered1,
                Table_withCmdBuff (CmdBuff_Clear (tCmdBuff t))
                                  (Table_logged LogInvalidFilter t))
      | (filtered1, None) => Done (filtered1, t)
      end.

Definition AddHeaderCell (col : nat) (h : HeaderColumn) (t : Table) : Table :=
  let sortCol := String.eqb (hcName h) (scName (tSortCol t)) in
  let c := NewTableCell (sortIndicator sortCol (scAsc (tSortCol t)) (tStyles t) (hcName h)) in
  let c := SetExpansion 1 c in
  let c := SetAlign (hcAlign h) c in
  Table_SetCell 0 col c t.

Fixpoint doUpdate_header (hh : Header) (col : nat) (fg bg : Color) (t : Table) : Table :=
  match hh with
  | [] => t
  | h :: hh' =>
      if String.eqb (hcName h) "NAMESPACE" && negb (mdClusterWide (GetModel t))
      then doUpdate_header hh' col fg bg t
      else if hcMX h && negb (tHasMetrics t)
      then doUpdate_header hh' col fg bg t
      else
        let t := AddHeaderCell col h t in
        let t :=
          match stGrid (tSelectTable t) !! (0%nat, col) with
          | Some c => Table_SetCell 0 col (SetTextColor fg (SetBackgroundColor bg c)) t
          | None => t
          end in
        doUpdate_header hh' (S col) fg bg t
  end.

(** One field of [buildRow]: the body of the loop once the three
    [continue] guards have let the field through. *)
Definition buildRow_cell (t : Table) (re ore : RowEvent) (h : Header) (pads : MaxyPad)
           (marked : bool) (c col : nat) (hc : HeaderColumn) (field : string)
  : Exec TableCell :=
  let color := match tColorerFn t with
               | Some f => f
               | None => DefaultColorer ext
               end in
  field ← (if negb (IsBlank (reDeltas re)) && negb (IsAgeCol h c)
           then d ← at_index (reDeltas re) (Z.of_nat c);
                Done (field +:+ Deltas ext d field)
           else Done field);
  let field := match hcDecorator hc with
               | Some f => f field
               | None => field
               end in
  field ← (match hcAlign hc with
           | AlignLeft => p ← at_index pads (Z.of_nat c); Done (formatCell field p)
           | _ => Done field
           end);
  let cell := NewTableCell field in
  let cell := SetExpansion 1 cell in
  let cell := SetAlign (hcAlign hc) cell in
  let fgColor := color (mdNamespace (GetModel t)) (tHeader t) ore in
  let cell := SetTextColor fgColor cell in
  let cell := if marked && negb (fgColor =? ErrColor ext)
              then SetTextColor (stMarkColor (tStyles t)) cell
              else cell in
  let cell := if (col =? 0)%nat then SetReference (rowID (reRow re)) cell else cell in
  Done cell.

Fixpoint buildRow_loop (r : nat) (re ore : RowEvent) (h : Header) (pads : MaxyPad)
         (marked : bool) (c col : nat) (fields : list string) (t : Table)
  : Exec Table :=
  match fields with
  | [] => Done t
  | field :: rest =>
      match h !! c with
      | None =>
          buildRow_loop r re ore h pads marked (S c) col rest
            (Table_logged (LogFieldHeaderOverflow (tGVR t) c (length h)) t)
      | Some hc =>
          if String.eqb (hcName hc) "NAMESPACE" && negb (mdClusterWide (GetModel t))
          then buildRow_loop r re ore h pads marked (S c) col rest t
          else if hcMX hc && negb (tHasMetrics t)
          then buildRow_loop r re ore h pads marked (S c) col rest t
          else
            cell ← buildRow_cell t re ore h pads marked c col hc field;
            buildRow_loop r re ore h pads marked (S c) (S col) rest
              (Table_SetCell r col cell t)
      end
  end.

Definition buildRow (r : nat) (re ore : RowEvent) (h : Header) (pads : MaxyPad)
           (t : Table) : Exec Table :=
  let marked := IsMarked (tSelectTable t) (rowID (reRow re)) in
  buildRow_loop r re ore h pads marked 0 0 (rowFields (reRow re)) t.

Fixpoint doUpdate_rows (data : TableData) (h : Header) (pads : MaxyPad)
         (row : nat) (res : RowEvents) (t : Table) : Exec Table :=
  match res with
  | [] => Done t
  | re :: res' =>
      let idx := fst (FindIndex ext (tdRowEvents data) (rowID (reRow re))) in
      ore ← at_index (tdRowEvents data) idx;
      t ← buildRow (row + 1) re ore h pads t;
      doUpdate_rows data h pads (S row) res' t
  end.

(** The columns [doUpdate] asks the customizer for. *)
Definition doUpdate_cols (t : Table) : list string :=
  let cols := match tViewSetting t with
              | Some columns => columns
              | None => []
              end in
  if (length cols =? 0)%nat then Columns ext (tHeader t) (tWide t) else cols.

(** The sort-column guard of [doUpdate]. *)
Definition doUpdate_sortCol (t : Table) (custHeader : Header) : Table :=
  if (String.eqb (scName (tSortCol t)) "" ||
      (IndexOf custHeader (scName (tSortCol t)) false =? -1))
     && (0 <? length custHeader)%nat
  then
    match custHeader with
    | h0 :: _ => Table_withSortCol {| scName := hcName h0; scAsc := scAsc (tSortCol t) |} t
    | [] => t
    end
  else t.

(** The rows [doUpdate] hands to the row builder: the customized rows,
    sorted on the (possibly substituted) sort column. *)
Definition doUpdate_sorted (t : Table) (custData : TableData) : RowEvents :=
  Sort ext (tdRowEvents custData) (tdNamespace custData)
       (IndexOf (tdHeader custData) (scName (tSortCol t)) false)
       (String.eqb (scName (tSortCol t)) "AGE")
       (scAsc (tSortCol t)).

(** The namespace-sort binding [doUpdate] installs or removes. *)
Definition doUpdate_actions (t : Table) (data : TableData) : Table :=
  if IsAllNamespaces ext (tdNamespace data)
  then Table_withActions
         (<[KeyShiftP ext :=
              NewKeyAction "Sort Namespace" (SortColCmd "NAMESPACE" true) false]>
            (tActions t)) t
  else Table_withActions (delete (KeyShiftP ext) (tActions t)) t.

(** [doUpdate] from [t.Clear()] on: header cells, sort, padding, rows,
    selection. *)
Definition doUpdate_render (t : Table) (custData data : TableData) : Exec Table :=
  let t := Table_withSelectTable (SelectTable_Clear (tSelectTable t)) t in
  let fg := stHeaderFgColor (tStyles t) in
  let bg := stHeaderBgColor (tStyles t) in
  let t := doUpdate_header (tdHeader custData) 0 fg bg t in
  let sorted := doUpdate_sorted t custData in
  let pads := replicate (length (tdHeader custData)) 0 in
  let pads := ComputeMaxColumns ext pads (scName (tSortCol t)) (tdHeader custData) sorted in
  t ← doUpdate_rows data (tdHeader custData) pads 0 sorted t;
  Done (Table_withSelectTable (updateSelection ext true (tSelectTable t)) t).

Definition doUpdate (t : Table) (data : TableData) : Exec Table :=
  let t := doUpdate_actions t data in
  let custData := Customize ext data (doUpdate_cols t) (tWide t) in
  let t := doUpdate_sortCol t (tdHeader custData) in
  doUpdate_render t custData data.
End Controller.

(** ** The port-forward extender (package view) *)

(** Modelled from the spec: the identity of a tunnel is the composite key
    (resource path, container name); [dao.PortForwardID] builds it and
    [Forwarder.FQN] returns it for a forwarder. *)
Definition Identity := (string * string)%type.

Definition PortForwardID (path co : string) : Identity := (path, co).

Record PortTunnel := {
  ptAddress : string;
  ptLocalPort : string;
  ptContainerPort : string
}.

(** A forwarder object ([dao.PortForwarder] behind [watch.Forwarder]). *)
Record PortForwarder := {
  pfPath : string;
  pfContainer : string;
  pfPorts : list string;
  pfActive : bool
}.

Definition FQN_of (pf : PortForwarder) : Identity :=
  PortForwardID (pfPath pf) (pfContainer pf).

Definition SetActive (b : bool) (pf : PortForwarder) : PortForwarder :=
  {| pfPath := pfPath pf; pfContainer := pfContainer pf;
     pfPorts := pfPorts pf; pfActive := b |}.

Definition Handle := nat.

Inductive FlashMsg :=
| FlashErr (err : string)
| FlashInfo (msg : string).

(** The two closures [runForward] hands to [QueueUpdateDraw]. *)
Inductive UIUpdate :=
| UpdActivated (pf : nat)
| UpdDeactivate (pf : nat).

Inductive Task :=
| GoRunForward (pf : nat) (fwd : Handle).

(** The application as the extender sees it.  Forwarder objects live in
    [appObjects] and are shared by reference between the registry, the
    background task and the queued closures. *)
Record App := {
  appObjects : gmap nat PortForwarder;
  appForwarders : gmap Identity nat;
  appFlash : list FlashMsg;
  appUpdates : list UIUpdate;
  appTasks : list Task;
  appDialogs : list (string * list string);
  appDismissed : nat
}.

Definition App_withObjects (o : gmap nat PortForwarder) (a : App) : App :=
  {| appObjects := o; appForwarders := appForwarders a; appFlash := appFlash a;
     appUpdates := appUpdates a; appTasks := appTasks a;
     appDialogs := appDialogs a; appDismissed := appDismissed a |}.

Definition App_withForwarders (f : gmap Identity nat) (a : App) : App :=
  {| appObjects := appObjects a; appForwarders := f; appFlash := appFlash a;
     appUpdates := appUpdates a; appTasks := appTasks a;
     appDialogs := appDialogs a; appDismissed := appDismissed a |}.

Definition Flash (m : FlashMsg) (a : App) : App :=
  {| appObjects := appObjects a; appForwarders := appForwarders a;
     appFlash := appFlash a ++ [m];
     appUpdates := appUpdates a; appTasks := appTasks a;
     appDialogs := appDialogs a; appDismissed := appDismissed a |}.

Definition QueueUpdateDraw (u : UIUpdate) (a : App) : App :=
  {| appObjects := appObjects a; appForwarders := appForwarders a;
     appFlash := appFlash a;
     appUpdates := appUpdates a ++ [u]; appTasks := appTasks a;
     appDialogs := appDialogs a; appDismissed := appDismissed a |}.

Definition App_withUpdates (us : list UIUpdate) (a : App) : App :=
  {| appObjects := appObjects a; appForwarders := appForwarders a;
     appFlash := appFlash a;
     appUpdates := us; appTasks := appTasks a;
     appDialogs := appDialogs a; appDismissed := appDismissed a |}.

Definition Go (k : Task) (a : App) : App :=
  {| appObjects := appObjects a; appForwarders := appForwarders a;
     appFlash := appFlash a;
     appUpdates := appUpdates a; appTasks := appTasks a ++ [k];
     appDialogs := appDialogs a; appDismissed := appDismissed a |}.

Definition ShowPortForwards (path : string) (ports : list string) (a : App) : App :=
  {| appObjects := appObjects a; appForwarders := appForwarders a;
     appFlash := appFlash a;
     appUpdates := appUpdates a; appTasks := appTasks a;
     appDialogs := appDialogs a ++ [(path, ports)];
     appDismissed := appDismissed a |}.

Definition DismissPortForwards (a : App) : App :=
  {| appObjects := appObjects a; appForwarders := appForwarders a;
     appFlash := appFlash a;
     appUpdates := appUpdates a; appTasks := appTasks a;
     appDialogs := appDialogs a;
     appDismissed := S (appDismissed a) |}.

Definition nilDereference : string :=
  "runtime error: invalid memory address or nil pointer dereference".

Definition deref (a : App) (pf : nat) : Exec PortForwarder :=
  match appObjects a !! pf with
  | Some o => Done o
  | None => Panic nilDereference
  end.

(** Modelled from the spec: the registry of [watch.Factory].  [AddForwarder]
    files a forwarder under its identity, [DeleteForwarder] removes the entry
    of an identity, [ForwarderFor] looks an identity up. *)
Definition AddForwarder (pf : nat) (a : App) : Exec App :=
  o ← deref a pf;
  Done (App_withForwarders (<[FQN_of o := pf]> (appForwarders a)) a).

Definition DeleteForwarder (id : Identity) (a : App) : App :=
  App_withForwarders (delete id (appForwarders a)) a.

Definition ForwarderFor (id : Identity) (a : App) : option nat :=
  appForwarders a !! id.

Definition pf_SetActive (pf : nat) (b : bool) (a : App) : Exec App :=
  o ← deref a pf;
  Done (App_withObjects (<[pf := SetActive b o]> (appObjects a)) a).

Inductive Protocol := ProtocolTCP | ProtocolUDP | ProtocolSCTP.

Record ContainerPort := {
  cpName : string;
  cpProtocol : Protocol;
  cpContainerPort : Z
}.

Record Container := { coName : string; coPorts : list ContainerPort }.

Record Pod := { podContainers : list Container }.

Definition Protocol_eqb (a b : Protocol) : bool :=
  match a, b with
  | ProtocolTCP, ProtocolTCP | ProtocolUDP, ProtocolUDP
  | ProtocolSCTP, ProtocolSCTP => true
  | _, _ => false
  end.

(** What the extender calls into: the operating system's listener, the
    cluster accessors, the forwarding provider, and the runtime's [range]
    over a map, which lists the entries in an order of its own choosing. *)
Record Services := {
  Listener : Type;
  net_Listen : string -> string -> Listener + string;
  Listener_Close : Listener -> option string;
  Accessor : Type;
  Controller : Type;
  AccessorFor : string -> Accessor + string;
  asController : Accessor -> option Controller;
  Controller_Pod : Controller -> string -> string * option string;
  Object : Type;
  Factory_Get : string -> string -> Object + string;
  FromUnstructured : Object -> Pod + string;
  client_FQN : string -> string -> string;
  Itoa : Z -> string;
  PortForwarder_Start :
    string -> string -> PortTunnel -> (PortForwarder * Handle) + string;
  ForwardPorts : Handle -> option string;
  Map_range : gmap string (list ContainerPort) -> list (string * list ContainerPort)
}.

Definition dquote : string := String (ascii_of_nat 34) EmptyString.

(** The verb [%q] on a plain word. *)
Definition quoted (s : string) : string := dquote +:+ s +:+ dquote.

Section Extender.
Context (svc : Services).

Definition fetchPodName (gvr path : string) : string * option string :=
  match AccessorFor svc gvr with
  | inr _ => ("", None)
  | inl res =>
      match asController svc res with
      | None => ("", Some ("expecting a controller resource for " +:+ quoted gvr))
      | Some ctrl => Controller_Pod svc ctrl path
      end
  end.

Definition tryListenPort (address port : string) : option string :=
  match net_Listen svc "tcp" (address +:+ ":" +:+ port) with
  | inr err => Some err
  | inl server => Listener_Close svc server
  end.

(** The closures queued by [runForward], as the UI thread runs them. *)
Definition runUpdate (u : UIUpdate) (a : App) : Exec App :=
  match u with
  | UpdActivated pf =>
      o ← deref a pf;
      port ← at_index (pfPorts o) 0;
      let a := Flash (FlashInfo ("PortForward activated " +:+ pfPath o +:+ ":" +:+ port)) a in
      Done (DismissPortForwards a)
  | UpdDeactivate pf =>
      o ← deref a pf;
      let a := DeleteForwarder (FQN_of o) a in
      pf_SetActive pf false a
  end.

Fixpoint runUpdates (us : list UIUpdate) (a : App) : Exec App :=
  match us with
  | [] => Done a
  | u :: us' => a ← runUpdate u a; runUpdates us' a
  end.

(** The UI thread empties the update queue. *)
Definition drainUpdates (a : App) : Exec App :=
  runUpdates (appUpdates a) (App_withUpdates [] a).

Definition runForward (pf : nat) (f : Handle) (a : App) : Exec App :=
  a ← AddForwarder pf a;
  let a := QueueUpdateDraw (UpdActivated pf) a in
  a ← pf_SetActive pf true a;
  match ForwardPorts svc f with
  | Some err => Done (Flash (FlashErr err) a)
  | None => Done (QueueUpdateDraw (UpdDeactivate pf) a)
  end.

Definition NewPortForwarder (a : App) : nat * App :=
  let pf := fresh (dom (appObjects a)) in
  (pf, App_withObjects
         (<[pf := {| pfPath := ""; pfContainer := ""; pfPorts := [];
                     pfActive := false |}]> (appObjects a)) a).

Definition alreadyActive : string := "A port-forward is already active on this pod".

Definition startFwdCB (path co : string) (t : PortTunnel) (a : App) : App :=
  match tryListenPort (ptAddress t) (ptLocalPort t) with
  | Some err => Flash (FlashErr err) a
  | None =>
      match ForwarderFor (PortForwardID path co) a with
      | Some _ => Flash (FlashErr alreadyActive) a
      | None =>
          let '(pf, a) := NewPortForwarder a in
          match PortForwarder_Start svc path co t with
          | inr err => Flash (FlashErr err) a
          | inl (o, fwd) =>
              let a := App_withObjects (<[pf := o]> (appObjects a)) a in
              Go (GoRunForward pf fwd) a
          end
      end
  end.

Fixpoint fetchPodPorts_collect (cos : list Container)
         (pp : gmap string (list ContainerPort)) : gmap string (list ContainerPort) :=
  match cos with
  | [] => pp
  | co :: cos' => fetchPodPorts_collect cos' (<[coName co := coPorts co]> pp)
  end.

Definition fetchPodPorts (path : string)
  : gmap string (list ContainerPort) + string :=
  match Factory_Get svc "v1/pods" path with
  | inr err => inr err
  | inl o =>
      match FromUnstructured svc o with
      | inr err => inr err
      | inl pod => inl (fetchPodPorts_collect (podContainers pod) ∅)
      end
  end.

Fixpoint showFwdDialog_ports (co : string) (pp : list ContainerPort)
         (ports : list string) : list string :=
  match pp with
  | [] => ports
  | p :: pp' =>
      if negb (Protocol_eqb (cpProtocol p) ProtocolTCP)
      then showFwdDialog_ports co pp' ports
      else showFwdDialog_ports co pp'
             (ports ++ [client_FQN svc co (cpName p) +:+ ":" +:+
                        Itoa svc (cpContainerPort p)])
  end.

Fixpoint showFwdDialog_range (mm : list (string * list ContainerPort))
         (ports : list string) : list string :=
  match mm with
  | [] => ports
  | (co, pp) :: mm' => showFwdDialog_range mm' (showFwdDialog_ports co pp ports)
  end.

Definition showFwdDialog (path : string) (a : App) : App * option string :=
  match fetchPodPorts path with
  | inr _ => (a, None)
  | inl mm =>
      let ports := showFwdDialog_range (Map_range svc mm) [] in
      if (length ports =? 0)%nat
      then (a, Some ("no tcp ports found on " +:+ path))
      else (ShowPortForwards path ports a, None)
  end.

(** [portFwdCmd]: [selected] is what [GetSelectedItem] answers; the result
    is the event handed back ([None] for [nil]) and the new state. *)
Definition portFwdCmd (gvr selected : string) (evt : Z) (a : App) : option Z * App :=
  let path := selected in
  if String.eqb path "" then (Some evt, a)
  else
    match fetchPodName gvr path with
    | (_, Some err) => (None, Flash (FlashErr err) a)
    | (pod, None) =>
        match showFwdDialog pod a with
        | (a, Some err) => (None, Flash (FlashErr err) a)
        | (a, None) => (None, a)
        end
    end.
End Extender.

(** ** What the fuzzy finder promises

    [fuzzy.Find] returns the candidates that contain the pattern's
    characters in order, upper and lower case alike, each with its position
    in the input, best score first; an empty pattern matches nothing. *)

Fixpoint subseqFold (q s : string) : bool :=
  match s with
  | EmptyString =>
      match q with
      | EmptyString => true
      | String _ _ => false
      end
  | String c s' =>
      match q with
      | EmptyString => true
      | String p q' =>
          if Ascii.eqb (lower p) (lower c) then subseqFold q' s' else subseqFold q s'
      end
  end.

Definition fuzzyMatches (q s : string) : bool :=
  negb (String.eqb q "") && subseqFold q s.

Record FinderSpec (Find : Finder) : Prop := {
  find_sound : forall q ss m,
    m ∈ Find q ss ->
    0 <= mIndex m /\ ss !! Z.to_nat (mIndex m) = Some (mStr m) /\
    fuzzyMatches q (mStr m) = true;
  find_complete : forall q ss (i : nat) s,
    ss !! i = Some s -> fuzzyMatches q s = true ->
    Z.of_nat i ∈ mIndex <$> Find q ss;
  find_NoDup : forall q ss, NoDup (mIndex <$> Find q ss);
  find_best_first : forall q ss,
    StronglySorted (fun a b => mScore b <= mScore a) (Find q ss)
}.

(** A finder is tie-stable when the score is a function of pattern and
    candidate and equally scored candidates keep their input order. *)
Record FinderStable (Find : Finder) : Prop := {
  find_score_of_candidate : forall q ss ss' m m',
    m ∈ Find q ss -> m' ∈ Find q ss' -> mStr m = mStr m' -> mScore m = mScore m';
  find_ties_in_order : forall q ss,
    StronglySorted (fun a b => mScore a = mScore b -> mIndex a < mIndex b) (Find q ss)
}.

(** ** Instances to run the code on

    Two finders that rank by the number of unmatched characters and differ
    only in how they order equal scores, a regular-expression engine for
    literal expressions, and the simplest collaborators and services. *)

Definition unmatchedPenalty (q s : string) : Z :=
  Z.of_nat (String.length q) - Z.of_nat (String.length s).

Fixpoint candidates (q : string) (i : Z) (ss : list string) : list Match :=
  match ss with
  | [] => []
  | s :: ss' =>
      if fuzzyMatches q s
      then {| mStr := s; mIndex := i; mScore := unmatchedPenalty q s |}
             :: candidates q (i + 1) ss'
      else candidates q (i + 1) ss'
  end.

Definition bestFirstTiesInOrder (a b : Match) : Prop :=
  mScore b < mScore a \/ (mScore a = mScore b /\ mIndex a <= mIndex b).

Definition bestFirstTiesReversed (a b : Match) : Prop :=
  mScore b < mScore a \/ (mScore a = mScore b /\ mIndex b <= mIndex a).

Global Instance bestFirstTiesInOrder_dec a b : Decision (bestFirstTiesInOrder a b).
Proof. unfold bestFirstTiesInOrder. apply _. Defined.

Global Instance bestFirstTiesReversed_dec a b : Decision (bestFirstTiesReversed a b).
Proof. unfold bestFirstTiesReversed. apply _. Defined.

Definition stableFind : Finder :=
  fun q ss => merge_sort bestFirstTiesInOrder (candidates q 0 ss).

Definition reversingFind : Finder :=
  fun q ss => merge_sort bestFirstTiesReversed (candidates q 0 ss).

Fixpoint contains (needle hay : string) : bool :=
  String.prefix needle hay ||
  match hay with
  | EmptyString => false
  | String _ hay' => contains needle hay'
  end.

Definition isMeta (c : ascii) : bool :=
  existsb (Ascii.eqb c) (list_ascii_of_string "\.+*?()|[]{}^$").

Record Literal := { litFold : bool; litText : string }.

(** The literal fragment of the expression language: ordinary characters
    behind an optional [(?i)] flag.  An expression with a metacharacter is
    turned down; for an unclosed parenthesis that is what [regexp.Compile]
    does too, and the examples use no other metacharacter. *)
Definition Literal_Compile (expr : string) : Literal + string :=
  let fold := String.prefix "(?i)" expr in
  let body := if fold then string_drop 4 expr else expr in
  if existsb isMeta (list_ascii_of_string body)
  then inr ("error parsing regexp: " +:+ expr)
  else inl {| litFold := fold; litText := body |}.

Definition Literal_MatchString (rx : Literal) (s : string) : bool :=
  if litFold rx then contains (lower_string (litText rx)) (lower_string s)
  else contains (litText rx) s.

Definition literalRx : RegexEngine :=
  {| Regexp := Literal; Compile := Literal_Compile; MatchString := Literal_MatchString |}.

Fixpoint positionOf (rows : RowEvents) (id : string) (i : Z) : Z * bool :=
  match rows with
  | [] => (0, false)
  | re :: rows' =>
      if String.eqb (rowID (reRow re)) id then (i, true) else positionOf rows' id (i + 1)
  end.

Definition plainCollaborators : Collaborators :=
  {| ErrColor := 1;
     DefaultColorer := fun _ _ _ => 0;
     KeyShiftP := 80;
     IsAllNamespaces := fun ns => String.eqb ns "";
     IsClusterScoped := fun ns => String.eqb ns "-";
     Columns := fun h _ => hcName <$> h;
     Customize := fun data _ _ => data;
     Sort := fun rows _ _ _ _ => rows;
     FindIndex := fun rows id => positionOf rows id 0;
     ComputeMaxColumns := fun pads _ _ _ => pads;
     Deltas := fun _ _ => "";
     IsASCII := fun _ => true;
     Pad := fun s _ => s;
     updateSelection := fun _ s => s |}.

Definition column (name : string) : HeaderColumn :=
  {| hcName := name; hcAlign := AlignLeft; hcDecorator := None;
     hcWide := false; hcMX := false; hcTime := false |}.

Definition row (id : string) (fields : list string) : RowEvent :=
  {| reRow := {| rowID := id; rowFields := fields |}; reDeltas := [] |}.

Definition exampleTable (query : string) (toast : bool) (sortName : string) : Table :=
  {| tSelectTable :=
       {| stGrid := ∅;
          stModel := {| mdNamespace := "default"; mdClusterWide := false;
                        mdPeek := {| tdHeader := []; tdRowEvents := [];
                                     tdNamespace := "default" |} |};
          stMarks := ∅; stSelectedRow := 0 |};
     tActions := ∅;
     tGVR := "v1/pods";
     tCmdBuff := {| cbBuff := query; cbActive := true |};
     tStyles := {| stHeaderFgColor := 2; stHeaderBgColor := 3;
                   stSorterColor := "aqua"; stMarkColor := 4 |};
     tViewSetting := None;
     tSortCol := {| scName := sortName; scAsc := true |};
     tColorerFn := None;
     tWide := false;
     tToast := toast;
     tHeader := [column "NAME"; column "VALID"];
     tHasMetrics := false;
     tLog := [] |}.

Definition namesData : TableData :=
  {| tdHeader := [column "NAME"];
     tdRowEvents := [row "alpha" ["alpha"]; row "beta" ["beta"]; row "gamma" ["gamma"]];
     tdNamespace := "default" |}.

Definition tiedData : TableData :=
  {| tdHeader := [column "NAME"];
     tdRowEvents := [row "a1" ["a1"]; row "a2" ["a2"]];
     tdNamespace := "default" |}.

Definition toastData : TableData :=
  {| tdHeader := [column "NAME"; column "VALID"];
     tdRowEvents := [row "p1" ["p1"; ""]; row "p2" ["p2"; "no endpoints"];
                     row "p3" ["p3"; ""]];
     tdNamespace := "default" |}.

Definition overflowRow : RowEvent := row "p1" ["p1"; ""; "stray"; "extra"].

Definition exampleServices (listenErr fwdErr : option string) : Services :=
  {| Listener := unit;
     net_Listen := fun _ _ => match listenErr with
                              | Some e => inr e
                              | None => inl tt
                              end;
     Listener_Close := fun _ => None;
     Accessor := unit;
     Controller := unit;
     AccessorFor := fun gvr => inr ("no accessor for " +:+ gvr);
     asController := fun _ => None;
     Controller_Pod := fun _ path => (path, None);
     Object := unit;
     Factory_Get := fun _ path => inr ("pod not found " +:+ path);
     FromUnstructured := fun _ => inr "conversion failed";
     client_FQN := fun ns n => ns +:+ "/" +:+ n;
     Itoa := fun _ => "0";
     PortForwarder_Start := fun path co t =>
       inl ({| pfPath := path; pfContainer := co;
               pfPorts := [ptLocalPort t +:+ ":" +:+ ptContainerPort t];
               pfActive := false |}, 0%nat);
     ForwardPorts := fun _ => fwdErr;
     Map_range := map_to_list |}.

Definition webTunnel : PortTunnel :=
  {| ptAddress := "localhost"; ptLocalPort := "8080"; ptContainerPort := "80" |}.

Definition webForwarder : PortForwarder :=
  {| pfPath := "ns/pod"; pfContainer := "web"; pfPorts := ["8080:80"];
     pfActive := false |}.

Definition emptyApp : App :=
  {| appObjects := ∅; appForwarders := ∅; appFlash := []; appUpdates := [];
     appTasks := []; appDialogs := []; appDismissed := 0 |}.

(** An application holding the forwarder object [webForwarder] at reference
    [0], not yet registered. *)
Definition appWithObject : App :=
  App_withObjects {[ 0%nat := webForwarder ]} emptyApp.

(** An application where the tunnel of [("ns/pod", "web")] is registered. *)
Definition appWithTunnel : App :=
  App_withForwarders {[ PortForwardID "ns/pod" "web" := 0%nat ]} appWithObject.

(** ** Vocabulary of the statements *)

(** The value a row shows in column [i]. *)
Definition fieldAt (i : nat) (re : RowEvent) : option string :=
  rowFields (reRow re) !! i.

Definition hasField (i : nat) (re : RowEvent) : Prop :=
  is_Some (fieldAt i re).

(** The toast filter's test on column [i]. *)
Definition keepsToast (i : nat) (re : RowEvent) : bool :=
  match fieldAt i re with
  | Some v => negb (String.eqb v "")
  | None => false
  end.

(** The regex filter's test: the fields joined by blanks match. *)
Definition rxKeeps (rxe : RegexEngine) (rx : Regexp rxe) (re : RowEvent) : bool :=
  MatchString rxe rx (Join (rowFields (reRow re)) " ").

(** The fuzzy filter's test on the name column [i]. *)
Definition fuzzyKeeps (q : string) (i : nat) (re : RowEvent) : bool :=
  match fieldAt i re with
  | Some v => fuzzyMatches q v
  | None => false
  end.

Definition withRows (data : TableData) (rows : RowEvents) : TableData :=
  {| tdHeader := tdHeader data; tdRowEvents := rows; tdNamespace := tdNamespace data |}.

(** What [Table.filtered] feeds to the query filters: the snapshot, run
    through the toast filter when the flag is set. *)
Definition toastStage (t : Table) (data : TableData) : Exec TableData :=
  if tToast t then filterToast data else Done data.

(** The name a row shows in column [i] (empty when the row is too short). *)
Definition nameAt (i : nat) (re : RowEvent) : string :=
  match fieldAt i re with
  | Some v => v
  | None => ""
  end.

(** A row the fuzzy filter can read column [index] of. *)
Definition fuzzyReady (index : Z) (re : RowEvent) : Prop :=
  0 <= index /\ hasField (Z.to_nat index) re.

Definition matchPos (m : Match) : nat := Z.to_nat (mIndex m).

(** The rows a list of matches points at, in the order of the matches. *)
Definition pickRows (rows : RowEvents) (mm : list Match) : RowEvents :=
  omap (fun m => rows !! matchPos m) mm.

(** The element at position [j] exists and passes the test [P]. *)
Definition passesAt {A : Type} (P : A -> bool) (l : list A) (j : nat) : bool :=
  match l !! j with
  | Some x => P x
  | None => false
  end.

(** A column the controller does not display: the namespace column outside
    a cluster-wide view, a metrics column without metrics. *)
Definition hidden (t : Table) (hc : HeaderColumn) : bool :=
  (String.eqb (hcName hc) "NAMESPACE" && negb (mdClusterWide (GetModel t)))
  || (hcMX hc && negb (tHasMetrics t)).

(** How many of the given columns are displayed; for the columns before
    position [c] this is the display column of field [c]. *)
Definition shownIn (t : Table) (hs : Header) : nat :=
  length (List.filter (fun hc => negb (hidden t hc)) hs).

(** The log entries for the fields at positions [c .. c + len - 1] that lie
    beyond a header of [n] columns. *)
Definition overflowEntries (gvr : string) (n c len : nat) : list LogEntry :=
  (fun j => LogFieldHeaderOverflow gvr j n) <$>
  List.filter (fun j => (n <=? j)%nat) (seq c len).

Definition withSortName (name : string) (t : Table) : Table :=
  Table_withSortCol {| scName := name; scAsc := scAsc (tSortCol t) |} t.

(** ** Hot keys and plugins (package view, actions.go) *)

Fixpoint hasAll (scopes : list string) : bool :=
  match scopes with
  | [] => false
  | s :: scopes' => if String.eqb s "all" then true else hasAll scopes'
  end.

Fixpoint includes (aliases : list string) (s : string) : bool :=
  match aliases with
  | [] => false
  | a :: aliases' => if String.eqb a s then true else includes aliases' s
  end.

Fixpoint inScope_range (scopes aliases : list string) : bool :=
  match scopes with
  | [] => false
  | s :: scopes' => if includes aliases s then true else inScope_range scopes' aliases
  end.

Definition inScope (scopes aliases : list string) : bool :=
  if hasAll scopes then true else inScope_range scopes aliases.

(** The handlers the two binders install: the closures of [execCmd] and
    [gotoCmd], told apart by what they captured. *)
Inductive Handler :=
| ExecCmd (bin : string) (background : bool) (args : list string)
| GotoCmd (cmd path : string).

(** A binding made by [ui.NewKeyAction] or by [ui.NewSharedKeyAction]. *)
Inductive Binding :=
| KeyActionOf (description : string) (action : Handler) (visible : bool)
| SharedKeyActionOf (description : string) (action : Handler) (visible : bool).

Record HotKey := {
  hkShortCut : string;
  hkDescription : string;
  hkCommand : string
}.

Record Plugin := {
  plScopes : list string;
  plShortCut : string;
  plDescription : string;
  plCommand : string;
  plBackground : bool;
  plArgs : list string
}.

Inductive BinderLog :=
| WarnHotKeyShortcut (err : string)
| WarnHotKeyOverride (name : string)
| WarnPluginShortcut (err : string)
| WarnPluginOverride (name : string).

Section Binders.
(** [asKey] is not among the sources: it maps a shortcut to a key or fails. *)
Context (asKey : string -> Key + string).

(** The loop of [hotKeyActions] over the loaded hot keys, in the order the
    map iteration happens to deliver them. *)
Fixpoint hotKeyActions_range (hh : list (string * HotKey))
         (aa : gmap Key Binding) (log : list BinderLog)
  : gmap Key Binding * list BinderLog :=
  match hh with
  | [] => (aa, log)
  | (k, hk) :: hh' =>
      match asKey (hkShortCut hk) with
      | inr err => hotKeyActions_range hh' aa (log ++ [WarnHotKeyShortcut err])
      | inl key =>
          match aa !! key with
          | Some _ => hotKeyActions_range hh' aa (log ++ [WarnHotKeyOverride k])
          | None =>
              hotKeyActions_range hh'
                (<[key := SharedKeyActionOf (hkDescription hk)
                                            (GotoCmd (hkCommand hk) "") false]> aa)
                log
          end
      end
  end.

(** [hotKeyActions]: [loaded] is what [config.NewHotKeys().Load()] gave. *)
Definition hotKeyActions (loaded : list (string * HotKey) + string)
           (aa : gmap Key Binding) (log : list BinderLog)
  : gmap Key Binding * list BinderLog :=
  match loaded with
  | inr _ => (aa, log)
  | inl hh => hotKeyActions_range hh aa log
  end.

Fixpoint pluginActions_range (aliases : list string) (pp : list (string * Plugin))
         (aa : gmap Key Binding) (log : list BinderLog)
  : gmap Key Binding * list BinderLog :=
  match pp with
  | [] => (aa, log)
  | (k, plugin) :: pp' =>
      if negb (inScope (plScopes plugin) aliases)
      then pluginActions_range aliases pp' aa log
      else
        match asKey (plShortCut plugin) with
        | inr err => pluginActions_range aliases pp' aa (log ++ [WarnPluginShortcut err])
        | inl key =>
            match aa !! key with
            | Some _ => pluginActions_range aliases pp' aa (log ++ [WarnPluginOverride k])
            | None =>
                pluginActions_range aliases pp'
                  (<[key := KeyActionOf (plDescription plugin)
                                        (ExecCmd (plCommand plugin) (plBackground plugin)
                                                 (plArgs plugin)) true]> aa)
                  log
            end
        end
  end.

(** [pluginActions]: [aliases] is [r.Aliases()], [loaded] what
    [config.NewPlugins().Load()] gave. *)
Definition pluginActions (aliases : list string)
           (loaded : list (string * Plugin) + string)
           (aa : gmap Key Binding) (log : list BinderLog)
  : gmap Key Binding * list BinderLog :=
  match loaded with
  | inr _ => (aa, log)
  | inl pp => pluginActions_range aliases pp aa log
  end.
End Binders.

(** What [execCmd] launches. *)
Record shellOpts := {
  soClear : bool;
  soBinary : string;
  soBackground : bool;
  soArgs : list string
}.

(** What a plugin command leaves behind: flash messages, the commands
    handed to [run], and the error log. *)
Record Shell := {
  shFlash : list FlashMsg;
  shRuns : list shellOpts;
  shErrors : list string
}.

(** The runner as [execCmd] sees it: the selection, the environment
    function ([None] for a nil [EnvFn]; [envFor] is applied to the
    namespace and the argument) and the outcome of [run]. *)
Record Runner := {
  rnSelectedItem : string;
  rnEnvFn : option (string -> string -> string + string);
  rnNamespaced : string -> string * string;
  rnRun : shellOpts -> bool
}.

Fixpoint execCmd_args (envFor : string -> string -> string + string) (ns : string)
         (args : list string) (aa : list string) : list string + string :=
  match args with
  | [] => inl aa
  | a :: args' =>
      match envFor ns a with
      | inr err => inr err
      | inl v => execCmd_args envFor ns args' (aa ++ [v])
      end
  end.

(** The handler [execCmd] returns, run on an event. *)
Definition execCmd (r : Runner) (bin : string) (bg : bool) (args : list string)
           (evt : Z) (sh : Shell) : option Z * Shell :=
  let path := rnSelectedItem r in
  if String.eqb path "" then (Some evt, sh)
  else
    let ns := fst (rnNamespaced r path) in
    match rnEnvFn r with
    | None => (None, sh)
    | Some envFor =>
        match execCmd_args envFor ns args [] with
        | inr err =>
            (None, {| shFlash := shFlash sh; shRuns := shRuns sh;
                      shErrors := shErrors sh ++ [err] |})
        | inl aa =>
            let opts := {| soClear := true; soBinary := bin;
                           soBackground := bg; soArgs := aa |} in
            let msg := if rnRun r opts
                       then "Plugin command launched successfully!"
                       else "Plugin command failed!" in
            (None, {| shFlash := shFlash sh ++ [FlashInfo msg];
                      shRuns := shRuns sh ++ [opts];
                      shErrors := shErrors sh |})
        end
    end.

(** The binding a plugin, or a hot key, gets when its key is free. *)
Definition pluginBinding (plugin : Plugin) : Binding :=
  KeyActionOf (plDescription plugin)
              (ExecCmd (plCommand plugin) (plBackground plugin) (plArgs plugin)) true.

Definition hotKeyBinding (hk : HotKey) : Binding :=
  SharedKeyActionOf (hkDescription hk) (GotoCmd (hkCommand hk) "") false.







(** ** The helm chart renderer (package render, chart.go) *)

(** A helm release as [Render] reads it; the pointers of the helm types
    ([Release], [Info], [Chart], [Metadata]) are options. *)
Record ChartMetadata := {
  cmName : string;
  cmVersion : string;
  cmAppVersion : string
}.

Record HelmChart := { hcMetadata : option ChartMetadata }.

Record ReleaseInfo := {
  riStatus : string;
  riLastDeployed : Z
}.

Record Release := {
  rlNamespace : string;
  rlName : string;
  rlVersion : Z;
  rlInfo : option ReleaseInfo;
  rlChart : option HelmChart
}.

(** The object handed to [Render] with its dynamic type: a [ChartRes], or
    something else of the named type. *)
Inductive RenderObject :=
| ChartRes (release : option Release)
| OtherObject (typeName : string).

(** What the renderer calls into and the sources do not contain. *)
Record ChartHelpers := {
  chFQN : string -> string -> string;
  chItoa : Z -> string;
  chAsStatus : option string -> string;
  chToAge : Z -> string;
  chAgeDecorator : string -> string;
  chHappy : string -> Header -> Row -> bool;
  chErrColor : Color;
  chColorMediumSpringGreen : Color
}.

Definition chartColumn (name : string) (wide time : bool)
           (decorator : option (string -> string)) : HeaderColumn :=
  {| hcName := name; hcAlign := AlignLeft; hcDecorator := decorator;
     hcWide := wide; hcMX := false; hcTime := time |}.

Section Chart.
Context (hp : ChartHelpers).

Definition Chart_ColorerFunc : ColorerFunc :=
  fun ns h re =>
    if negb (chHappy hp ns h (reRow re)) then chErrColor hp
    else chColorMediumSpringGreen hp.

Definition Chart_Header (ns : string) : Header :=
  [ chartColumn "NAMESPACE" false false None;
    chartColumn "NAME" false false None;
    chartColumn "REVISION" false false None;
    chartColumn "STATUS" false false None;
    chartColumn "CHART" false false None;
    chartColumn "APP VERSION" false false None;
    chartColumn "VALID" true false None;
    chartColumn "AGE" false true (Some (chAgeDecorator hp)) ].

Definition Chart_diagnose (s : string) : option string :=
  if negb (String.eqb s "deployed") then Some "chart is in an invalid state"
  else None.

Definition nonNil {A : Type} (p : option A) : Exec A :=
  match p with
  | Some x => Done x
  | None => Panic nilDereference
  end.

(** [Render]: the row after the call, and the error returned. *)
Definition Chart_Render (o : RenderObject) (ns : string) (r : Row)
  : Exec (Row * option string) :=
  match o with
  | OtherObject typeName => Done (r, Some ("expected ChartRes, but got " +:+ typeName))
  | ChartRes release =>
      rel ← nonNil release;
      let id := chFQN hp (rlNamespace rel) (rlName rel) in
      info ← nonNil (rlInfo rel);
      chart ← nonNil (rlChart rel);
      meta ← nonNil (hcMetadata chart);
      Done ({| rowID := id;
               rowFields :=
                 [ rlNamespace rel;
                   rlName rel;
                   chItoa hp (rlVersion rel);
                   riStatus info;
                   cmName meta +:+ "-" +:+ cmVersion meta;
                   cmAppVersion meta;
                   chAsStatus hp (Chart_diagnose (riStatus info));
                   chToAge hp (riLastDeployed info) ] |}, None)
  end.
End Chart.

(** The field a row shows under the header column called [name]. *)
Definition columnOf (h : Header) (name : string) (r : Row) : option string :=
  rowFields r !! Z.to_nat (IndexOf h name true).

Definition rowEvent (r : Row) : RowEvent := {| reRow := r; reDeltas := [] |}.

(** The row's STATUS column says something else than [deployed]. *)
Definition notDeployed (h : Header) (re : RowEvent) : bool :=
  match columnOf h "STATUS" (reRow re) with
  | Some s => negb (String.eqb s "deployed")
  | None => false
  end.

(** A row [Render] made of some chart release. *)
Definition renderedChart (hp : ChartHelpers) (re : RowEvent) : Prop :=
  reDeltas re = [] /\
  exists release ns r0,
    Chart_Render hp (ChartRes (Some release)) ns r0 = Done (reRow re, None).

Definition exampleHelpers : ChartHelpers :=
  {| chFQN := fun ns n => ns +:+ "/" +:+ n;
     chItoa := fun _ => "1";
     chAsStatus := fun e => match e with
                            | Some msg => msg
                            | None => ""
                            end;
     chToAge := fun _ => "5m";
     chAgeDecorator := fun s => s;
     chHappy := fun _ _ _ => true;
     chErrColor := 1;
     chColorMediumSpringGreen := 2 |}.

Definition exampleRelease (name status : string) : Release :=
  {| rlNamespace := "default"; rlName := name; rlVersion := 1;
     rlInfo := Some {| riStatus := status; riLastDeployed := 0 |};
     rlChart := Some {| hcMetadata :=
                          Some {| cmName := "nginx"; cmVersion := "1.0.0";
                                  cmAppVersion := "1.19" |} |} |}.

Definition exampleChartRow (name status : string) : Row :=
  {| rowID := "default/" +:+ name;
     rowFields := ["default"; name; "1"; status; "nginx-1.0.0"; "1.19";
                   (if String.eqb status "deployed" then ""
                    else "chart is in an invalid state"); "5m"] |}.

(** ** The table's commands (package ui, table.go) *)

Definition Table_withHeader (h : Header) (t : Table) : Table :=
  {| tSelectTable := tSelectTable t; tActions := tActions t; tGVR := tGVR t;
     tCmdBuff := tCmdBuff t; tStyles := tStyles t;
     tViewSetting := tViewSetting t; tSortCol := tSortCol t;
     tColorerFn := tColorerFn t; tWide := tWide t; tToast := tToast t;
     tHeader := h; tHasMetrics := tHasMetrics t; tLog := tLog t |}.

Definition Table_withToast (b : bool) (t : Table) : Table :=
  {| tSelectTable := tSelectTable t; tActions := tActions t; tGVR := tGVR t;
     tCmdBuff := tCmdBuff t; tStyles := tStyles t;
     tViewSetting := tViewSetting t; tSortCol := tSortCol t;
     tColorerFn := tColorerFn t; tWide := tWide t; tToast := b;
     tHeader := tHeader t; tHasMetrics := tHasMetrics t; tLog := tLog t |}.

Definition Table_withWide (b : bool) (t : Table) : Table :=
  {| tSelectTable := tSelectTable t; tActions := tActions t; tGVR := tGVR t;
     tCmdBuff := tCmdBuff t; tStyles := tStyles t;
     tViewSetting := tViewSetting t; tSortCol := tSortCol t;
     tColorerFn := tColorerFn t; tWide := b; tToast := tToast t;
     tHeader := tHeader t; tHasMetrics := tHasMetrics t; tLog := tLog t |}.

(** The frame style [SkinTitle] reads ([config.Frame]); colors are their
    configured names. *)
Record Frame := {
  frTitleFgColor : string;
  frTitleBgColor : string;
  frTitleHighlightColor : string;
  frTitleFilterColor : string;
  frTitleCounterColor : string;
  frMenuNumKeyColor : string
}.

(** The part of the Go [Table] the record [Table] leaves out: the path, the
    decorator, the frame style, and the title of the box it is drawn in. *)
Record TableView := {
  tvTable : Table;
  tvPath : string;
  tvDecorateFn : option (TableData -> TableData);
  tvFrame : Frame;
  tvTitle : string
}.

Definition TableView_withTable (t : Table) (v : TableView) : TableView :=
  {| tvTable := t; tvPath := tvPath v; tvDecorateFn := tvDecorateFn v;
     tvFrame := tvFrame v; tvTitle := tvTitle v |}.

Definition SetTitle (title : string) (v : TableView) : TableView :=
  {| tvTable := tvTable v; tvPath := tvPath v; tvDecorateFn := tvDecorateFn v;
     tvFrame := tvFrame v; tvTitle := title |}.

(** What the title code calls into: the configured color constants, the
    client's namespace helpers and the string library. *)
Record TitleHelpers := {
  thDefaultColor : string;
  thTransparentColor : string;
  thColorString : string -> string;
  thTitle : string -> string;
  thR : string -> string;
  thIsClusterWide : string -> bool;
  thNotNamespaced : string;
  thNamespaceAll : string;
  thClusterScope : string;
  thNamespaced : string -> string * string;
  thItoa : Z -> string;
  thTrimSpace : string -> string
}.

(** [strings.Replace] for a non-empty [old], the only use made of it:
    the first [n] occurrences from the left, all of them for a negative
    [n]; [skip] counts the bytes of an occurrence still to be passed. *)
Fixpoint Replace_from (s old new : string) (n : Z) (skip : nat) : string :=
  match s with
  | EmptyString => EmptyString
  | String c s' =>
      match skip with
      | S k => Replace_from s' old new n k
      | O =>
          if negb (n =? 0) && String.prefix old s
          then new +:+ Replace_from s' old new (n - 1) (String.length old - 1)
          else String c (Replace_from s' old new n 0)
      end
  end.

Definition Replace (s old new : string) (n : Z) : string :=
  Replace_from s old new n 0.

(** The title formats, with their verbs filled in. *)
Definition SearchFmt (buff : string) : string :=
  "<[filter:bg:r]/" +:+ buff +:+ "[fg:bg:-]> ".

Definition NSTitleFmt (base ns count : string) : string :=
  "[fg:bg:b] " +:+ base +:+ "([hilite:bg:b]" +:+ ns +:+
  "[fg:bg:-])[fg:bg:-][[count:bg:b]" +:+ count +:+ "[fg:bg:-]][fg:bg:-] ".

Definition TitleFmt (base count : string) : string :=
  "[fg:bg:b] " +:+ base +:+ "[fg:bg:-][[count:bg:b]" +:+ count +:+
  "[fg:bg:-]][fg:bg:-] ".

Definition sliceOutOfRange : string := "runtime error: slice bounds out of range".

(** The rows of the tview grid: one more than the last row holding a cell. *)
Definition GetRowCount (s : SelectTable) : Z :=
  Z.of_nat (map_fold (fun k _ n => Nat.max n (S (fst k))) 0%nat (stGrid s)).

Section Commands.
Context (rxe : RegexEngine) (Find : Finder) (ext : Collaborators) (th : TitleHelpers).

Definition TrimLabelSelector (s : string) : Exec string :=
  if (String.length s <? 2)%nat then Panic sliceOutOfRange
  else Done (thTrimSpace th (string_drop 2 s)).

Definition SkinTitle (fmat : string) (style : Frame) : string :=
  let bgColor := frTitleBgColor style in
  let bgColor := if String.eqb bgColor (thDefaultColor th)
                 then thTransparentColor th else bgColor in
  let fmat := Replace fmat "[fg:bg"
                ("[" +:+ thColorString th (frTitleFgColor style) +:+ ":" +:+
                 thColorString th bgColor) (-1) in
  let fmat := Replace fmat "[hilite"
                ("[" +:+ thColorString th (frTitleHighlightColor style)) 1 in
  let fmat := Replace fmat "[key"
                ("[" +:+ thColorString th (frMenuNumKeyColor style)) 1 in
  let fmat := Replace fmat "[filter"
                ("[" +:+ thColorString th (frTitleFilterColor style)) 1 in
  let fmat := Replace fmat "[count"
                ("[" +:+ thColorString th (frTitleCounterColor style)) 1 in
  Replace fmat ":bg:" (":" +:+ thColorString th bgColor +:+ ":") (-1).

(** The title up to the filter suffix. *)
Definition styleTitle_base (v : TableView) : string :=
  let t := tvTable v in
  let rc := GetRowCount (tSelectTable t) in
  let rc := if 0 <? rc then rc - 1 else rc in
  let base := thTitle th (thR th (tGVR t)) in
  let ns := mdNamespace (GetModel t) in
  let ns := if thIsClusterWide th ns || String.eqb ns (thNotNamespaced th)
            then thNamespaceAll th else ns in
  let path := tvPath v in
  let ns := if negb (String.eqb path "")
            then let '(cns, n) := thNamespaced th path in
                 if String.eqb cns (thClusterScope th) then n else path
            else ns in
  if String.eqb ns (thClusterScope th)
  then SkinTitle (TitleFmt base (thItoa th rc)) (tvFrame v)
  else SkinTitle (NSTitleFmt base ns (thItoa th rc)) (tvFrame v).

Definition styleTitle (v : TableView) : Exec string :=
  let title := styleTitle_base v in
  let buff := CmdBuff_String (tCmdBuff (tvTable v)) in
  if String.eqb buff "" then Done title
  else
    buff ← (if IsLabelSelector buff then TrimLabelSelector buff else Done buff);
    Done (title +:+ SkinTitle (SearchFmt buff) (tvFrame v)).

Definition UpdateTitle (v : TableView) : Exec TableView :=
  title ← styleTitle v;
  Done (SetTitle title v).

Definition Table_Update (v : TableView) (data : TableData) : Exec TableView :=
  let t := Table_withHeader (tdHeader data) (tvTable v) in
  let data := match tvDecorateFn v with
              | Some f => f data
              | None => data
              end in
  r ← filtered rxe Find ext t data;
  t ← doUpdate ext (snd r) (fst r);
  UpdateTitle (TableView_withTable t v).

Definition Table_Refresh (v : TableView) : Exec TableView :=
  let data := mdPeek (GetModel (tvTable v)) in
  if (length (tdHeader data) =? 0)%nat then Done v
  else Table_Update v data.

Definition Table_ResetToast (v : TableView) : Exec TableView :=
  Table_Refresh (TableView_withTable (Table_withToast false (tvTable v)) v).

Definition Table_ToggleToast (v : TableView) : Exec TableView :=
  Table_Refresh
    (TableView_withTable (Table_withToast (negb (tToast (tvTable v))) (tvTable v)) v).

Definition Table_ToggleWide (v : TableView) : Exec TableView :=
  Table_Refresh
    (TableView_withTable (Table_withWide (negb (tWide (tvTable v))) (tvTable v)) v).

(** The sort column once the handler of [SortColCmd] has set it, before
    the refresh. *)
Definition SortColCmd_set (name : string) (asc : bool) (sc : SortColumn) : SortColumn :=
  let a := negb (scAsc sc) in
  let a := if negb (String.eqb (scName sc) name) then asc else a in
  {| scName := name; scAsc := a |}.

(** The handler [SortColCmd] returns, run on an event; it hands back [nil]. *)
Definition Table_SortColCmd (name : string) (asc : bool) (v : TableView)
  : Exec TableView :=
  Table_Refresh
    (TableView_withTable
       (Table_withSortCol (SortColCmd_set name asc (tSortCol (tvTable v))) (tvTable v)) v).

Definition Table_SortInvertCmd (v : TableView) : Exec TableView :=
  Table_Refresh
    (TableView_withTable
       (Table_withSortCol {| scName := scName (tSortCol (tvTable v));
                             scAsc := negb (scAsc (tSortCol (tvTable v))) |}
                          (tvTable v)) v).

End Commands.

(** What a render pass has no business with: everything of the table but
    the grid and the log. *)
Definition Table_frame (t : Table) :=
  (tGVR t, tCmdBuff t, tStyles t, tViewSetting t, tSortCol t, tColorerFn t,
   tWide t, tToast t, tHeader t, tHasMetrics t, tActions t).

(** The header [doUpdate] draws: the customized one. *)
Definition shownHeader (ext : Collaborators) (t : Table) (data : TableData) : Header :=
  tdHeader (Customize ext data (doUpdate_cols ext t) (tWide t)).

Definition clearedQuery (t : Table) : Table :=
  Table_withCmdBuff (CmdBuff_Clear (tCmdBuff t)) (Table_logged LogInvalidFilter t).

Definition exampleTitles : TitleHelpers :=
  {| thDefaultColor := "default";
     thTransparentColor := "-";
     thColorString := fun c => c;
     thTitle := fun s => s;
     thR := fun gvr => gvr;
     thIsClusterWide := fun ns => String.eqb ns "";
     thNotNamespaced := "*";
     thNamespaceAll := "all";
     thClusterScope := "-";
     thNamespaced := fun path => ("", path);
     thItoa := fun _ => "3";
     thTrimSpace := fun s => s |}.

Definition exampleFrame : Frame :=
  {| frTitleFgColor := "aqua"; frTitleBgColor := "default";
     frTitleHighlightColor := "fuchsia"; frTitleFilterColor := "green";
     frTitleCounterColor := "white"; frMenuNumKeyColor := "pink" |}.

(** The table [t] over a model that holds [data]. *)
Definition tableOver (data : TableData) (t : Table) : Table :=
  Table_withSelectTable
    {| stGrid := stGrid (tSelectTable t);
       stModel := {| mdNamespace := mdNamespace (GetModel t);
                     mdClusterWide := mdClusterWide (GetModel t);
                     mdPeek := data |};
       stMarks := stMarks (tSelectTable t);
       stSelectedRow := stSelectedRow (tSelectTable t) |} t.

Definition exampleView (query : string) (toast : bool) (sortName : string)
           (data : TableData) : TableView :=
  {| tvTable := tableOver data (exampleTable query toast sortName);
     tvPath := ""; tvDecorateFn := None; tvFrame := exampleFrame; tvTitle := "" |}.

(** [SetColorerFn]. *)
Definition SetColorerFn (f : ColorerFunc) (t : Table) : Table :=
  {| tSelectTable := tSelectTable t; tActions := tActions t; tGVR := tGVR t;
     tCmdBuff := tCmdBuff t; tStyles := tStyles t;
     tViewSetting := tViewSetting t; tSortCol := tSortCol t;
     tColorerFn := Some f; tWide := tWide t; tToast := tToast t;
     tHeader := tHeader t; tHasMetrics := tHasMetrics t; tLog := tLog t |}.

(** The cell the header loop of [doUpdate] leaves for column [hc]: the one
    [AddHeaderCell] makes, in the header colors. *)
Definition headerCell (t : Table) (fg bg : Color) (hc : HeaderColumn) : TableCell :=
  SetTextColor fg
    (SetBackgroundColor bg
       (SetAlign (hcAlign hc)
          (SetExpansion 1
             (NewTableCell
                (sortIndicator (String.eqb (hcName hc) (scName (tSortCol t)))
                               (scAsc (tSortCol t)) (tStyles t) (hcName hc)))))).




(** * Properties *)

(** ** Slices and outcomes *)

Lemma at_index_nat {A : Type} (xs : list A) (i : nat) :
  at_index xs (Z.of_nat i) =
  match xs !! i with
  | Some x => Done x
  | None => Panic indexOutOfRange
  end.
Proof.
  unfold at_index. destruct (Z.ltb_spec (Z.of_nat i) 0) as [Hlt | _]; [lia |].
  by rewrite Nat2Z.id.
Qed.

Lemma at_index_Done {A : Type} (xs : list A) (i : Z) (x : A) :
  at_index xs i = Done x <-> 0 <= i /\ xs !! Z.to_nat i = Some x.
Proof.
  unfold at_index. destruct (Z.ltb_spec i 0) as [Hlt | Hge].
  - split; [discriminate | lia].
  - destruct (xs !! Z.to_nat i) as [y |]; split.
    + intros [= ->]. by split.
    + intros [_ [= ->]]. done.
    + discriminate.
    + intros [_ [=]].
Qed.

Lemma filter_sublist_of {A : Type} (f : A -> bool) (l : list A) :
  List.filter f l `sublist_of` l.
Proof.
  induction l as [| x l IH]; simpl; [constructor |].
  destruct (f x); by constructor.
Qed.

Lemma filter_elem_of {A : Type} (f : A -> bool) (l : list A) (x : A) :
  x ∈ List.filter f l <-> x ∈ l /\ f x = true.
Proof. rewrite !list_elem_of_In. apply filter_In. Qed.

Lemma filter_all_true {A : Type} (f : A -> bool) (l : list A) :
  Forall (fun x => f x = true) l -> List.filter f l = l.
Proof.
  induction 1 as [| x l Hx _ IH]; simpl; [done |]. by rewrite Hx, IH.
Qed.

Lemma filter_filter_same {A : Type} (f : A -> bool) (l : list A) :
  List.filter f (List.filter f l) = List.filter f l.
Proof.
  apply filter_all_true, Forall_forall. intros x Hx.
  apply filter_elem_of in Hx. tauto.
Qed.

(** ** The header lookup *)

Lemma IndexOf_from_range i h n w :
  IndexOf_from i h n w = -1 \/
  i <= IndexOf_from i h n w < i + Z.of_nat (length h).
Proof.
  revert i. induction h as [| c h IH]; intros i; simpl; [by left |].
  destruct (hcWide c && negb w).
  - destruct (IH (i + 1)) as [-> | ?]; [by left | right; lia].
  - destruct (String.eqb (hcName c) n); [right; lia |].
    destruct (IH (i + 1)) as [-> | ?]; [by left | right; lia].
Qed.

Lemma IndexOf_from_absent i h n w :
  0 <= i -> Forall (fun c => hcName c <> n) h -> IndexOf_from i h n w = -1.
Proof.
  intros Hi Hall. revert i Hi.
  induction Hall as [| c h Hc _ IH]; intros i Hi; simpl; [done |].
  apply String.eqb_neq in Hc. rewrite Hc.
  destruct (hcWide c && negb w); apply IH; lia.
Qed.

(** With wide columns included, the lookup finds the first column of the
    given name. *)
Lemma IndexOf_from_first i h n (k : nat) c :
  h !! k = Some c -> hcName c = n ->
  (forall j c', (j < k)%nat -> h !! j = Some c' -> hcName c' <> n) ->
  IndexOf_from i h n true = i + Z.of_nat k.
Proof.
  revert i k. induction h as [| c0 h IH]; intros i k Hk Hn Hfirst; [done |].
  simpl. rewrite andb_false_r.
  destruct k as [| k]; simpl in Hk.
  - injection Hk as ->. apply String.eqb_eq in Hn. rewrite Hn. lia.
  - assert (hcName c0 <> n) as Hc0 by (apply (Hfirst 0%nat); [lia | done]).
    apply String.eqb_neq in Hc0. rewrite Hc0.
    rewrite (IH (i + 1) k); [lia | done | done |].
    intros j c' Hj Hc'. apply (Hfirst (S j)); [lia | done].
Qed.

(** ** The toast filter *)

Lemma filterToast_loop_spec (i : nat) res toast :
  Forall (hasField i) res ->
  filterToast_loop (Z.of_nat i) res toast = Done (toast ++ List.filter (keepsToast i) res).
Proof.
  intros Hall. revert toast.
  induction Hall as [| re res [v Hv] _ IH]; intros toast; simpl.
  - by rewrite app_nil_r.
  - rewrite at_index_nat. unfold keepsToast, fieldAt in *. rewrite Hv. simpl.
    destruct (negb (String.eqb v "")); rewrite IH; [| done].
    by rewrite <- app_assoc.
Qed.

Lemma keepsToast_hasField i re : keepsToast i re = true -> hasField i re.
Proof.
  unfold keepsToast, hasField. destruct (fieldAt i re); [eauto | discriminate].
Qed.

(** C5. The toast filter keeps exactly the rows with a non-empty value in
    the validity column when the header has that column (at position [i],
    the first of that name), order unchanged, and returns the snapshot as
    it is when the header has no such column. *)
Theorem filterToast_keeps_invalid_rows (data : TableData) :
  (Forall (fun c => hcName c <> "VALID") (tdHeader data) ->
   filterToast data = Done data) /\
  (forall (i : nat) c,
      tdHeader data !! i = Some c -> hcName c = "VALID" ->
      (forall j c', (j < i)%nat -> tdHeader data !! j = Some c' -> hcName c' <> "VALID") ->
      Forall (hasField i) (tdRowEvents data) ->
      filterToast data = Done (withRows data (List.filter (keepsToast i) (tdRowEvents data))) /\
      List.filter (keepsToast i) (tdRowEvents data) `sublist_of` tdRowEvents data).
Proof.
  split.
  - intros Habsent. unfold filterToast, IndexOf.
    by rewrite IndexOf_from_absent.
  - intros i c Hi Hc Hfirst Hrows. split; [| apply filter_sublist_of].
    unfold filterToast, IndexOf.
    rewrite (IndexOf_from_first 0 _ _ i c Hi Hc Hfirst).
    destruct (Z.eqb_spec (0 + Z.of_nat i) (-1)) as [? | _]; [lia |].
    replace (0 + Z.of_nat i) with (Z.of_nat i) by lia.
    by rewrite filterToast_loop_spec.
Qed.

Lemma filterToast_keeps_invalid_rows_witness :
  filterToast namesData = Done namesData /\
  filterToast toastData = Done (withRows toastData [row "p2" ["p2"; "no endpoints"]]).
Proof.
  split.
  - apply (proj1 (filterToast_keeps_invalid_rows namesData)).
    repeat constructor; simpl; discriminate.
  - refine (proj1 (proj2 (filterToast_keeps_invalid_rows toastData) 1%nat
                     (column "VALID") _ _ _ _)).
    + reflexivity.
    + reflexivity.
    + intros j c' Hj Hc'. destruct j as [| j]; [| lia].
      injection Hc' as <-. simpl. discriminate.
    + repeat constructor; unfold hasField, fieldAt; simpl; eauto.
Defined.

(** ** The regex filter *)

Lemma rxFilter_loop_spec rxe (rx : Regexp rxe) res acc :
  rxFilter_loop rxe rx res acc = acc ++ List.filter (rxKeeps rxe rx) res.
Proof.
  revert acc. induction res as [| re res IH]; intros acc; simpl.
  - by rewrite app_nil_r.
  - unfold rxKeeps at 1.
    destruct (MatchString rxe rx _); rewrite IH; [| done].
    by rewrite <- app_assoc.
Qed.

(** C3. For a query that compiles (behind the case-insensitive flag), the
    regex filter keeps exactly the rows whose blank-joined fields match; the
    output is a sublist of the input rows, so a subset in the original
    order. *)
Theorem rxFilter_keeps_matching_rows (rxe : RegexEngine) (q : string)
        (data : TableData) (rx : Regexp rxe) :
  Compile rxe ("(?i)" +:+ q) = inl rx ->
  rxFilter rxe q data =
    (withRows data (List.filter (rxKeeps rxe rx) (tdRowEvents data)), None) /\
  List.filter (rxKeeps rxe rx) (tdRowEvents data) `sublist_of` tdRowEvents data.
Proof.
  intros Hrx. split; [| apply filter_sublist_of].
  unfold rxFilter. rewrite Hrx. by rewrite rxFilter_loop_spec.
Qed.

Lemma rxFilter_keeps_matching_rows_witness :
  rxFilter literalRx "ET" namesData = (withRows namesData [row "beta" ["beta"]], None).
Proof.
  exact (proj1 (rxFilter_keeps_matching_rows literalRx "ET" namesData
                  {| litFold := true; litText := "ET" |} eq_refl)).
Defined.

(** ** An expression that does not compile *)

Lemma rxFilter_invalid rxe q data e :
  Compile rxe ("(?i)" +:+ q) = inr e -> rxFilter rxe q data = (data, Some e).
Proof. intros He. unfold rxFilter. by rewrite He. Qed.

(** C2, as stated, fails: an expression that does not compile but carries
    the label prefix never reaches the regex filter, and the query buffer
    is left as it is. *)
Lemma invalid_label_query_keeps_buffer :
  Compile literalRx ("(?i)" +:+ "-l(") = inr "error parsing regexp: (?i)-l(" /\
  filtered literalRx stableFind plainCollaborators
           (exampleTable "-l(" false "") namesData
  = Done (namesData, exampleTable "-l(" false "") /\
  CmdBuff_String (tCmdBuff (exampleTable "-l(" false "")) <> "".
Proof. split; [reflexivity | split; [reflexivity | discriminate]]. Qed.

(** C2, amended.  For a query without the label or fuzzy prefix that does
    not compile, the regex filter returns the error and its input; the
    controller's view is what the regex step was given (the snapshot itself
    unless the toast flag is set, else the toast-filtered snapshot) and the
    query buffer ends up empty. *)
Theorem filtered_invalid_regexp (rxe : RegexEngine) (Find : Finder)
        (ext : Collaborators) (t : Table) (data view : TableData) (e : string) :
  Compile rxe ("(?i)" +:+ CmdBuff_String (tCmdBuff t)) = inr e ->
  IsLabelSelector (CmdBuff_String (tCmdBuff t)) = false ->
  IsFuzzySelector (CmdBuff_String (tCmdBuff t)) = false ->
  toastStage t data = Done view ->
  rxFilter rxe (CmdBuff_String (tCmdBuff t)) view = (view, Some e) /\
  (tToast t = false -> view = data) /\
  exists t',
    filtered rxe Find ext t data = Done (view, t') /\
    CmdBuff_String (tCmdBuff t') = "".
Proof.
  intros He Hl Hf Hview.
  split; [by apply rxFilter_invalid |].
  split.
  { intros Hoff. unfold toastStage in Hview. rewrite Hoff in Hview. congruence. }
  unfold filtered. fold (toastStage t data). rewrite Hview. simpl.
  rewrite Hl, Hf, orb_false_r.
  destruct (CmdBuff_Empty (tCmdBuff t)) eqn:Hempty.
  - exists t. split; [done |].
    unfold CmdBuff_Empty in Hempty. by apply String.eqb_eq in Hempty.
  - rewrite (rxFilter_invalid _ _ _ _ He). eexists. split; [done |]. done.
Qed.

Lemma filtered_invalid_regexp_witness :
  exists t',
    filtered literalRx stableFind plainCollaborators
             (exampleTable "zz(" true "") toastData
    = Done (withRows toastData [row "p2" ["p2"; "no endpoints"]], t') /\
    CmdBuff_String (tCmdBuff t') = "".
Proof.
  exact (proj2 (proj2 (filtered_invalid_regexp literalRx stableFind plainCollaborators
                         (exampleTable "zz(" true "") toastData
                         (withRows toastData [row "p2" ["p2"; "no endpoints"]])
                         "error parsing regexp: (?i)zz("
                         eq_refl eq_refl eq_refl eq_refl))).
Defined.

(** ** Sorted lists *)

Lemma StronglySorted_mono {A : Type} (R1 R2 : relation A) (l : list A) :
  (forall a b, a ∈ l -> b ∈ l -> R1 a b -> R2 a b) ->
  StronglySorted R1 l -> StronglySorted R2 l.
Proof.
  intros Himp Hs. induction Hs as [| a l Hs IH Hall]; constructor.
  - apply IH. intros x y Hx Hy. apply Himp; by right.
  - apply Forall_forall. intros b Hb.
    apply Himp; [by left | by right |].
    rewrite Forall_forall in Hall. by apply Hall.
Qed.

Lemma StronglySorted_and {A : Type} (R1 R2 : relation A) (l : list A) :
  StronglySorted R1 l -> StronglySorted R2 l ->
  StronglySorted (fun a b => R1 a b /\ R2 a b) l.
Proof.
  induction 1 as [| a l Hs IH Hall]; intros H2; [constructor |].
  apply StronglySorted_inv in H2 as [H2 Hall2]. constructor; [by apply IH |].
  rewrite Forall_forall in *. intros b Hb. split; auto.
Qed.

Lemma StronglySorted_before {A : Type} (R : relation A) (l : list A) p p' x y :
  StronglySorted R l -> l !! p = Some x -> l !! p' = Some y -> (p < p')%nat -> R x y.
Proof.
  intros Hs. revert p p'. induction Hs as [| a l Hs IH Hall]; intros p p' Hx Hy Hlt.
  - done.
  - destruct p' as [| p']; [lia |]. destruct p as [| p]; simpl in *.
    + injection Hx as ->. rewrite Forall_forall in Hall.
      apply Hall. by eapply list_elem_of_lookup_2.
    + apply (IH p p'); [done | done | lia].
Qed.

Lemma StronglySorted_distinct {A B : Type} (R : relation A) (f : A -> B) (l : list A) :
  StronglySorted R l -> NoDup (f <$> l) ->
  StronglySorted (fun a b => R a b /\ f a <> f b) l.
Proof.
  induction 1 as [| a l Hs IH Hall]; intros Hnd; [constructor |].
  rewrite fmap_cons in Hnd. apply NoDup_cons in Hnd as [Hnotin Hnd].
  constructor; [by apply IH |].
  rewrite Forall_forall in *. intros b Hb. split; [by apply Hall |].
  intros Heq. apply Hnotin. rewrite Heq. by apply list_elem_of_fmap_2.
Qed.

Lemma StronglySorted_seq (j n : nat) : StronglySorted le (seq j n).
Proof.
  revert j. induction n as [| n IH]; intros j; simpl; constructor; [apply IH |].
  apply Forall_forall. intros x Hx. apply elem_of_seq in Hx. lia.
Qed.

(** ** Picking list elements by position *)

Lemma omap_lookup_seq {A : Type} (pre l : list A) :
  omap (fun j => (pre ++ l) !! j) (seq (length pre) (length l)) = l.
Proof.
  revert pre. induction l as [| x l IH]; intros pre; [done |].
  simpl. rewrite list_lookup_middle by done. f_equal.
  specialize (IH (pre ++ [x])).
  rewrite <- app_assoc, length_app in IH. simpl in IH.
  by rewrite Nat.add_1_r in IH.
Qed.

Lemma omap_lookup_filter_seq {A : Type} (P : A -> bool) (pre l : list A) :
  omap (fun j => (pre ++ l) !! j)
       (List.filter (passesAt P (pre ++ l)) (seq (length pre) (length l)))
  = List.filter P l.
Proof.
  revert pre. induction l as [| x l IH]; intros pre; [done |].
  simpl. unfold passesAt at 1. rewrite list_lookup_middle by done.
  specialize (IH (pre ++ [x])).
  rewrite <- app_assoc, length_app in IH. simpl in IH.
  rewrite Nat.add_1_r in IH.
  destruct (P x); simpl.
  - rewrite list_lookup_middle by done. by f_equal.
  - done.
Qed.

Lemma omap_lookup_Permutation {A : Type} (P : A -> bool) (l : list A) (idxs : list nat) :
  NoDup idxs ->
  (forall j, j ∈ idxs <-> exists x, l !! j = Some x /\ P x = true) ->
  omap (fun j => l !! j) idxs ≡ₚ List.filter P l.
Proof.
  intros Hnd Hiff.
  rewrite <- (omap_lookup_filter_seq P [] l). simpl.
  apply omap_Permutation, NoDup_Permutation; [done | |].
  - eapply sublist_NoDup; [| apply filter_sublist_of]. apply NoDup_seq.
  - intros j. rewrite Hiff, filter_elem_of, elem_of_seq. unfold passesAt.
    split.
    + intros (x & Hx & HP). rewrite Hx. split; [| done].
      apply lookup_lt_Some in Hx. lia.
    + intros [_ HP]. destruct (l !! j) as [x |]; [eauto | discriminate].
Qed.

Lemma omap_lookup_fmap {A B : Type} (f : B -> nat) (l : list A) (mm : list B) :
  omap (fun j => l !! j) (f <$> mm) = omap (fun m => l !! f m) mm.
Proof.
  induction mm as [| m k IH]; [done |].
  rewrite fmap_cons. cbn [omap list_omap]. by rewrite IH.
Qed.

(** ** The fuzzy filter *)

Lemma fuzzyReady_fieldAt index re :
  fuzzyReady index re ->
  at_index (rowFields (reRow re)) index = Done (nameAt (Z.to_nat index) re).
Proof.
  intros [Hnn [v Hv]]. apply at_index_Done. split; [done |].
  unfold nameAt. unfold fieldAt in *. by rewrite Hv.
Qed.

Lemma fuzzyFilter_names_spec index rows ss :
  Forall (fuzzyReady index) rows ->
  fuzzyFilter_names index rows ss = Done (ss ++ (nameAt (Z.to_nat index) <$> rows)).
Proof.
  intros Hall. revert ss.
  induction Hall as [| re rows Hre _ IH]; intros ss; simpl.
  - by rewrite app_nil_r.
  - rewrite (fuzzyReady_fieldAt _ _ Hre). simpl. rewrite IH.
    by rewrite <- app_assoc.
Qed.

Lemma fuzzyFilter_names_Done index rows ss out :
  fuzzyFilter_names index rows ss = Done out -> Forall (fuzzyReady index) rows.
Proof.
  revert ss. induction rows as [| re rows IH]; intros ss Hdone; [constructor |].
  simpl in Hdone.
  destruct (at_index (rowFields (reRow re)) index) as [v | why] eqn:Hv; [| done].
  simpl in Hdone. constructor; [| by eapply IH].
  apply at_index_Done in Hv as [Hnn Hv]. split; [done |]. by exists v.
Qed.

Lemma fuzzyFilter_pick_spec rows mm acc :
  Forall (fun m => 0 <= mIndex m /\ is_Some (rows !! matchPos m)) mm ->
  fuzzyFilter_pick rows mm acc = Done (acc ++ pickRows rows mm).
Proof.
  intros Hall. revert acc.
  induction Hall as [| m mm [Hnn [re Hre]] _ IH]; intros acc; simpl.
  - by rewrite app_nil_r.
  - assert (at_index rows (mIndex m) = Done re) as ->
        by (apply at_index_Done; by split).
    simpl. rewrite IH. unfold pickRows at 2. simpl.
    rewrite Hre. simpl. by rewrite <- app_assoc.
Qed.

Section FuzzyFilter.
Context (Find : Finder) (HFind : FinderSpec Find).
Context (q : string) (index : Z) (rows : RowEvents).
Context (Hready : Forall (fuzzyReady index) rows).

Let i := Z.to_nat index.
Let ss := nameAt i <$> rows.
Let mm := Find q ss.

Lemma found_row m :
  m ∈ mm ->
  0 <= mIndex m /\
  exists re, rows !! matchPos m = Some re /\ nameAt i re = mStr m /\
             fuzzyKeeps q i re = true.
Proof using HFind Hready.
  intros Hm. destruct (find_sound _ HFind q ss m Hm) as (Hnn & Hlook & Hmatch).
  split; [done |].
  apply list_lookup_fmap_Some in Hlook as (re & Hname & Hre).
  exists re. split; [done |]. split; [done |].
  assert (fuzzyReady index re) as [_ [v Hv]].
  { rewrite Forall_forall in Hready. apply Hready.
    by eapply list_elem_of_lookup_2. }
  fold i in Hv. unfold fuzzyKeeps. rewrite Hv.
  unfold nameAt in Hname. rewrite Hv in Hname. by subst v.
Qed.

Lemma fuzzyFilter_runs data :
  tdRowEvents data = rows ->
  fuzzyFilter Find q index data = Done (withRows data (pickRows rows mm)).
Proof using HFind Hready.
  intros Hrows. unfold fuzzyFilter. rewrite Hrows.
  rewrite fuzzyFilter_names_spec by done. simpl.
  fold i. fold ss. fold mm.
  rewrite fuzzyFilter_pick_spec; [done |].
  apply Forall_forall. intros m Hm.
  destruct (found_row m Hm) as (Hnn & re & Hre & _). eauto.
Qed.

Lemma picked_rows_match :
  Forall2 (fun re m => rows !! matchPos m = Some re /\ nameAt i re = mStr m)
          (pickRows rows mm) mm.
Proof using HFind Hready.
  assert (Forall (fun m => exists re, rows !! matchPos m = Some re /\
                                      nameAt i re = mStr m) mm) as Hall.
  { apply Forall_forall. intros m Hm.
    destruct (found_row m Hm) as (_ & re & Hre & Hname & _). eauto. }
  unfold pickRows. induction Hall as [| m l (re & Hre & Hname) _ IH]; simpl.
  - constructor.
  - rewrite Hre. by constructor.
Qed.

Lemma matchPos_NoDup : NoDup (matchPos <$> mm).
Proof using HFind Hready.
  replace (matchPos <$> mm) with (Z.to_nat <$> (mIndex <$> mm))
    by (by rewrite <- list_fmap_compose).
  apply NoDup_fmap_2_strong; [| apply (find_NoDup _ HFind)].
  intros x y Hx Hy Heq.
  apply list_elem_of_fmap in Hx as (mx & -> & Hmx).
  apply list_elem_of_fmap in Hy as (my & -> & Hmy).
  destruct (found_row mx Hmx) as [? _]. destruct (found_row my Hmy) as [? _]. lia.
Qed.

Lemma picked_rows_Permutation :
  pickRows rows mm ≡ₚ List.filter (fuzzyKeeps q i) rows.
Proof using HFind Hready.
  unfold pickRows.
  rewrite <- (omap_lookup_fmap matchPos rows mm).
  apply omap_lookup_Permutation; [apply matchPos_NoDup |].
  intros j. split.
  - intros Hj. apply list_elem_of_fmap in Hj as (m & -> & Hm).
    destruct (found_row m Hm) as (_ & re & Hre & _ & Hkeep). eauto.
  - intros (re & Hre & Hkeep).
    assert (fuzzyReady index re) as [_ [v Hv]].
    { rewrite Forall_forall in Hready. apply Hready.
      by eapply list_elem_of_lookup_2. }
    fold i in Hv.
    assert (ss !! j = Some v) as Hss.
    { unfold ss. rewrite list_lookup_fmap, Hre. simpl.
      unfold nameAt. by rewrite Hv. }
    unfold fuzzyKeeps in Hkeep. rewrite Hv in Hkeep.
    pose proof (find_complete _ HFind q ss j v Hss Hkeep) as Hin.
    apply list_elem_of_fmap in Hin as (m & Hidx & Hm).
    apply list_elem_of_fmap. exists m. split; [| done].
    unfold matchPos. rewrite <- Hidx. by rewrite Nat2Z.id.
Qed.
End FuzzyFilter.

(** ** The two finders keep the finder's promises *)

Lemma elem_of_candidates q k ss m :
  m ∈ candidates q k ss <->
  exists (j : nat) s,
    ss !! j = Some s /\ fuzzyMatches q s = true /\
    m = {| mStr := s; mIndex := k + Z.of_nat j; mScore := unmatchedPenalty q s |}.
Proof.
  revert k. induction ss as [| s0 ss IH]; intros k; simpl.
  - split; [by intros ?%elem_of_nil | by intros (j & s & ? & _)].
  - split.
    + intros Hm.
      assert (m ∈ candidates q (k + 1) ss \/
              (fuzzyMatches q s0 = true /\
               m = {| mStr := s0; mIndex := k; mScore := unmatchedPenalty q s0 |}))
        as [Hin | [Hmatch ->]].
      { destruct (fuzzyMatches q s0); [| by left].
        apply elem_of_cons in Hm as [-> | Hm]; [by right | by left]. }
      * apply IH in Hin as (j & s & Hj & Hs & ->).
        exists (S j), s. split; [done |]. split; [done |]. f_equal. lia.
      * exists 0%nat, s0. split; [done |]. split; [done |]. f_equal. lia.
    + intros (j & s & Hj & Hs & ->). destruct j as [| j]; simpl in Hj.
      * injection Hj as ->. rewrite Hs. replace (k + Z.of_nat 0) with k by lia.
        by left.
      * assert ({| mStr := s; mIndex := k + Z.of_nat (S j);
                   mScore := unmatchedPenalty q s |} ∈ candidates q (k + 1) ss) as Hin.
        { apply IH. exists j, s. split; [done |]. split; [done |]. f_equal. lia. }
        destruct (fuzzyMatches q s0); [by right | done].
Qed.

Lemma candidates_NoDup q k ss : NoDup (mIndex <$> candidates q k ss).
Proof.
  revert k. induction ss as [| s0 ss IH]; intros k; simpl; [constructor |].
  destruct (fuzzyMatches q s0); [| apply IH].
  rewrite fmap_cons. simpl. apply NoDup_cons. split; [| apply IH].
  intros Hin. apply list_elem_of_fmap in Hin as (m & Hk & Hm).
  apply elem_of_candidates in Hm as (j & s & _ & _ & ->). simpl in Hk. lia.
Qed.

Section RankedFinder.
Context (R : relation Match) `{!forall a b, Decision (R a b)}.
Context `{!Transitive R} `{!Total R}.
Context (Hrank : forall a b, R a b -> mScore b <= mScore a).

Lemma ranked_finder_spec :
  FinderSpec (fun q ss => merge_sort R (candidates q 0 ss)).
Proof using All.
  split.
  - intros q ss m Hm. rewrite merge_sort_Permutation in Hm.
    apply elem_of_candidates in Hm as (j & s & Hj & Hs & ->). simpl.
    split; [lia |]. split; [| done].
    replace (Z.to_nat (0 + Z.of_nat j)) with j by lia. done.
  - intros q ss i s Hi Hs.
    apply list_elem_of_fmap.
    exists {| mStr := s; mIndex := 0 + Z.of_nat i; mScore := unmatchedPenalty q s |}.
    split; [simpl; lia |].
    rewrite merge_sort_Permutation. apply elem_of_candidates. eauto.
  - intros q ss. rewrite merge_sort_Permutation. apply candidates_NoDup.
  - intros q ss. eapply StronglySorted_mono; [| by apply StronglySorted_merge_sort].
    intros a b _ _. apply Hrank.
Qed.
End RankedFinder.

Global Instance bestFirstTiesInOrder_trans : Transitive bestFirstTiesInOrder.
Proof. unfold bestFirstTiesInOrder. intros a b c. lia. Qed.

Global Instance bestFirstTiesInOrder_total : Total bestFirstTiesInOrder.
Proof. unfold bestFirstTiesInOrder. intros a b. lia. Qed.

Global Instance bestFirstTiesReversed_trans : Transitive bestFirstTiesReversed.
Proof. unfold bestFirstTiesReversed. intros a b c. lia. Qed.

Global Instance bestFirstTiesReversed_total : Total bestFirstTiesReversed.
Proof. unfold bestFirstTiesReversed. intros a b. lia. Qed.

Lemma stableFind_spec : FinderSpec stableFind.
Proof.
  apply ranked_finder_spec; try apply _.
  unfold bestFirstTiesInOrder. intros a b. lia.
Qed.

Lemma reversingFind_spec : FinderSpec reversingFind.
Proof.
  apply ranked_finder_spec; try apply _.
  unfold bestFirstTiesReversed. intros a b. lia.
Qed.

Lemma stableFind_stable : FinderStable stableFind.
Proof.
  split.
  - intros q ss ss' m m' Hm Hm' Hstr. unfold stableFind in *.
    rewrite merge_sort_Permutation in Hm, Hm'.
    apply elem_of_candidates in Hm as (j & s & _ & _ & ->).
    apply elem_of_candidates in Hm' as (j' & s' & _ & _ & ->).
    simpl in *. by subst.
  - intros q ss. unfold stableFind.
    pose proof (StronglySorted_merge_sort bestFirstTiesInOrder (candidates q 0 ss)) as Hs.
    eapply (StronglySorted_distinct _ mIndex) in Hs.
    2:{ rewrite merge_sort_Permutation. apply candidates_NoDup. }
    eapply StronglySorted_mono; [| exact Hs].
    unfold bestFirstTiesInOrder. intros a b _ _ [Hr Hne] Heq. lia.
Qed.

(** ** Fuzzy filtering twice, with a tie-stable finder *)

Global Instance nat_le_antisymm : AntiSymm eq le.
Proof. intros x y ? ?. lia. Qed.

Section FuzzyTwice.
Context (Find : Finder) (HFind : FinderSpec Find) (HStable : FinderStable Find).
Context (q : string) (index : Z) (rows : RowEvents).
Context (Hready : Forall (fuzzyReady index) rows).

Let i := Z.to_nat index.
Let mm := Find q (nameAt i <$> rows).
Let rows' := pickRows rows mm.
Let mm' := Find q (nameAt i <$> rows').

Lemma picked_names : nameAt i <$> rows' = mStr <$> mm.
Proof using HFind Hready.
  pose proof (picked_rows_match Find HFind q index rows Hready) as H2.
  fold i mm rows' in H2. clearbody rows' mm.
  induction H2 as [| re m l k [_ Hname] _ IH]; [done |].
  rewrite !fmap_cons. by rewrite Hname, IH.
Qed.

Lemma picked_ready : Forall (fuzzyReady index) rows'.
Proof using HFind Hready.
  apply Forall_forall. intros re Hre.
  pose proof (picked_rows_Permutation Find HFind q index rows Hready) as Hperm.
  fold i mm rows' in Hperm. rewrite Hperm in Hre.
  apply filter_elem_of in Hre as [Hre _].
  rewrite Forall_forall in Hready. by apply Hready.
Qed.

Lemma second_pass_sound m :
  m ∈ mm' ->
  0 <= mIndex m /\
  exists m0, mm !! matchPos m = Some m0 /\ mStr m0 = mStr m /\ mScore m0 = mScore m.
Proof using HFind HStable Hready.
  intros Hm.
  destruct (find_sound _ HFind _ _ m Hm) as (Hnn & Hlook & _).
  split; [done |].
  rewrite picked_names in Hlook.
  apply list_lookup_fmap_Some in Hlook as (m0 & Hstr & Hm0).
  exists m0. split; [done |]. split; [done |].
  eapply (find_score_of_candidate _ HStable); [| exact Hm | done].
  by eapply list_elem_of_lookup_2.
Qed.

Lemma second_pass_in_order :
  StronglySorted (fun a b => (matchPos a <= matchPos b)%nat) mm'.
Proof using HFind HStable Hready.
  pose proof (StronglySorted_and _ _ _ (find_best_first _ HFind q (nameAt i <$> rows'))
                (find_ties_in_order _ HStable q (nameAt i <$> rows'))) as Hs.
  eapply StronglySorted_mono; [| exact Hs].
  intros a b Ha Hb [Hbest Htie]. simpl in *.
  destruct (second_pass_sound a Ha) as (Hna & ma & Hma & _ & Hsa).
  destruct (second_pass_sound b Hb) as (Hnb & mb & Hmb & _ & Hsb).
  destruct (Nat.le_gt_cases (matchPos a) (matchPos b)) as [? | Hgt]; [done |].
  exfalso.
  pose proof (StronglySorted_before _ _ _ _ _ _
                (find_best_first _ HFind q (nameAt i <$> rows)) Hmb Hma Hgt) as Hle.
  simpl in Hle. unfold matchPos in Hgt. lia.
Qed.

Lemma second_pass_positions : matchPos <$> mm' = seq 0 (length rows').
Proof using HFind HStable Hready.
  apply (StronglySorted_unique le).
  - eapply StronglySorted_fmap; [| apply second_pass_in_order]. done.
  - apply StronglySorted_seq.
  - apply NoDup_Permutation.
    + apply (matchPos_NoDup Find HFind q index rows' picked_ready).
    + apply NoDup_seq.
    + intros j. rewrite elem_of_seq. split.
      * intros Hj. apply list_elem_of_fmap in Hj as (m & -> & Hm).
        destruct (find_sound _ HFind _ _ m Hm) as (_ & Hlook & _).
        apply lookup_lt_Some in Hlook. rewrite length_fmap in Hlook.
        unfold matchPos. lia.
      * intros [_ Hj].
        destruct (lookup_lt_is_Some_2 (nameAt i <$> rows') j) as [s Hs];
          [rewrite length_fmap; lia |].
        assert (fuzzyMatches q s = true) as Hmatch.
        { pose proof Hs as Hs'. rewrite picked_names in Hs'.
          apply list_lookup_fmap_Some in Hs' as (m0 & -> & Hm0).
          apply list_elem_of_lookup_2 in Hm0.
          by destruct (find_sound _ HFind _ _ m0 Hm0) as (_ & _ & ?). }
        pose proof (find_complete _ HFind q _ j s Hs Hmatch) as Hin.
        apply list_elem_of_fmap in Hin as (m & Hidx & Hm).
        apply list_elem_of_fmap. exists m. split; [| done].
        unfold matchPos. rewrite <- Hidx. by rewrite Nat2Z.id.
Qed.

Lemma second_pass_rows : pickRows rows' mm' = rows'.
Proof using HFind HStable Hready.
  unfold pickRows. rewrite <- (omap_lookup_fmap matchPos rows' mm').
  rewrite second_pass_positions. apply (omap_lookup_seq [] rows').
Qed.
End FuzzyTwice.

Lemma fuzzyFilter_twice (Find : Finder) (q : string) (index : Z) (data d1 : TableData) :
  FinderSpec Find -> FinderStable Find ->
  fuzzyFilter Find q index data = Done d1 ->
  fuzzyFilter Find q index d1 = Done d1.
Proof.
  intros HFind HStable Hfirst.
  assert (Forall (fuzzyReady index) (tdRowEvents data)) as Hready.
  { unfold fuzzyFilter in Hfirst.
    destruct (fuzzyFilter_names index (tdRowEvents data) []) as [ss | why] eqn:Hn;
      [| done].
    by eapply fuzzyFilter_names_Done. }
  rewrite (fuzzyFilter_runs Find HFind q index _ Hready data eq_refl) in Hfirst.
  injection Hfirst as <-.
  rewrite (fuzzyFilter_runs Find HFind q index _
             (picked_ready Find HFind q index _ Hready)
             (withRows data (pickRows (tdRowEvents data)
                (Find q (nameAt (Z.to_nat index) <$> tdRowEvents data)))) eq_refl).
  by rewrite (second_pass_rows Find HFind HStable q index _ Hready).
Qed.

(** Without any promise about ties, the second pass still returns the same
    rows, possibly in another order. *)
Lemma fuzzyFilter_twice_same_rows (Find : Finder) (q : string) (index : Z)
      (data d1 : TableData) :
  FinderSpec Find ->
  fuzzyFilter Find q index data = Done d1 ->
  exists rows2,
    fuzzyFilter Find q index d1 = Done (withRows d1 rows2) /\
    rows2 ≡ₚ tdRowEvents d1.
Proof.
  intros HFind Hfirst.
  assert (Forall (fuzzyReady index) (tdRowEvents data)) as Hready.
  { unfold fuzzyFilter in Hfirst.
    destruct (fuzzyFilter_names index (tdRowEvents data) []) as [ss | why] eqn:Hn;
      [| done].
    by eapply fuzzyFilter_names_Done. }
  rewrite (fuzzyFilter_runs Find HFind q index _ Hready data eq_refl) in Hfirst.
  injection Hfirst as <-. simpl.
  pose proof (picked_rows_Permutation Find HFind q index _ Hready) as Hperm1.
  pose proof (picked_ready Find HFind q index _ Hready) as Hready1.
  eexists. split.
  - apply (fuzzyFilter_runs Find HFind q index _ Hready1). reflexivity.
  - rewrite (picked_rows_Permutation Find HFind q index _ Hready1).
    rewrite filter_all_true; [done |].
    apply Forall_forall. intros re Hre. rewrite Hperm1 in Hre.
    apply filter_elem_of in Hre. tauto.
Qed.

(** ** Filtering twice *)

Lemma withRows_rows data : withRows data (tdRowEvents data) = data.
Proof. by destruct data. Qed.

Lemma rxFilter_twice rxe q data :
  rxFilter rxe q (fst (rxFilter rxe q data)) = rxFilter rxe q data.
Proof.
  unfold rxFilter. destruct (Compile rxe ("(?i)" +:+ q)) as [rx | e]; simpl; [| done].
  rewrite !rxFilter_loop_spec. simpl. by rewrite filter_filter_same.
Qed.

Lemma filterToast_loop_Done x res acc out :
  0 <= x ->
  filterToast_loop x res acc = Done out ->
  out = acc ++ List.filter (keepsToast (Z.to_nat x)) res.
Proof.
  intros Hx. revert acc. induction res as [| re res IH]; intros acc Hdone; simpl in *.
  - injection Hdone as <-. by rewrite app_nil_r.
  - destruct (at_index (rowFields (reRow re)) x) as [v | why] eqn:Hv; [| done].
    simpl in Hdone. apply at_index_Done in Hv as [_ Hv].
    unfold keepsToast, fieldAt. rewrite Hv.
    destruct (negb (String.eqb v "")); apply IH in Hdone as ->; [| done].
    by rewrite <- app_assoc.
Qed.

(** A snapshot whose rows all pass the toast test is left as it is. *)
Lemma filterToast_fixed data :
  (IndexOf (tdHeader data) "VALID" true <> -1 ->
   Forall (fun re => keepsToast (Z.to_nat (IndexOf (tdHeader data) "VALID" true)) re = true)
          (tdRowEvents data)) ->
  filterToast data = Done data.
Proof.
  intros Hall. unfold filterToast.
  destruct (Z.eqb_spec (IndexOf (tdHeader data) "VALID" true) (-1)) as [| Hne]; [done |].
  specialize (Hall Hne).
  assert (0 <= IndexOf (tdHeader data) "VALID" true) as Hnn.
  { unfold IndexOf in *.
    destruct (IndexOf_from_range 0 (tdHeader data) "VALID" true); [done | lia]. }
  rewrite <- (Z2Nat.id _ Hnn) at 1.
  rewrite filterToast_loop_spec.
  - simpl. rewrite filter_all_true by done. fold (withRows data (tdRowEvents data)).
    by rewrite withRows_rows.
  - eapply Forall_impl; [exact Hall |]. intros re. apply keepsToast_hasField.
Qed.

(** What the toast filter returns passes the toast test, and so does every
    selection of its rows. *)
Lemma filterToast_kept data d1 rows :
  filterToast data = Done d1 ->
  (forall re, re ∈ rows -> re ∈ tdRowEvents d1) ->
  filterToast (withRows d1 rows) = Done (withRows d1 rows).
Proof.
  intros Hfirst Hsub. apply filterToast_fixed. simpl. intros Hne.
  unfold filterToast in Hfirst.
  destruct (Z.eqb_spec (IndexOf (tdHeader data) "VALID" true) (-1)) as [Heq | Hne'].
  { injection Hfirst as <-. done. }
  assert (0 <= IndexOf (tdHeader data) "VALID" true) as Hnn.
  { unfold IndexOf in *.
    destruct (IndexOf_from_range 0 (tdHeader data) "VALID" true); [done | lia]. }
  destruct (filterToast_loop _ (tdRowEvents data) []) as [toast | why] eqn:Hloop; [| done].
  simpl in Hfirst. injection Hfirst as <-. simpl in *.
  apply filterToast_loop_Done in Hloop as ->; [| done]. simpl in Hsub.
  apply Forall_forall. intros re Hre. apply Hsub in Hre.
  apply filter_elem_of in Hre. tauto.
Qed.

Lemma filterToast_twice data d1 :
  filterToast data = Done d1 -> filterToast d1 = Done d1.
Proof.
  intros Hfirst. rewrite <- (withRows_rows d1).
  by apply (filterToast_kept data).
Qed.

Lemma toastStage_kept t data view rows :
  toastStage t data = Done view ->
  (forall re, re ∈ rows -> re ∈ tdRowEvents view) ->
  toastStage t (withRows view rows) = Done (withRows view rows).
Proof.
  unfold toastStage. destruct (tToast t); [| done]. apply filterToast_kept.
Qed.


(** ** The controller in fuzzy mode *)






(** ** The controller applied twice *)

Lemma toastStage_fixed t data view :
  toastStage t data = Done view -> toastStage t view = Done view.
Proof.
  intros Hview. rewrite <- (withRows_rows view).
  by apply (toastStage_kept t data).
Qed.

Lemma filtered_twice (rxe : RegexEngine) (Find : Finder) (ext : Collaborators)
      (t t1 : Table) (data d1 : TableData) :
  FinderSpec Find -> FinderStable Find ->
  filtered rxe Find ext t data = Done (d1, t1) ->
  filtered rxe Find ext t d1 = Done (d1, t1).
Proof.
  intros HFind HStable Hfirst. unfold filtered in *.
  fold (toastStage t data) in Hfirst. fold (toastStage t d1).
  destruct (toastStage t data) as [view | why] eqn:Hview; [| done].
  simpl in Hfirst.
  destruct (CmdBuff_Empty (tCmdBuff t) || IsLabelSelector (CmdBuff_String (tCmdBuff t))).
  { injection Hfirst as <- <-. by rewrite (toastStage_fixed _ _ _ Hview). }
  destruct (IsFuzzySelector (CmdBuff_String (tCmdBuff t))).
  - destruct (fuzzyFilter Find _ (NameColIndex ext t) view) as [r | why] eqn:Hfz; [| done].
    simpl in Hfirst. injection Hfirst as <- <-.
    assert (Forall (fuzzyReady (NameColIndex ext t)) (tdRowEvents view)) as Hready.
    { unfold fuzzyFilter in Hfz.
      destruct (fuzzyFilter_names (NameColIndex ext t) (tdRowEvents view) [])
        as [ss | why] eqn:Hn; [| done].
      by eapply fuzzyFilter_names_Done. }
    pose proof Hfz as Hr.
    rewrite (fuzzyFilter_runs Find HFind _ _ _ Hready view eq_refl) in Hr.
    injection Hr as Hr.
    assert (toastStage t r = Done r) as ->.
    { rewrite <- Hr. apply (toastStage_kept t data); [done |].
      intros re Hre.
      rewrite (picked_rows_Permutation Find HFind _ _ _ Hready) in Hre.
      apply filter_elem_of in Hre. tauto. }
    simpl. by rewrite (fuzzyFilter_twice Find _ _ view r HFind HStable Hfz).
  - unfold rxFilter in *.
    destruct (Compile rxe ("(?i)" +:+ CmdBuff_String (tCmdBuff t))) as [rx | e].
    + injection Hfirst as <- <-. rewrite rxFilter_loop_spec. simpl.
      assert (toastStage t (withRows view (List.filter (rxKeeps rxe rx) (tdRowEvents view)))
              = Done (withRows view (List.filter (rxKeeps rxe rx) (tdRowEvents view)))) as Hkept.
      { apply (toastStage_kept t data); [done |].
        intros re Hre. apply filter_elem_of in Hre. tauto. }
      unfold withRows in Hkept. rewrite Hkept. simpl.
      rewrite rxFilter_loop_spec. simpl. by rewrite filter_filter_same.
    + injection Hfirst as <- <-. by rewrite (toastStage_fixed _ _ _ Hview).
Qed.

(** C6, as stated, fails in fuzzy mode: a finder that keeps every promise
    of the finder (the matching candidates, best score first) and lists
    equal scores last-come-first gives back the two equally ranked rows in
    swapped order each time the filter is applied. *)
Lemma fuzzy_filter_twice_swaps_ties :
  FinderSpec reversingFind /\
  fuzzyFilter reversingFind "a" 0 tiedData
  = Done (withRows tiedData [row "a2" ["a2"]; row "a1" ["a1"]]) /\
  fuzzyFilter reversingFind "a" 0 (withRows tiedData [row "a2" ["a2"]; row "a1" ["a1"]])
  = Done (withRows tiedData [row "a1" ["a1"]; row "a2" ["a2"]]) /\
  withRows tiedData [row "a1" ["a1"]; row "a2" ["a2"]]
  <> withRows tiedData [row "a2" ["a2"]; row "a1" ["a1"]].
Proof.
  split; [apply reversingFind_spec |].
  split; [reflexivity |]. split; [reflexivity |]. discriminate.
Qed.

(** C6, amended.  Applying a filter to its own output with the same query
    yields that output again for the regex filter and for the toast filter.
    For the fuzzy filter the second pass returns the same rows, and the
    same output, order included, whenever the finder lists equally scored
    candidates in their input order; with such a finder the controller's
    pipeline as a whole is idempotent too. *)
Theorem filtering_is_idempotent (rxe : RegexEngine) (Find : Finder) (ext : Collaborators) :
  (forall q data,
      rxFilter rxe q (fst (rxFilter rxe q data)) = rxFilter rxe q data) /\
  (forall data d1,
      filterToast data = Done d1 -> filterToast d1 = Done d1) /\
  (FinderSpec Find ->
   forall q index data d1,
     fuzzyFilter Find q index data = Done d1 ->
     exists rows2,
       fuzzyFilter Find q index d1 = Done (withRows d1 rows2) /\
       rows2 ≡ₚ tdRowEvents d1) /\
  (FinderSpec Find -> FinderStable Find ->
   (forall q index data d1,
       fuzzyFilter Find q index data = Done d1 ->
       fuzzyFilter Find q index d1 = Done d1) /\
   (forall t data d1 t1,
       filtered rxe Find ext t data = Done (d1, t1) ->
       filtered rxe Find ext t d1 = Done (d1, t1))).
Proof.
  split; [apply rxFilter_twice |].
  split; [apply filterToast_twice |].
  split.
  - intros HFind q index data d1. by apply fuzzyFilter_twice_same_rows.
  - intros HFind HStable. split.
    + intros q index data d1. by apply fuzzyFilter_twice.
    + intros t data d1 t1. by apply filtered_twice.
Qed.

Lemma filtering_is_idempotent_witness :
  filterToast (withRows toastData [row "p2" ["p2"; "no endpoints"]])
  = Done (withRows toastData [row "p2" ["p2"; "no endpoints"]]) /\
  fuzzyFilter stableFind "a" 0
    (withRows namesData [row "beta" ["beta"]; row "alpha" ["alpha"]; row "gamma" ["gamma"]])
  = Done (withRows namesData
            [row "beta" ["beta"]; row "alpha" ["alpha"]; row "gamma" ["gamma"]]) /\
  filtered literalRx stableFind plainCollaborators (exampleTable "-fp" true "")
    (withRows toastData [row "p2" ["p2"; "no endpoints"]])
  = Done (withRows toastData [row "p2" ["p2"; "no endpoints"]],
          exampleTable "-fp" true "").
Proof.
  pose proof (filtering_is_idempotent literalRx stableFind plainCollaborators)
    as (_ & Htoast & _ & Hfuzzy).
  destruct (Hfuzzy stableFind_spec stableFind_stable) as [Hfz Hctl].
  split; [| split].
  - exact (Htoast toastData
             (withRows toastData [row "p2" ["p2"; "no endpoints"]]) eq_refl).
  - exact (Hfz "a" 0 namesData
             (withRows namesData [row "beta" ["beta"]; row "alpha" ["alpha"];
                                  row "gamma" ["gamma"]]) eq_refl).
  - exact (Hctl (exampleTable "-fp" true "") toastData
             (withRows toastData [row "p2" ["p2"; "no endpoints"]])
             (exampleTable "-fp" true "") eq_refl).
Defined.

(** ** Building a row *)

Lemma overflowEntries_beyond gvr n c len :
  (n <= c)%nat ->
  overflowEntries gvr n c (S len) =
  LogFieldHeaderOverflow gvr c n :: overflowEntries gvr n (S c) len.
Proof.
  intros Hc. unfold overflowEntries. simpl.
  destruct (Nat.leb_spec n c); [done | lia].
Qed.

Lemma overflowEntries_within gvr n c len :
  (c < n)%nat ->
  overflowEntries gvr n c (S len) = overflowEntries gvr n (S c) len.
Proof.
  intros Hc. unfold overflowEntries. simpl.
  destruct (Nat.leb_spec n c); [lia | done].
Qed.

Lemma overflowEntries_seq gvr n c len :
  (c <= n)%nat -> (n <= c + len)%nat ->
  overflowEntries gvr n c len =
  (fun j => LogFieldHeaderOverflow gvr j n) <$> seq n (c + len - n).
Proof.
  revert c. induction len as [| len IH]; intros c Hc Hn.
  - replace (c + 0 - n)%nat with 0%nat by lia. done.
  - destruct (decide (c = n)) as [-> | Hne].
    + rewrite overflowEntries_beyond by lia.
      replace (n + S len - n)%nat with (S len) by lia. simpl. f_equal.
      clear IH Hc Hn. unfold overflowEntries. f_equal.
      apply filter_all_true, Forall_forall. intros j Hj.
      rewrite list_elem_of_In in Hj. apply in_seq in Hj.
      apply Nat.leb_le. lia.
    + rewrite overflowEntries_within by lia.
      rewrite IH by lia. do 2 f_equal. lia.
Qed.

Lemma shownIn_SetCell r col cell t hs :
  shownIn (Table_SetCell r col cell t) hs = shownIn t hs.
Proof. reflexivity. Qed.

Lemma shownIn_logged e t hs : shownIn (Table_logged e t) hs = shownIn t hs.
Proof. reflexivity. Qed.

Lemma shownIn_cons t hc hs :
  shownIn t (hc :: hs) = if hidden t hc then shownIn t hs else S (shownIn t hs).
Proof. unfold shownIn. simpl. by destruct (hidden t hc). Qed.

Section BuildRow.
Context (ext : Collaborators) (r : nat) (re ore : RowEvent).
Context (h : Header) (pads : MaxyPad) (marked : bool).
Context (Hdeltas : IsBlank (reDeltas re) = true \/
                   (length h <= length (reDeltas re))%nat).
Context (Hpads : (length h <= length pads)%nat).

Lemma buildRow_cell_runs t c col hc field :
  h !! c = Some hc ->
  exists cell, buildRow_cell ext t re ore h pads marked c col hc field = Done cell.
Proof using Hdeltas Hpads.
  intros Hc. apply lookup_lt_Some in Hc. unfold buildRow_cell.
  assert (exists f1,
             (if negb (IsBlank (reDeltas re)) && negb (IsAgeCol h c)
              then d ← at_index (reDeltas re) (Z.of_nat c);
                   Done (field +:+ Deltas ext d field)
              else Done field) = Done f1) as [f1 ->].
  { destruct (negb (IsBlank (reDeltas re)) && negb (IsAgeCol h c)) eqn:Hcond;
      [| eauto].
    destruct Hdeltas as [Hblank | Hlen]; [by rewrite Hblank in Hcond |].
    rewrite at_index_nat.
    destruct (lookup_lt_is_Some_2 (reDeltas re) c) as [d ->]; [lia |].
    simpl. eauto. }
  simpl.
  assert (exists f2,
             match hcAlign hc with
             | AlignLeft =>
                 p ← at_index pads (Z.of_nat c);
                 Done (formatCell ext
                         match hcDecorator hc with
                         | Some f => f f1
                         | None => f1
                         end p)
             | _ => Done match hcDecorator hc with
                         | Some f => f f1
                         | None => f1
                         end
             end = Done f2) as [f2 ->].
  { destruct (hcAlign hc); eauto.
    rewrite at_index_nat.
    destruct (lookup_lt_is_Some_2 pads c) as [p ->]; [lia |].
    simpl. eauto. }
  simpl. eauto.
Qed.

Lemma buildRow_loop_spec fields :
  forall c col t,
  exists t',
    buildRow_loop ext r re ore h pads marked c col fields t = Done t' /\
    tLog t' = tLog t ++ overflowEntries (tGVR t) (length h) c (length fields) /\
    (forall k hc field,
        fields !! k = Some field -> h !! (c + k)%nat = Some hc ->
        hidden t hc = false ->
        exists cell,
          buildRow_cell ext t re ore h pads marked (c + k)
                        (col + shownIn t (take k (drop c h))) hc field = Done cell /\
          stGrid (tSelectTable t') !! (r, (col + shownIn t (take k (drop c h)))%nat)
          = Some cell) /\
    (forall r' col',
        r' <> r \/ (col' < col)%nat \/
        (col + shownIn t (take (length fields) (drop c h)) <= col')%nat ->
        stGrid (tSelectTable t') !! (r', col') = stGrid (tSelectTable t) !! (r', col')).
Proof using Hdeltas Hpads.
  induction fields as [| field rest IH]; intros c col t.
  { exists t. split; [done |]. split.
    - unfold overflowEntries. simpl. by rewrite app_nil_r.
    - split; [intros k hc f Hk; done | done]. }
  simpl. destruct (h !! c) as [hc0 |] eqn:Hc.
  - (* a field under a header column *)
    pose proof (lookup_lt_Some _ _ _ Hc) as Hlt.
    assert (hidden t hc0 = true ->
            exists t',
              buildRow_loop ext r re ore h pads marked (S c) col rest t = Done t' /\
              tLog t' = tLog t ++ overflowEntries (tGVR t) (length h) c (S (length rest)) /\
              (forall k hc field0,
                  (field :: rest) !! k = Some field0 -> h !! (c + k)%nat = Some hc ->
                  hidden t hc = false ->
                  exists cell,
                    buildRow_cell ext t re ore h pads marked (c + k)
                      (col + shownIn t (take k (drop c h))) hc field0 = Done cell /\
                    stGrid (tSelectTable t') !! (r, (col + shownIn t (take k (drop c h)))%nat)
                    = Some cell) /\
              (forall r' col',
                  r' <> r \/ (col' < col)%nat \/
                  (col + shownIn t (take (S (length rest)) (drop c h)) <= col')%nat ->
                  stGrid (tSelectTable t') !! (r', col')
                  = stGrid (tSelectTable t) !! (r', col'))) as Hskip.
    { intros Hhid. destruct (IH (S c) col t) as (t' & Hrun & Hlog & Hcells & Hrest).
      exists t'. split; [done |]. split.
      { by rewrite overflowEntries_within. }
      split.
      - intros k hc f Hk Hhc Hshown. destruct k as [| k].
        + rewrite Nat.add_0_r in Hhc. congruence.
        + simpl in Hk. rewrite (drop_S _ _ _ Hc). simpl take.
          rewrite shownIn_cons, Hhid.
          replace (c + S k)%nat with (S c + k)%nat in * by lia.
          by apply Hcells.
      - intros r' col' Hkey. apply Hrest.
        rewrite (drop_S _ _ _ Hc) in Hkey. simpl take in Hkey.
        rewrite shownIn_cons, Hhid in Hkey. exact Hkey. }
    destruct (String.eqb (hcName hc0) "NAMESPACE" && negb (mdClusterWide (GetModel t)))
      eqn:Hns.
    { apply Hskip. unfold hidden. by rewrite Hns. }
    destruct (hcMX hc0 && negb (tHasMetrics t)) eqn:Hmx.
    { apply Hskip. unfold hidden. by rewrite Hmx, orb_true_r. }
    assert (hidden t hc0 = false) as Hshow by (unfold hidden; by rewrite Hns, Hmx).
    clear Hskip.
    destruct (buildRow_cell_runs t c col hc0 field Hc) as [cell Hcell].
    rewrite Hcell. simpl.
    destruct (IH (S c) (S col) (Table_SetCell r col cell t))
      as (t' & Hrun & Hlog & Hcells & Hrest).
    exists t'. split; [done |]. split.
    { rewrite overflowEntries_within by done. exact Hlog. }
    split.
    + intros k hc f Hk Hhc Hshown. destruct k as [| k].
      * rewrite Nat.add_0_r in Hhc. injection Hk as <-.
        assert (hc = hc0) as -> by congruence.
        rewrite !Nat.add_0_r. simpl take.
        replace (col + shownIn t [])%nat with col by (unfold shownIn; simpl; lia).
        exists cell. split; [done |].
        rewrite Hrest by (right; left; lia). simpl. apply lookup_insert_eq.
      * simpl in Hk. rewrite (drop_S _ _ _ Hc). simpl take.
        rewrite shownIn_cons, Hshow.
        replace (c + S k)%nat with (S c + k)%nat in * by lia.
        replace (col + S (shownIn t (take k (drop (S c) h))))%nat
          with (S col + shownIn t (take k (drop (S c) h)))%nat by lia.
        exact (Hcells k hc f Hk Hhc Hshown).
    + intros r' col' Hkey.
      rewrite (drop_S _ _ _ Hc) in Hkey. simpl take in Hkey.
      rewrite shownIn_cons, Hshow in Hkey.
      rewrite Hrest by (rewrite shownIn_SetCell;
                        destruct Hkey as [? | [? | ?]];
                        [by left | right; left; lia | right; right; lia]).
      simpl. apply lookup_insert_ne. intros [= -> ->].
      destruct Hkey as [? | [? | ?]]; [done | lia | lia].
  - (* a field beyond the header *)
    pose proof (lookup_ge_None_1 _ _ Hc) as Hge.
    destruct (IH (S c) col (Table_logged (LogFieldHeaderOverflow (tGVR t) c (length h)) t))
      as (t' & Hrun & Hlog & Hcells & Hrest).
    exists t'. split; [done |]. split.
    { rewrite overflowEntries_beyond by done. rewrite Hlog. simpl.
      by rewrite <- app_assoc. }
    split.
    + intros k hc f _ Hhc _. apply lookup_lt_Some in Hhc. lia.
    + intros r' col' Hkey. apply Hrest.
      rewrite shownIn_logged.
      rewrite (drop_ge h (S c)) by lia. rewrite (drop_ge h c) in Hkey by lia.
      by rewrite !take_nil in *.
Qed.
End BuildRow.

(** C8. A row with more fields than the header has columns is built
    without a panic (given deltas that are blank or cover the header, and
    pads that cover it, as [doUpdate] sets them up): every field at or
    beyond the header length leaves one overflow entry in the log and no
    cell; every field under a displayed header column is rendered into the
    row, at its display column; the row gets no cell past the displayed
    columns and other rows of the grid are untouched. *)
Theorem buildRow_skips_excess_fields (ext : Collaborators) (r : nat)
        (re ore : RowEvent) (h : Header) (pads : MaxyPad) (t : Table) :
  (length h < length (rowFields (reRow re)))%nat ->
  IsBlank (reDeltas re) = true \/ (length h <= length (reDeltas re))%nat ->
  (length h <= length pads)%nat ->
  exists t',
    buildRow ext r re ore h pads t = Done t' /\
    tLog t' = tLog t ++
              ((fun c => LogFieldHeaderOverflow (tGVR t) c (length h)) <$>
               seq (length h) (length (rowFields (reRow re)) - length h)) /\
    (forall c hc field,
        rowFields (reRow re) !! c = Some field -> h !! c = Some hc ->
        hidden t hc = false ->
        exists cell,
          buildRow_cell ext t re ore h pads
                        (IsMarked (tSelectTable t) (rowID (reRow re)))
                        c (shownIn t (take c h)) hc field = Done cell /\
          stGrid (tSelectTable t') !! (r, shownIn t (take c h)) = Some cell) /\
    (forall r' col, r' <> r \/ (shownIn t h <= col)%nat ->
        stGrid (tSelectTable t') !! (r', col) = stGrid (tSelectTable t) !! (r', col)).
Proof.
  intros Hlen Hdeltas Hpads. unfold buildRow.
  destruct (buildRow_loop_spec ext r re ore h pads
              (IsMarked (tSelectTable t) (rowID (reRow re))) Hdeltas Hpads
              (rowFields (reRow re)) 0%nat 0%nat t)
    as (t' & Hrun & Hlog & Hcells & Hrest).
  exists t'. split; [done |]. split.
  { rewrite Hlog. f_equal. rewrite overflowEntries_seq by lia. done. }
  split.
  - intros c hc field Hf Hhc Hshown.
    specialize (Hcells c hc field Hf Hhc Hshown). by rewrite drop_0 in Hcells.
  - intros r' col Hkey. apply Hrest.
    rewrite drop_0, take_ge by lia. simpl.
    destruct Hkey; [by left | right; by right].
Qed.

Lemma buildRow_skips_excess_fields_witness :
  exists t',
    buildRow plainCollaborators 1 overflowRow overflowRow
             [column "NAME"; column "VALID"] [0; 0] (exampleTable "" false "NAME")
    = Done t' /\
    tLog t' = [LogFieldHeaderOverflow "v1/pods" 2 2; LogFieldHeaderOverflow "v1/pods" 3 2].
Proof.
  destruct (buildRow_skips_excess_fields plainCollaborators 1 overflowRow overflowRow
              [column "NAME"; column "VALID"] [0; 0] (exampleTable "" false "NAME"))
    as (t' & Hrun & Hlog & _).
  - simpl. lia.
  - left. reflexivity.
  - simpl. lia.
  - exists t'. split; [exact Hrun | exact Hlog].
Defined.

(** ** The sort column of a render pass *)

Lemma buildRow_loop_sortCol ext r re ore h pads marked fields :
  forall c col t t',
    buildRow_loop ext r re ore h pads marked c col fields t = Done t' ->
    tSortCol t' = tSortCol t.
Proof.
  induction fields as [| field rest IH]; intros c col t t' Hrun; simpl in Hrun.
  - by injection Hrun as <-.
  - destruct (h !! c) as [hc |].
    + destruct (String.eqb (hcName hc) "NAMESPACE" && negb (mdClusterWide (GetModel t)));
        [by apply IH in Hrun |].
      destruct (hcMX hc && negb (tHasMetrics t)); [by apply IH in Hrun |].
      destruct (buildRow_cell ext t re ore h pads marked c col hc field) as [cell | why];
        [| done].
      simpl in Hrun. by apply IH in Hrun.
    + by apply IH in Hrun.
Qed.

Lemma doUpdate_rows_sortCol ext data h pads res :
  forall row t t',
    doUpdate_rows ext data h pads row res t = Done t' -> tSortCol t' = tSortCol t.
Proof.
  induction res as [| re res IH]; intros row t t' Hrun; simpl in Hrun.
  - by injection Hrun as <-.
  - destruct (at_index (tdRowEvents data) _) as [ore | why]; [| done].
    simpl in Hrun.
    destruct (buildRow ext (row + 1) re ore h pads t) as [t1 | why] eqn:Hrow; [| done].
    simpl in Hrun. apply IH in Hrun. rewrite Hrun.
    by apply buildRow_loop_sortCol in Hrow.
Qed.


Lemma doUpdate_actions_settings ext t data :
  tSortCol (doUpdate_actions ext t data) = tSortCol t /\
  tWide (doUpdate_actions ext t data) = tWide t /\
  doUpdate_cols ext (doUpdate_actions ext t data) = doUpdate_cols ext t.
Proof.
  unfold doUpdate_actions. by destruct (IsAllNamespaces ext (tdNamespace data)).
Qed.

(** ** The port-forward extender *)

Lemma deref_lookup a pf o : appObjects a !! pf = Some o -> deref a pf = Done o.
Proof. intros H. unfold deref. by rewrite H. Qed.

Section Forwarding.
Context (svc : Services) (pf : nat) (f : Handle) (a : App) (o : PortForwarder).
Context (port : string) (ports : list string).
Context (Hobj : appObjects a !! pf = Some o).
Context (Hports : pfPorts o = port :: ports).
Context (Hidle : appUpdates a = []).

(** The forwarding call returned an error: the task flashes it and
    returns; once the UI thread has run what was queued, the tunnel is
    still registered and still flagged active. *)
Lemma runForward_on_error err :
  ForwardPorts svc f = Some err ->
  exists a1 a2,
    runForward svc pf f a = Done a1 /\
    drainUpdates a1 = Done a2 /\
    appUpdates a1 = [UpdActivated pf] /\
    ForwarderFor (FQN_of o) a2 = Some pf /\
    appObjects a2 !! pf = Some (SetActive true o) /\
    FlashErr err ∈ appFlash a2.
Proof using Hobj Hports Hidle.
  intros Herr. unfold runForward, AddForwarder, pf_SetActive.
  rewrite (deref_lookup _ _ _ Hobj). simpl.
  rewrite (deref_lookup _ pf o) by done. simpl. rewrite Herr.
  eexists. eexists. split; [reflexivity |].
  unfold drainUpdates. simpl. rewrite Hidle. simpl.
  unfold deref. simpl. rewrite lookup_insert_eq. simpl. rewrite Hports. simpl.
  split; [reflexivity |]. split; [done |].
  unfold ForwarderFor. simpl. split; [apply lookup_insert_eq |].
  split; [apply lookup_insert_eq |].
  apply elem_of_app. left. apply elem_of_app. right. by left.
Qed.

(** The forwarding call returned cleanly: the queued update removes the
    tunnel from the registry and clears its flag. *)
Lemma runForward_on_clean_return :
  ForwardPorts svc f = None ->
  exists a1 a2,
    runForward svc pf f a = Done a1 /\
    drainUpdates a1 = Done a2 /\
    ForwarderFor (FQN_of o) a2 = None /\
    appObjects a2 !! pf = Some (SetActive false o).
Proof using Hobj Hports Hidle.
  intros Hok. unfold runForward, AddForwarder, pf_SetActive.
  rewrite (deref_lookup _ _ _ Hobj). simpl.
  rewrite (deref_lookup _ pf o) by done. simpl. rewrite Hok.
  eexists. eexists. split; [reflexivity |].
  unfold drainUpdates. simpl. rewrite Hidle. simpl.
  unfold deref. simpl. rewrite lookup_insert_eq. simpl. rewrite Hports. simpl.
  rewrite lookup_insert_eq. simpl. unfold pf_SetActive, deref. simpl.
  rewrite lookup_insert_eq. simpl.
  split; [reflexivity |].
  unfold ForwarderFor. simpl. split; [apply lookup_delete_eq |].
  rewrite lookup_insert_eq. by destruct o.
Qed.
End Forwarding.

(** C1, at the failing input.  The forwarder of [("ns/pod", "web")] is
    started and its forwarding call returns the error [lost connection to
    pod]: after the call, and after the UI thread has run every queued
    update, the registry still holds the identity and the forwarder is
    still flagged active; only the error has been flashed. *)
Theorem runForward_error_leaves_tunnel_registered :
  exists a1 a2,
    runForward (exampleServices None (Some "lost connection to pod")) 0%nat 0%nat
               appWithObject
    = Done a1 /\
    drainUpdates a1 = Done a2 /\
    appUpdates a1 = [UpdActivated 0%nat] /\
    ForwarderFor (PortForwardID "ns/pod" "web") a2 = Some 0%nat /\
    appObjects a2 !! 0%nat = Some (SetActive true webForwarder) /\
    FlashErr "lost connection to pod" ∈ appFlash a2.
Proof.
  apply (runForward_on_error (exampleServices None (Some "lost connection to pod"))
           0%nat 0%nat appWithObject webForwarder "8080:80" []); reflexivity.
Qed.

(** ** Starting a tunnel *)

(** C9, as stated, fails: the port probe runs before the duplicate check,
    so a request for a registered identity whose local port cannot be bound
    is turned down with the probe's error and not with the message of the
    duplicate check. *)
Lemma startFwdCB_duplicate_with_busy_port :
  ForwarderFor (PortForwardID "ns/pod" "web") appWithTunnel = Some 0%nat /\
  appFlash (startFwdCB (exampleServices (Some "bind: address already in use") None)
                       "ns/pod" "web" webTunnel appWithTunnel)
  = [FlashErr "bind: address already in use"] /\
  [FlashErr "bind: address already in use"] <> [FlashErr alreadyActive].
Proof.
  split; [apply lookup_singleton_eq |]. split; [reflexivity | discriminate].
Qed.

(** C9, amended.  A start request for an identity that already has a
    registry entry is turned down: with the "already active" error when the
    local port could be probed, with the probe's error otherwise.  Either
    way nothing but the flash changes: same registry, same size, no new
    forwarder object, no task spawned. *)
Theorem startFwdCB_rejects_duplicate (svc : Services) (path co : string)
        (t : PortTunnel) (a : App) (pf0 : nat) :
  ForwarderFor (PortForwardID path co) a = Some pf0 ->
  (tryListenPort svc (ptAddress t) (ptLocalPort t) = None ->
   startFwdCB svc path co t a = Flash (FlashErr alreadyActive) a) /\
  (forall err,
      tryListenPort svc (ptAddress t) (ptLocalPort t) = Some err ->
      startFwdCB svc path co t a = Flash (FlashErr err) a) /\
  appForwarders (startFwdCB svc path co t a) = appForwarders a /\
  size (appForwarders (startFwdCB svc path co t a)) = size (appForwarders a) /\
  appObjects (startFwdCB svc path co t a) = appObjects a /\
  appTasks (startFwdCB svc path co t a) = appTasks a.
Proof.
  intros Hdup. unfold startFwdCB. rewrite Hdup.
  destruct (tryListenPort svc (ptAddress t) (ptLocalPort t)) as [err |]; simpl.
  - split; [done |]. split; [by intros ? [= ->] |]. done.
  - split; [done |]. split; [done |]. done.
Qed.

Lemma startFwdCB_rejects_duplicate_witness :
  startFwdCB (exampleServices None None) "ns/pod" "web" webTunnel appWithTunnel
  = Flash (FlashErr alreadyActive) appWithTunnel.
Proof.
  refine (proj1 (startFwdCB_rejects_duplicate (exampleServices None None)
                   "ns/pod" "web" webTunnel appWithTunnel 0%nat _) eq_refl).
  apply lookup_singleton_eq.
Defined.

(** ** Resolving the pod of the selection *)

(** C10. When the accessor of the view's kind cannot be resolved,
    [fetchPodName] answers the empty name and no error, whatever the
    lookup's error was; for a non-empty selection [portFwdCmd] then goes on
    to [showFwdDialog] with the empty pod path, and the only error it can
    flash is the dialog's. *)
Theorem fetchPodName_discards_accessor_error (svc : Services) (gvr path e : string) :
  AccessorFor svc gvr = inr e ->
  fetchPodName svc gvr path = ("", None) /\
  (path <> "" ->
   forall evt a,
     portFwdCmd svc gvr path evt a =
     (None, match showFwdDialog svc "" a with
            | (a', Some err) => Flash (FlashErr err) a'
            | (a', None) => a'
            end)).
Proof.
  intros Hacc.
  assert (fetchPodName svc gvr path = ("", None)) as Hname
      by (unfold fetchPodName; by rewrite Hacc).
  split; [exact Hname |].
  intros Hpath evt a. unfold portFwdCmd.
  apply String.eqb_neq in Hpath. rewrite Hpath, Hname.
  by destruct (showFwdDialog svc "" a) as [a' [err |]].
Qed.

Lemma fetchPodName_discards_accessor_error_witness :
  fetchPodName (exampleServices None None) "apps/v1/deployments" "ns/web"
  = ("", None) /\
  portFwdCmd (exampleServices None None) "apps/v1/deployments" "ns/web" 0 emptyApp
  = (None, emptyApp).
Proof.
  destruct (fetchPodName_discards_accessor_error (exampleServices None None)
              "apps/v1/deployments" "ns/web"
              "no accessor for apps/v1/deployments" eq_refl) as [Hname Hcmd].
  split; [exact Hname |].
  rewrite Hcmd by discriminate. reflexivity.
Defined.

(** * Further properties *)

(** ** Scopes of a plugin *)

Lemma hasAll_spec scopes : hasAll scopes = true <-> "all" ∈ scopes.
Proof.
  induction scopes as [| s scopes IH]; simpl.
  - split; [done | by intros ?%elem_of_nil].
  - destruct (String.eqb_spec s "all") as [-> | Hne].
    + split; [by left | done].
    + rewrite IH. split; [by right |].
      intros [? | ?]%elem_of_cons; [congruence | done].
Qed.

Lemma includes_spec aliases s : includes aliases s = true <-> s ∈ aliases.
Proof.
  induction aliases as [| a aliases IH]; simpl.
  - split; [done | by intros ?%elem_of_nil].
  - destruct (String.eqb_spec a s) as [-> | Hne].
    + split; [by left | done].
    + rewrite IH. split; [by right |].
      intros [? | ?]%elem_of_cons; [congruence | done].
Qed.

Lemma inScope_range_spec scopes aliases :
  inScope_range scopes aliases = true <-> exists s, s ∈ scopes /\ s ∈ aliases.
Proof.
  induction scopes as [| s scopes IH]; simpl.
  - split; [done | by intros (s & ?%elem_of_nil & _)].
  - destruct (includes aliases s) eqn:Hin.
    + apply includes_spec in Hin. split; [| done].
      intros _. exists s. split; [by left | done].
    + rewrite IH. split.
      * intros (s' & Hs' & Ha). exists s'. split; [by right | done].
      * intros (s' & [-> | Hs']%elem_of_cons & Ha).
        -- apply includes_spec in Ha. congruence.
        -- eauto.
Qed.

(** X1. A plugin is in scope of a view exactly when its scopes name [all]
    or share an entry with the view's aliases; with no scopes it never
    is. *)
Theorem inScope_iff (scopes aliases : list string) :
  inScope scopes aliases = true <->
  "all" ∈ scopes \/ exists s, s ∈ scopes /\ s ∈ aliases.
Proof.
  unfold inScope. destruct (hasAll scopes) eqn:Hall.
  - apply hasAll_spec in Hall. split; [by left | done].
  - rewrite inScope_range_spec. split; [by right |].
    intros [Hin | ?]; [| done].
    apply hasAll_spec in Hin. congruence.
Qed.

(** ** Binding plugins and hot keys *)

Section BinderFacts.
Context (asKey : string -> Key + string).

Lemma pluginActions_range_spec aliases pp :
  forall aa log,
    (forall key b, aa !! key = Some b ->
                   fst (pluginActions_range asKey aliases pp aa log) !! key = Some b) /\
    (forall key b,
        fst (pluginActions_range asKey aliases pp aa log) !! key = Some b ->
        aa !! key = Some b \/
        exists k plugin,
          (k, plugin) ∈ pp /\ inScope (plScopes plugin) aliases = true /\
          asKey (plShortCut plugin) = inl key /\ b = pluginBinding plugin) /\
    (forall k plugin key,
        (k, plugin) ∈ pp -> inScope (plScopes plugin) aliases = true ->
        asKey (plShortCut plugin) = inl key ->
        is_Some (fst (pluginActions_range asKey aliases pp aa log) !! key)).
Proof.
  induction pp as [| [k0 p0] pp IH]; intros aa log.
  { simpl. split; [done |]. split; [by left |].
    by intros k plugin key ?%elem_of_nil. }
  simpl.
  assert (forall aa1 log1,
             (forall key b, aa !! key = Some b -> aa1 !! key = Some b) ->
             (forall key b, aa1 !! key = Some b ->
                            aa !! key = Some b \/
                            (inScope (plScopes p0) aliases = true /\
                             asKey (plShortCut p0) = inl key /\ b = pluginBinding p0)) ->
             (inScope (plScopes p0) aliases = true ->
              forall key, asKey (plShortCut p0) = inl key -> is_Some (aa1 !! key)) ->
             (forall key b, aa !! key = Some b ->
                fst (pluginActions_range asKey aliases pp aa1 log1) !! key = Some b) /\
             (forall key b,
                fst (pluginActions_range asKey aliases pp aa1 log1) !! key = Some b ->
                aa !! key = Some b \/
                exists k plugin,
                  (k, plugin) ∈ (k0, p0) :: pp /\
                  inScope (plScopes plugin) aliases = true /\
                  asKey (plShortCut plugin) = inl key /\ b = pluginBinding plugin) /\
             (forall k plugin key,
                (k, plugin) ∈ (k0, p0) :: pp ->
                inScope (plScopes plugin) aliases = true ->
                asKey (plShortCut plugin) = inl key ->
                is_Some (fst (pluginActions_range asKey aliases pp aa1 log1) !! key)))
    as Hstep.
  { intros aa1 log1 Hkeep Hnew Hbound.
    destruct (IH aa1 log1) as (IHkeep & IHnew & IHbound).
    split; [by intros key b ?%Hkeep%IHkeep |]. split.
    - intros key b Hb. apply IHnew in Hb as [Hb | (k & pl & Hin & ?)].
      + apply Hnew in Hb as [? | (? & ? & ?)]; [by left |].
        right. exists k0, p0. split; [by left | done].
      + right. exists k, pl. split; [by right | done].
    - intros k pl key [[= -> ->] | Hin]%elem_of_cons Hscope Hkey.
      + destruct (Hbound Hscope key Hkey) as [b Hb].
        exists b. by apply IHkeep.
      + by eapply IHbound. }
  destruct (inScope (plScopes p0) aliases) eqn:Hscope; simpl.
  2:{ apply Hstep; [done | by left | done]. }
  destruct (asKey (plShortCut p0)) as [key0 | err] eqn:Hkey.
  2:{ apply Hstep; [done | by left | done]. }
  destruct (aa !! key0) as [b0 |] eqn:Hfree.
  - apply Hstep; [done | by left |].
    intros _ key [= <-]. eauto.
  - apply Hstep.
    + intros key b Hb. rewrite lookup_insert_ne; [done |]. congruence.
    + intros key b Hb. destruct (decide (key0 = key)) as [<- | Hne].
      * rewrite lookup_insert_eq in Hb. injection Hb as <-. by right.
      * rewrite lookup_insert_ne in Hb by done. by left.
    + intros _ key [= <-]. rewrite lookup_insert_eq. eauto.
Qed.

Lemma hotKeyActions_range_spec hh :
  forall aa log,
    (forall key b, aa !! key = Some b ->
                   fst (hotKeyActions_range asKey hh aa log) !! key = Some b) /\
    (forall key b,
        fst (hotKeyActions_range asKey hh aa log) !! key = Some b ->
        aa !! key = Some b \/
        exists k hk,
          (k, hk) ∈ hh /\ asKey (hkShortCut hk) = inl key /\ b = hotKeyBinding hk) /\
    (forall k hk key,
        (k, hk) ∈ hh -> asKey (hkShortCut hk) = inl key ->
        is_Some (fst (hotKeyActions_range asKey hh aa log) !! key)).
Proof.
  induction hh as [| [k0 h0] hh IH]; intros aa log.
  { simpl. split; [done |]. split; [by left |].
    by intros k hk key ?%elem_of_nil. }
  simpl.
  assert (forall aa1 log1,
             (forall key b, aa !! key = Some b -> aa1 !! key = Some b) ->
             (forall key b, aa1 !! key = Some b ->
                            aa !! key = Some b \/
                            (asKey (hkShortCut h0) = inl key /\ b = hotKeyBinding h0)) ->
             (forall key, asKey (hkShortCut h0) = inl key -> is_Some (aa1 !! key)) ->
             (forall key b, aa !! key = Some b ->
                fst (hotKeyActions_range asKey hh aa1 log1) !! key = Some b) /\
             (forall key b,
                fst (hotKeyActions_range asKey hh aa1 log1) !! key = Some b ->
                aa !! key = Some b \/
                exists k hk,
                  (k, hk) ∈ (k0, h0) :: hh /\
                  asKey (hkShortCut hk) = inl key /\ b = hotKeyBinding hk) /\
             (forall k hk key,
                (k, hk) ∈ (k0, h0) :: hh ->
                asKey (hkShortCut hk) = inl key ->
                is_Some (fst (hotKeyActions_range asKey hh aa1 log1) !! key)))
    as Hstep.
  { intros aa1 log1 Hkeep Hnew Hbound.
    destruct (IH aa1 log1) as (IHkeep & IHnew & IHbound).
    split; [by intros key b ?%Hkeep%IHkeep |]. split.
    - intros key b Hb. apply IHnew in Hb as [Hb | (k & hk & Hin & ?)].
      + apply Hnew in Hb as [? | (? & ?)]; [by left |].
        right. exists k0, h0. split; [by left | done].
      + right. exists k, hk. split; [by right | done].
    - intros k hk key [[= -> ->] | Hin]%elem_of_cons Hkey.
      + destruct (Hbound key Hkey) as [b Hb].
        exists b. by apply IHkeep.
      + by eapply IHbound. }
  destruct (asKey (hkShortCut h0)) as [key0 | err] eqn:Hkey.
  2:{ apply Hstep; [done | by left | done]. }
  destruct (aa !! key0) as [b0 |] eqn:Hfree.
  - apply Hstep; [done | by left |].
    intros key [= <-]. eauto.
  - apply Hstep.
    + intros key b Hb. rewrite lookup_insert_ne; [done |]. congruence.
    + intros key b Hb. destruct (decide (key0 = key)) as [<- | Hne].
      * rewrite lookup_insert_eq in Hb. injection Hb as <-. by right.
      * rewrite lookup_insert_ne in Hb by done. by left.
    + intros key [= <-]. rewrite lookup_insert_eq. eauto.
Qed.
End BinderFacts.

(** X2. Binding the plugins never replaces a binding that is already
    there; whatever it adds is the binding of a loaded plugin that is in
    scope of the view and whose shortcut maps to that key; every such
    plugin finds its key bound afterwards (by itself or by whoever held the
    key first); and when the plugins cannot be loaded nothing changes. *)
Theorem pluginActions_never_overrides (asKey : string -> Key + string)
        (aliases : list string) (loaded : list (string * Plugin) + string)
        (aa : gmap Key Binding) (log : list BinderLog) :
  (forall key b, aa !! key = Some b ->
                 fst (pluginActions asKey aliases loaded aa log) !! key = Some b) /\
  (forall key b,
      fst (pluginActions asKey aliases loaded aa log) !! key = Some b ->
      aa !! key = Some b \/
      exists pp k plugin,
        loaded = inl pp /\ (k, plugin) ∈ pp /\
        inScope (plScopes plugin) aliases = true /\
        asKey (plShortCut plugin) = inl key /\ b = pluginBinding plugin) /\
  (forall pp k plugin key,
      loaded = inl pp -> (k, plugin) ∈ pp ->
      inScope (plScopes plugin) aliases = true ->
      asKey (plShortCut plugin) = inl key ->
      is_Some (fst (pluginActions asKey aliases loaded aa log) !! key)) /\
  (forall err, loaded = inr err ->
               pluginActions asKey aliases loaded aa log = (aa, log)).
Proof.
  destruct loaded as [pp | err]; simpl.
  - destruct (pluginActions_range_spec asKey aliases pp aa log) as (Hkeep & Hnew & Hbound).
    split; [done |]. split.
    + intros key b Hb. apply Hnew in Hb as [? | (k & pl & ?)]; [by left |].
      right. by exists pp, k, pl.
    + split; [| done]. intros pp' k pl key [= <-]. apply Hbound.
  - split; [done |]. split; [by left |]. split; [done | done].
Qed.

(** X3. Binding the hot keys never replaces a binding that is already
    there; whatever it adds is the shared, hidden binding of a loaded hot
    key whose shortcut maps to that key; every hot key with a mappable
    shortcut finds its key bound afterwards; and when the hot keys cannot
    be loaded nothing changes. *)
Theorem hotKeyActions_never_overrides (asKey : string -> Key + string)
        (loaded : list (string * HotKey) + string)
        (aa : gmap Key Binding) (log : list BinderLog) :
  (forall key b, aa !! key = Some b ->
                 fst (hotKeyActions asKey loaded aa log) !! key = Some b) /\
  (forall key b,
      fst (hotKeyActions asKey loaded aa log) !! key = Some b ->
      aa !! key = Some b \/
      exists hh k hk,
        loaded = inl hh /\ (k, hk) ∈ hh /\
        asKey (hkShortCut hk) = inl key /\ b = hotKeyBinding hk) /\
  (forall hh k hk key,
      loaded = inl hh -> (k, hk) ∈ hh ->
      asKey (hkShortCut hk) = inl key ->
      is_Some (fst (hotKeyActions asKey loaded aa log) !! key)) /\
  (forall err, loaded = inr err ->
               hotKeyActions asKey loaded aa log = (aa, log)).
Proof.
  destruct loaded as [hh | err]; simpl.
  - destruct (hotKeyActions_range_spec asKey hh aa log) as (Hkeep & Hnew & Hbound).
    split; [done |]. split.
    + intros key b Hb. apply Hnew in Hb as [? | (k & hk & ?)]; [by left |].
      right. by exists hh, k, hk.
    + split; [| done]. intros hh' k hk key [= <-]. apply Hbound.
  - split; [done |]. split; [by left |]. split; [done | done].
Qed.

(** ** Running a plugin command *)

Lemma execCmd_args_resolved envFor ns args vs aa :
  Forall2 (fun a v => envFor ns a = inl v) args vs ->
  execCmd_args envFor ns args aa = inl (aa ++ vs).
Proof.
  intros Hall. revert aa.
  induction Hall as [| a v args vs Ha _ IH]; intros aa; simpl.
  - by rewrite app_nil_r.
  - rewrite Ha, IH. by rewrite <- app_assoc.
Qed.

Lemma execCmd_args_failed envFor ns args aa :
  Exists (fun a => exists err, envFor ns a = inr err) args ->
  exists err, execCmd_args envFor ns args aa = inr err.
Proof.
  intros Hex. revert aa.
  induction Hex as [a args [err Ha] | a args _ IH]; intros aa; simpl.
  - rewrite Ha. eauto.
  - destruct (envFor ns a) as [v | err]; [apply IH | eauto].
Qed.

(** X4. A plugin command is handed to [run] only when an item is
    selected, the view has an environment function and every argument
    resolves: it is then run once, cleared, with the resolved arguments in
    the order given, and the outcome is flashed.  With no selection the
    event is passed on untouched; with no environment function nothing
    happens; when an argument does not resolve the failure is logged and
    nothing is run or flashed. *)
Theorem execCmd_runs_resolved_command (r : Runner) (bin : string) (bg : bool)
        (args : list string) (evt : Z) (sh : Shell) :
  (rnSelectedItem r = "" -> execCmd r bin bg args evt sh = (Some evt, sh)) /\
  (rnSelectedItem r <> "" -> rnEnvFn r = None ->
   execCmd r bin bg args evt sh = (None, sh)) /\
  (forall envFor,
      rnSelectedItem r <> "" -> rnEnvFn r = Some envFor ->
      (forall vs,
          Forall2 (fun a v => envFor (fst (rnNamespaced r (rnSelectedItem r))) a = inl v)
                  args vs ->
          fst (execCmd r bin bg args evt sh) = None /\
          shRuns (snd (execCmd r bin bg args evt sh)) =
            shRuns sh ++ [{| soClear := true; soBinary := bin;
                             soBackground := bg; soArgs := vs |}] /\
          shFlash (snd (execCmd r bin bg args evt sh)) =
            shFlash sh ++
            [FlashInfo (if rnRun r {| soClear := true; soBinary := bin;
                                      soBackground := bg; soArgs := vs |}
                        then "Plugin command launched successfully!"
                        else "Plugin command failed!")] /\
          shErrors (snd (execCmd r bin bg args evt sh)) = shErrors sh) /\
      (Exists (fun a => exists err,
                   envFor (fst (rnNamespaced r (rnSelectedItem r))) a = inr err) args ->
       fst (execCmd r bin bg args evt sh) = None /\
       shRuns (snd (execCmd r bin bg args evt sh)) = shRuns sh /\
       shFlash (snd (execCmd r bin bg args evt sh)) = shFlash sh /\
       exists err, shErrors (snd (execCmd r bin bg args evt sh)) = shErrors sh ++ [err])).
Proof.
  split; [| split].
  - intros Hsel. unfold execCmd. by rewrite Hsel.
  - intros Hsel Henv. unfold execCmd. apply String.eqb_neq in Hsel.
    by rewrite Hsel, Henv.
  - intros envFor Hsel Henv. apply String.eqb_neq in Hsel. split.
    + intros vs Hvs. unfold execCmd. rewrite Hsel, Henv.
      rewrite (execCmd_args_resolved _ _ _ vs []) by done. done.
    + intros Hfail. unfold execCmd. rewrite Hsel, Henv.
      destruct (execCmd_args_failed envFor _ args [] Hfail) as [err ->]. simpl.
      eauto.
Qed.

(** ** Starting tunnels *)

Lemma fresh_object_unused (a : App) :
  appObjects a !! fresh (dom (appObjects a)) = None.
Proof. apply not_elem_of_dom, is_fresh. Qed.

(** X5. A start request never touches the registry, the update queue or a
    forwarder object that exists: it either flashes one error and spawns
    nothing, or flashes nothing and spawns exactly one task, for a forwarder
    object that is new.  The tunnel is registered by the task, not by the
    request. *)
Theorem startFwdCB_flashes_or_spawns (svc : Services) (path co : string)
        (t : PortTunnel) (a : App) :
  appForwarders (startFwdCB svc path co t a) = appForwarders a /\
  appUpdates (startFwdCB svc path co t a) = appUpdates a /\
  (forall pf o, appObjects a !! pf = Some o ->
                appObjects (startFwdCB svc path co t a) !! pf = Some o) /\
  ((exists err,
       appFlash (startFwdCB svc path co t a) = appFlash a ++ [FlashErr err] /\
       appTasks (startFwdCB svc path co t a) = appTasks a) \/
   (exists pf o fwd,
       appFlash (startFwdCB svc path co t a) = appFlash a /\
       appTasks (startFwdCB svc path co t a) = appTasks a ++ [GoRunForward pf fwd] /\
       appObjects a !! pf = None /\
       appObjects (startFwdCB svc path co t a) !! pf = Some o /\
       PortForwarder_Start svc path co t = inl (o, fwd))).
Proof.
  unfold startFwdCB.
  destruct (tryListenPort svc (ptAddress t) (ptLocalPort t)) as [err |].
  { simpl. split; [done |]. split; [done |]. split; [done |]. left. eauto. }
  destruct (ForwarderFor (PortForwardID path co) a) as [pf0 |].
  { simpl. split; [done |]. split; [done |]. split; [done |]. left. eauto. }
  unfold NewPortForwarder.
  pose proof (fresh_object_unused a) as Hfresh.
  destruct (PortForwarder_Start svc path co t) as [[o fwd] | err]; simpl.
  - split; [done |]. split; [done |]. split.
    + intros pf o' Hpf. rewrite !lookup_insert_ne by congruence. done.
    + right. exists (fresh (dom (appObjects a))), o, fwd.
      split; [done |]. split; [done |]. split; [done |].
      split; [apply lookup_insert_eq | done].
  - split; [done |]. split; [done |]. split.
    + intros pf o' Hpf. rewrite lookup_insert_ne by congruence. done.
    + left. eauto.
Qed.

(** X6. The duplicate check sees registered tunnels only: two start
    requests in a row for an identity that is not registered, made before
    the first one's task has run, both get through and spawn a task each,
    for two different forwarder objects. *)
Theorem startFwdCB_twice_spawns_twice (svc : Services) (path co : string)
        (t : PortTunnel) (a : App) (o : PortForwarder) (fwd : Handle) :
  ForwarderFor (PortForwardID path co) a = None ->
  tryListenPort svc (ptAddress t) (ptLocalPort t) = None ->
  PortForwarder_Start svc path co t = inl (o, fwd) ->
  exists pf1 pf2,
    pf1 <> pf2 /\
    appTasks (startFwdCB svc path co t (startFwdCB svc path co t a)) =
    appTasks a ++ [GoRunForward pf1 fwd; GoRunForward pf2 fwd] /\
    appFlash (startFwdCB svc path co t (startFwdCB svc path co t a)) = appFlash a.
Proof.
  intros Hnew Hprobe Hstart.
  assert (forall b, ForwarderFor (PortForwardID path co) b = None ->
                    startFwdCB svc path co t b =
                    Go (GoRunForward (fresh (dom (appObjects b))) fwd)
                       (App_withObjects
                          (<[fresh (dom (appObjects b)) := o]>
                             (appObjects (snd (NewPortForwarder b))))
                          (snd (NewPortForwarder b)))) as Hrun.
  { intros b Hb. unfold startFwdCB. rewrite Hprobe, Hb. simpl. by rewrite Hstart. }
  rewrite (Hrun a Hnew). rewrite Hrun by done. simpl.
  eexists _, _. split; [| split; [by rewrite <- app_assoc | done]].
  intros Heq.
  pose proof (is_fresh (dom (<[fresh (dom (appObjects a)) := o]>
                              (<[fresh (dom (appObjects a)) :=
                                   {| pfPath := ""; pfContainer := ""; pfPorts := [];
                                      pfActive := false |}]> (appObjects a))))) as Hfresh.
  apply Hfresh. rewrite <- Heq. apply elem_of_dom. rewrite lookup_insert_eq. eauto.
Qed.

Lemma startFwdCB_twice_spawns_twice_witness :
  exists pf1 pf2,
    pf1 <> pf2 /\
    appTasks (startFwdCB (exampleServices None None) "ns/pod" "web" webTunnel
                (startFwdCB (exampleServices None None) "ns/pod" "web" webTunnel emptyApp)) =
    appTasks emptyApp ++ [GoRunForward pf1 0%nat; GoRunForward pf2 0%nat] /\
    appFlash (startFwdCB (exampleServices None None) "ns/pod" "web" webTunnel
                (startFwdCB (exampleServices None None) "ns/pod" "web" webTunnel emptyApp)) =
    appFlash emptyApp.
Proof.
  exact (startFwdCB_twice_spawns_twice (exampleServices None None) "ns/pod" "web"
           webTunnel emptyApp
           {| pfPath := "ns/pod"; pfContainer := "web"; pfPorts := ["8080:80"];
              pfActive := false |} 0%nat eq_refl eq_refl eq_refl).
Defined.

(** ** A tunnel from start to end *)

(** X7. When the forwarding call returns cleanly and the UI thread has run
    the queued updates, the registry is what it was with the forwarder's
    identity removed (whoever held it), the forwarder object is flagged
    inactive, every other object and registry entry is as before, and the
    only message flashed is the activation notice. *)
Theorem runForward_clean_return_unregisters (svc : Services) (pf : nat) (f : Handle)
        (a : App) (o : PortForwarder) (port : string) (ports : list string) :
  appObjects a !! pf = Some o ->
  pfPorts o = port :: ports ->
  appUpdates a = [] ->
  ForwardPorts svc f = None ->
  exists a1 a2,
    runForward svc pf f a = Done a1 /\
    drainUpdates a1 = Done a2 /\
    appForwarders a2 = delete (FQN_of o) (appForwarders a) /\
    appObjects a2 = <[pf := SetActive false o]> (appObjects a) /\
    appFlash a2 = appFlash a ++
                  [FlashInfo ("PortForward activated " +:+ pfPath o +:+ ":" +:+ port)] /\
    appUpdates a2 = [] /\
    appTasks a2 = appTasks a.
Proof.
  intros Hobj Hports Hidle Hok. unfold runForward, AddForwarder, pf_SetActive.
  rewrite (deref_lookup _ _ _ Hobj). simpl.
  rewrite (deref_lookup _ pf o) by done. simpl. rewrite Hok.
  eexists. eexists. split; [reflexivity |].
  unfold drainUpdates. simpl. rewrite Hidle. simpl.
  unfold deref. simpl. rewrite lookup_insert_eq. simpl. rewrite Hports. simpl.
  rewrite lookup_insert_eq. simpl. unfold pf_SetActive, deref. simpl.
  rewrite lookup_insert_eq. simpl.
  split; [reflexivity |]. simpl.
  split; [apply delete_insert_eq |].
  split; [| done].
  rewrite insert_insert_eq. by destruct o.
Qed.

Lemma runForward_clean_return_unregisters_witness :
  exists a1 a2,
    runForward (exampleServices None None) 0%nat 0%nat appWithObject = Done a1 /\
    drainUpdates a1 = Done a2 /\
    appForwarders a2 = delete (FQN_of webForwarder) (appForwarders appWithObject) /\
    appObjects a2 = <[0%nat := SetActive false webForwarder]> (appObjects appWithObject) /\
    appFlash a2 = appFlash appWithObject ++
                  [FlashInfo ("PortForward activated " +:+ pfPath webForwarder +:+ ":" +:+
                              "8080:80")] /\
    appUpdates a2 = [] /\
    appTasks a2 = appTasks appWithObject.
Proof.
  exact (runForward_clean_return_unregisters (exampleServices None None) 0%nat 0%nat
           appWithObject webForwarder "8080:80" [] eq_refl eq_refl eq_refl eq_refl).
Defined.

(** X8. After a forwarding call that returned an error, a new start
    request for the same resource path and container is turned down as
    already active, although nothing is forwarding: once the local port can
    be probed the request always ends at the duplicate check. *)
Theorem failed_tunnel_blocks_restart (svc : Services) (pf : nat) (f : Handle)
        (a : App) (o : PortForwarder) (port : string) (ports : list string)
        (err : string) (t : PortTunnel) :
  appObjects a !! pf = Some o ->
  pfPorts o = port :: ports ->
  appUpdates a = [] ->
  ForwardPorts svc f = Some err ->
  tryListenPort svc (ptAddress t) (ptLocalPort t) = None ->
  exists a1 a2,
    runForward svc pf f a = Done a1 /\
    drainUpdates a1 = Done a2 /\
    startFwdCB svc (pfPath o) (pfContainer o) t a2 = Flash (FlashErr alreadyActive) a2.
Proof.
  intros Hobj Hports Hidle Herr Hprobe.
  destruct (runForward_on_error svc pf f a o port ports Hobj Hports Hidle err Herr)
    as (a1 & a2 & Hrun & Hdrain & _ & Hreg & _).
  exists a1, a2. split; [done |]. split; [done |].
  unfold startFwdCB. rewrite Hprobe.
  unfold FQN_of in Hreg. by rewrite Hreg.
Qed.

Lemma failed_tunnel_blocks_restart_witness :
  exists a1 a2,
    runForward (exampleServices None (Some "lost connection to pod")) 0%nat 0%nat
               appWithObject = Done a1 /\
    drainUpdates a1 = Done a2 /\
    startFwdCB (exampleServices None (Some "lost connection to pod"))
               "ns/pod" "web" webTunnel a2 = Flash (FlashErr alreadyActive) a2.
Proof.
  exact (failed_tunnel_blocks_restart
           (exampleServices None (Some "lost connection to pod")) 0%nat 0%nat
           appWithObject webForwarder "8080:80" [] "lost connection to pod" webTunnel
           eq_refl eq_refl eq_refl eq_refl eq_refl).
Defined.

(** ** The port-forward dialog *)







(** ** The port-forward command *)

(** X10. The command hands the event back only when nothing is selected;
    whatever happens it leaves the registry, the forwarder objects, the
    tasks and the update queue alone: all it can do is flash one error or
    open one dialog, never both. *)
Theorem portFwdCmd_only_flashes_or_opens (svc : Services) (gvr selected : string)
        (evt : Z) (a : App) :
  fst (portFwdCmd svc gvr selected evt a) =
    (if String.eqb selected "" then Some evt else None) /\
  appForwarders (snd (portFwdCmd svc gvr selected evt a)) = appForwarders a /\
  appObjects (snd (portFwdCmd svc gvr selected evt a)) = appObjects a /\
  appTasks (snd (portFwdCmd svc gvr selected evt a)) = appTasks a /\
  appUpdates (snd (portFwdCmd svc gvr selected evt a)) = appUpdates a /\
  (snd (portFwdCmd svc gvr selected evt a) = a \/
   (exists err, snd (portFwdCmd svc gvr selected evt a) = Flash (FlashErr err) a) \/
   (exists pod ports, snd (portFwdCmd svc gvr selected evt a) =
                      ShowPortForwards pod ports a)).
Proof.
  unfold portFwdCmd. destruct (String.eqb selected "").
  { simpl. repeat (split; [done |]). by left. }
  destruct (fetchPodName svc gvr selected) as [pod [err |]].
  { simpl. repeat (split; [done |]). right. left. eauto. }
  unfold showFwdDialog. destruct (fetchPodPorts svc pod) as [mm | err]; simpl.
  2:{ repeat (split; [done |]). by left. }
  destruct (length (showFwdDialog_range svc (Map_range svc mm) []) =? 0)%nat; simpl.
  - repeat (split; [done |]). right. left. eauto.
  - repeat (split; [done |]). right. right. eauto.
Qed.

(** ** Chart rows and the chart header *)

(** X11. For a release that has its info, chart and metadata, [Render]
    succeeds and fills the row so that it lines up with [Header]: as many
    fields as columns, and under each column the value that column names,
    the VALID column holding the diagnosis of the status and the AGE column
    the age of the last deployment; the row's ID is the qualified name. *)
Theorem Chart_Render_lines_up_with_Header (hp : ChartHelpers) (ns ns' : string)
        (r0 : Row) (rel : Release) (info : ReleaseInfo) (chart : HelmChart)
        (meta : ChartMetadata) :
  rlInfo rel = Some info -> rlChart rel = Some chart -> hcMetadata chart = Some meta ->
  exists row,
    Chart_Render hp (ChartRes (Some rel)) ns r0 = Done (row, None) /\
    rowID row = chFQN hp (rlNamespace rel) (rlName rel) /\
    length (rowFields row) = length (Chart_Header hp ns') /\
    columnOf (Chart_Header hp ns') "NAMESPACE" row = Some (rlNamespace rel) /\
    columnOf (Chart_Header hp ns') "NAME" row = Some (rlName rel) /\
    columnOf (Chart_Header hp ns') "REVISION" row = Some (chItoa hp (rlVersion rel)) /\
    columnOf (Chart_Header hp ns') "STATUS" row = Some (riStatus info) /\
    columnOf (Chart_Header hp ns') "CHART" row =
      Some (cmName meta +:+ "-" +:+ cmVersion meta) /\
    columnOf (Chart_Header hp ns') "APP VERSION" row = Some (cmAppVersion meta) /\
    columnOf (Chart_Header hp ns') "VALID" row =
      Some (chAsStatus hp (Chart_diagnose (riStatus info))) /\
    columnOf (Chart_Header hp ns') "AGE" row = Some (chToAge hp (riLastDeployed info)).
Proof.
  intros Hinfo Hchart Hmeta. unfold Chart_Render. simpl.
  rewrite Hinfo. simpl. rewrite Hchart. simpl. rewrite Hmeta. simpl.
  eexists. split; [reflexivity |]. simpl. repeat split; reflexivity.
Qed.

Lemma Chart_Render_lines_up_with_Header_witness :
  exists row,
    Chart_Render exampleHelpers (ChartRes (Some (exampleRelease "web" "failed")))
                 "default" {| rowID := ""; rowFields := [] |} = Done (row, None) /\
    columnOf (Chart_Header exampleHelpers "default") "VALID" row =
      Some "chart is in an invalid state".
Proof.
  destruct (Chart_Render_lines_up_with_Header exampleHelpers "default" "default"
              {| rowID := ""; rowFields := [] |} (exampleRelease "web" "failed")
              {| riStatus := "failed"; riLastDeployed := 0 |}
              {| hcMetadata := Some {| cmName := "nginx"; cmVersion := "1.0.0";
                                       cmAppVersion := "1.19" |} |}
              {| cmName := "nginx"; cmVersion := "1.0.0"; cmAppVersion := "1.19" |}
              eq_refl eq_refl eq_refl)
    as (row & Hrun & _ & _ & _ & _ & _ & _ & _ & _ & Hvalid & _).
  exists row. split; [exact Hrun | exact Hvalid].
Defined.

(** X12. [Render] returns an error exactly when the object is not a
    [ChartRes], and then the row is left as it was; it panics exactly when
    the [ChartRes] lacks its release, or the release its info, chart or
    chart metadata; otherwise it succeeds. *)
Theorem Chart_Render_outcomes (hp : ChartHelpers) (o : RenderObject) (ns : string)
        (r0 : Row) :
  (forall row err,
      Chart_Render hp o ns r0 = Done (row, Some err) <->
      exists typeName, o = OtherObject typeName /\ row = r0 /\
                       err = "expected ChartRes, but got " +:+ typeName) /\
  ((exists why, Chart_Render hp o ns r0 = Panic why) <->
   o = ChartRes None \/
   exists rel, o = ChartRes (Some rel) /\
               (rlInfo rel = None \/ rlChart rel = None \/
                exists chart, rlChart rel = Some chart /\ hcMetadata chart = None)).
Proof.
  split.
  - intros row err. split.
    + intros Hrun. destruct o as [[rel |] | typeName]; simpl in Hrun; [| done |].
      * destruct (rlInfo rel); [| done]. simpl in Hrun.
        destruct (rlChart rel) as [chart |]; [| done]. simpl in Hrun.
        destruct (hcMetadata chart); done.
      * injection Hrun as <- <-. eauto.
    + intros (typeName & -> & -> & ->). done.
  - split.
    + intros [why Hrun]. destruct o as [[rel |] | typeName]; simpl in Hrun;
        [| by left | done].
      right. exists rel. split; [done |].
      destruct (rlInfo rel); [| by left]. simpl in Hrun.
      destruct (rlChart rel) as [chart |]; [| right; by left]. simpl in Hrun.
      destruct (hcMetadata chart) eqn:Hmeta; [done |].
      right. right. eauto.
    + intros [-> | (rel & -> & Hnil)]; simpl; [eauto |].
      destruct Hnil as [-> | [Hchart | (chart & Hchart & Hmeta)]]; simpl; [eauto | |].
      * destruct (rlInfo rel); simpl; [| eauto]. rewrite Hchart. simpl. eauto.
      * destruct (rlInfo rel); simpl; [| eauto]. rewrite Hchart. simpl.
        rewrite Hmeta. simpl. eauto.
Qed.

(** ** The toast filter on chart rows *)

Lemma renderedChart_toast hp ns re :
  chAsStatus hp None = "" ->
  chAsStatus hp (Some "chart is in an invalid state") <> "" ->
  renderedChart hp re ->
  hasField 6 re /\ keepsToast 6 re = notDeployed (Chart_Header hp ns) re.
Proof.
  intros Hnil Herr (_ & rel & ns0 & r0 & Hrun).
  unfold Chart_Render in Hrun. simpl in Hrun.
  destruct (rlInfo rel) as [info |]; [| done]. simpl in Hrun.
  destruct (rlChart rel) as [chart |]; [| done]. simpl in Hrun.
  destruct (hcMetadata chart) as [meta |]; [| done]. simpl in Hrun.
  injection Hrun as Hrow.
  unfold hasField, keepsToast, notDeployed, columnOf, fieldAt. rewrite <- Hrow. simpl.
  split; [eauto |].
  unfold Chart_diagnose. destruct (String.eqb (riStatus info) "deployed"); simpl.
  - by rewrite Hnil.
  - apply String.eqb_neq in Herr. by rewrite Herr.
Qed.

(** X13. Over a snapshot made of the chart header and of rows [Render]
    produced, the toast filter keeps exactly the releases whose status is
    not [deployed], in their order, provided the status helper yields the
    empty string for no error and a non-empty one for the diagnosis. *)
Theorem filterToast_keeps_undeployed_charts (hp : ChartHelpers) (ns : string)
        (rows : RowEvents) :
  chAsStatus hp None = "" ->
  chAsStatus hp (Some "chart is in an invalid state") <> "" ->
  Forall (renderedChart hp) rows ->
  filterToast {| tdHeader := Chart_Header hp ns; tdRowEvents := rows;
                 tdNamespace := ns |}
  = Done {| tdHeader := Chart_Header hp ns;
            tdRowEvents := List.filter (notDeployed (Chart_Header hp ns)) rows;
            tdNamespace := ns |}.
Proof.
  intros Hnil Herr Hrows. unfold filterToast. simpl.
  change (IndexOf (Chart_Header hp ns) "VALID" true) with (Z.of_nat 6).
  simpl (Z.of_nat 6 =? -1).
  rewrite filterToast_loop_spec.
  - simpl. do 2 f_equal. clear -Hnil Herr Hrows.
    induction Hrows as [| re rows Hre _ IH]; simpl; [done |].
    destruct (renderedChart_toast hp ns re Hnil Herr Hre) as [_ ->].
    by rewrite IH.
  - eapply Forall_impl; [exact Hrows |]. intros re Hre.
    by destruct (renderedChart_toast hp ns re Hnil Herr Hre).
Qed.

Lemma filterToast_keeps_undeployed_charts_witness :
  filterToast {| tdHeader := Chart_Header exampleHelpers "default";
                 tdRowEvents := [rowEvent (exampleChartRow "web" "deployed");
                                 rowEvent (exampleChartRow "db" "failed")];
                 tdNamespace := "default" |}
  = Done {| tdHeader := Chart_Header exampleHelpers "default";
            tdRowEvents := [rowEvent (exampleChartRow "db" "failed")];
            tdNamespace := "default" |}.
Proof.
  refine (filterToast_keeps_undeployed_charts exampleHelpers "default"
            [rowEvent (exampleChartRow "web" "deployed");
             rowEvent (exampleChartRow "db" "failed")] eq_refl _ _).
  - discriminate.
  - repeat constructor.
    + exists (exampleRelease "web" "deployed"), "default",
             {| rowID := ""; rowFields := [] |}. reflexivity.
    + exists (exampleRelease "db" "failed"), "default",
             {| rowID := ""; rowFields := [] |}. reflexivity.
Defined.

(** ** What a render pass leaves alone *)

Lemma buildRow_loop_frame ext r re ore h pads marked fields :
  forall c col t t',
    buildRow_loop ext r re ore h pads marked c col fields t = Done t' ->
    Table_frame t' = Table_frame t /\ tLog t `prefix_of` tLog t'.
Proof.
  induction fields as [| field rest IH]; intros c col t t' Hrun; simpl in Hrun.
  - by injection Hrun as <-.
  - destruct (h !! c) as [hc |].
    + destruct (String.eqb (hcName hc) "NAMESPACE" && negb (mdClusterWide (GetModel t)));
        [by apply IH in Hrun |].
      destruct (hcMX hc && negb (tHasMetrics t)); [by apply IH in Hrun |].
      destruct (buildRow_cell ext t re ore h pads marked c col hc field) as [cell | why];
        [| done].
      simpl in Hrun. by apply IH in Hrun.
    + apply IH in Hrun as [Hframe Hlog]. split; [exact Hframe |].
      etrans; [| exact Hlog]. simpl. by apply prefix_app_r.
Qed.

Lemma doUpdate_rows_frame ext data h pads res :
  forall row t t',
    doUpdate_rows ext data h pads row res t = Done t' ->
    Table_frame t' = Table_frame t /\ tLog t `prefix_of` tLog t'.
Proof.
  induction res as [| re res IH]; intros row t t' Hrun; simpl in Hrun.
  - by injection Hrun as <-.
  - destruct (at_index (tdRowEvents data) _) as [ore | why]; [| done].
    simpl in Hrun.
    destruct (buildRow ext (row + 1) re ore h pads t) as [t1 | why] eqn:Hrow; [| done].
    simpl in Hrun. apply IH in Hrun as [Hframe Hlog].
    apply buildRow_loop_frame in Hrow as [Hframe1 Hlog1].
    split; [by rewrite Hframe | by etrans].
Qed.

Lemma doUpdate_header_frame hh :
  forall col fg bg t,
    Table_frame (doUpdate_header hh col fg bg t) = Table_frame t /\
    tLog (doUpdate_header hh col fg bg t) = tLog t.
Proof.
  induction hh as [| hc hh IH]; intros col fg bg t; simpl; [done |].
  destruct (String.eqb (hcName hc) "NAMESPACE" && negb (mdClusterWide (GetModel t)));
    [apply IH |].
  destruct (hcMX hc && negb (tHasMetrics t)); [apply IH |].
  match goal with
  | |- context [doUpdate_header hh (S col) fg bg ?t1] =>
      destruct (IH (S col) fg bg t1) as [-> ->]
  end.
  match goal with
  | |- context [match ?x with Some _ => _ | None => _ end] => by destruct x
  end.
Qed.

Lemma doUpdate_render_frame ext t custData data t' :
  doUpdate_render ext t custData data = Done t' ->
  Table_frame t' = Table_frame t /\ tLog t `prefix_of` tLog t'.
Proof.
  intros Hrun. unfold doUpdate_render in Hrun.
  match type of Hrun with
  | (mbind _ ?m) = _ => destruct m as [t5 | why] eqn:Hrows; [| done]
  end.
  simpl in Hrun. injection Hrun as <-.
  apply doUpdate_rows_frame in Hrows as [Hframe Hlog].
  match type of Hframe with
  | _ = Table_frame (doUpdate_header ?hh ?col ?fg ?bg ?t1) =>
      destruct (doUpdate_header_frame hh col fg bg t1) as [Hframe0 Hlog0]
  end.
  rewrite Hlog0 in Hlog. rewrite Hframe0 in Hframe. by split.
Qed.

Lemma doUpdate_sortCol_cases t h :
  (doUpdate_sortCol t h = t /\
   (h = [] \/ (scName (tSortCol t) <> "" /\ IndexOf h (scName (tSortCol t)) false <> -1))) \/
  (exists h0 rest, h = h0 :: rest /\ doUpdate_sortCol t h = withSortName (hcName h0) t /\
                   (scName (tSortCol t) = "" \/ IndexOf h (scName (tSortCol t)) false = -1)).
Proof.
  unfold doUpdate_sortCol. destruct h as [| h0 rest].
  - left. rewrite andb_false_r. split; [done | by left].
  - destruct (String.eqb (scName (tSortCol t)) "") eqn:Hname.
    + right. exists h0, rest. apply String.eqb_eq in Hname. simpl. by eauto.
    + destruct (IndexOf (h0 :: rest) (scName (tSortCol t)) false =? -1) eqn:Hidx.
      * right. exists h0, rest. apply Z.eqb_eq in Hidx. simpl. by eauto.
      * left. simpl. split; [done |]. right.
        apply String.eqb_neq in Hname. apply Z.eqb_neq in Hidx. done.
Qed.

Lemma IndexOf_from_found i h n w :
  IndexOf_from i h n w <> -1 -> exists hc, hc ∈ h /\ hcName hc = n.
Proof.
  revert i. induction h as [| c h IH]; intros i Hfound; simpl in Hfound; [done |].
  destruct (hcWide c && negb w).
  - destruct (IH _ Hfound) as (hc & Hin & Hname). exists hc. split; [by right | done].
  - destruct (String.eqb (hcName c) n) eqn:Hc.
    + apply String.eqb_eq in Hc. exists c. split; [by left | done].
    + destruct (IH _ Hfound) as (hc & Hin & Hname). exists hc. split; [by right | done].
Qed.

(** The sort column [doUpdate] ends with is the one its guard settles on. *)
Lemma doUpdate_sortCol_result ext t data t' :
  doUpdate ext t data = Done t' ->
  tSortCol t' = tSortCol (doUpdate_sortCol t (shownHeader ext t data)).
Proof.
  intros Hrun. unfold doUpdate in Hrun.
  apply doUpdate_render_frame in Hrun as [Hframe _].
  destruct (doUpdate_actions_settings ext t data) as (Hsc & Hwide & Hcols).
  rewrite Hcols, Hwide in Hframe. fold (shownHeader ext t data) in Hframe.
  injection Hframe as _ _ _ _ Hsort _ _ _ _ _ _. rewrite Hsort.
  unfold doUpdate_sortCol. rewrite Hsc.
  by destruct (_ && _); [destruct (shownHeader ext t data) |].
Qed.

(** The part of the table a render pass hands on to the title and to the
    next command. *)
Lemma doUpdate_keeps ext t data t' :
  doUpdate ext t data = Done t' ->
  tCmdBuff t' = tCmdBuff t /\ tToast t' = tToast t /\ tWide t' = tWide t /\
  tHeader t' = tHeader t /\ scAsc (tSortCol t') = scAsc (tSortCol t) /\
  tLog t `prefix_of` tLog t'.
Proof.
  intros Hrun. pose proof (doUpdate_sortCol_result _ _ _ _ Hrun) as Hsort.
  unfold doUpdate in Hrun. apply doUpdate_render_frame in Hrun as [Hframe Hlog].
  assert (scAsc (tSortCol t') = scAsc (tSortCol t)) as Hasc.
  { rewrite Hsort. destruct (doUpdate_sortCol_cases t (shownHeader ext t data))
      as [[-> _] | (h0 & rest & _ & -> & _)]; done. }
  match type of Hframe with
  | _ = Table_frame (doUpdate_sortCol ?t1 ?h) =>
      destruct (doUpdate_sortCol_cases t1 h) as [[Heq _] | (h0 & rest & _ & Heq & _)];
      rewrite Heq in Hframe, Hlog
  end;
    unfold doUpdate_actions in Hframe, Hlog;
    destruct (IsAllNamespaces ext (tdNamespace data));
    injection Hframe as _ Hbuff _ _ _ _ Hwide Htoast Hheader _ _; done.
Qed.

(** X14. A render pass that returns changes the grid, and beyond it only
    the name of the sort column, the binding of the namespace-sort key and
    the log, which it extends: the resource, the query buffer, the styles,
    the view setting, the colorer, the wide and toast flags, the header,
    the metrics flag and the sort direction are as before, every other key
    keeps its binding, and the namespace-sort key is bound exactly when the
    data spans all namespaces. *)
Theorem doUpdate_leaves_settings_alone (ext : Collaborators) (t : Table)
        (data : TableData) (t' : Table) :
  doUpdate ext t data = Done t' ->
  (tGVR t' = tGVR t /\ tCmdBuff t' = tCmdBuff t /\ tStyles t' = tStyles t /\
   tViewSetting t' = tViewSetting t /\ tColorerFn t' = tColorerFn t /\
   tWide t' = tWide t /\ tToast t' = tToast t /\ tHeader t' = tHeader t /\
   tHasMetrics t' = tHasMetrics t /\ scAsc (tSortCol t') = scAsc (tSortCol t)) /\
  (forall k, k <> KeyShiftP ext -> tActions t' !! k = tActions t !! k) /\
  tActions t' !! KeyShiftP ext =
    (if IsAllNamespaces ext (tdNamespace data)
     then Some (NewKeyAction "Sort Namespace" (SortColCmd "NAMESPACE" true) false)
     else None) /\
  tLog t `prefix_of` tLog t'.
Proof.
  intros Hrun. unfold doUpdate in Hrun.
  apply doUpdate_render_frame in Hrun as [Hframe Hlog].
  match type of Hframe with
  | _ = Table_frame (doUpdate_sortCol ?t1 ?h) =>
      destruct (doUpdate_sortCol_cases t1 h) as [[Heq _] | (h0 & rest & _ & Heq & _)];
      rewrite Heq in Hframe, Hlog
  end;
    unfold doUpdate_actions in Hframe, Hlog;
    destruct (IsAllNamespaces ext (tdNamespace data));
    injection Hframe as -> -> -> -> -> -> -> -> -> -> ->; simpl;
    (split; [done |]); (split; [| split; [| exact Hlog]]);
    first [ by intros k Hk; rewrite lookup_insert_ne
          | by intros k Hk; rewrite lookup_delete_ne
          | by rewrite lookup_insert_eq
          | by rewrite lookup_delete_eq ].
Qed.

Lemma doUpdate_leaves_settings_alone_witness :
  exists t',
    doUpdate plainCollaborators (exampleTable "" true "RESTARTS") toastData = Done t' /\
    tToast t' = true /\ tActions t' !! 80 = None.
Proof.
  destruct (doUpdate plainCollaborators (exampleTable "" true "RESTARTS") toastData)
    as [t' | why] eqn:Hrun.
  - exists t'. split; [reflexivity |].
    destruct (doUpdate_leaves_settings_alone plainCollaborators
                (exampleTable "" true "RESTARTS") toastData t' Hrun)
      as ((_ & _ & _ & _ & _ & _ & Htoast & _) & _ & Hkey & _).
    split; [exact Htoast | exact Hkey].
  - exfalso. vm_compute in Hrun. discriminate.
Defined.

(** X15. After a render pass over a customized header that is not empty,
    the sort column names one of that header's columns; and the pass
    leaves the sort column as it was when that header is empty or the
    sort column already names one of its columns that is not wide. *)
Theorem doUpdate_sort_column_is_shown (ext : Collaborators) (t : Table)
        (data : TableData) (t' : Table) :
  doUpdate ext t data = Done t' ->
  (shownHeader ext t data <> [] ->
   exists hc, hc ∈ shownHeader ext t data /\ hcName hc = scName (tSortCol t')) /\
  (shownHeader ext t data = [] \/
   (scName (tSortCol t) <> "" /\
    IndexOf (shownHeader ext t data) (scName (tSortCol t)) false <> -1) ->
   tSortCol t' = tSortCol t).
Proof.
  intros Hrun. apply doUpdate_sortCol_result in Hrun. rewrite Hrun.
  destruct (doUpdate_sortCol_cases t (shownHeader ext t data))
    as [[-> Hkept] | (h0 & rest & Hhead & -> & Hmiss)].
  - split; [| done]. intros Hne.
    destruct Hkept as [Hnil | [_ Hfound]]; [done |].
    by apply IndexOf_from_found in Hfound.
  - split.
    + intros _. exists h0. rewrite Hhead. split; [by left | done].
    + intros [Hnil | [Hname Hfound]]; [by rewrite Hnil in Hhead |].
      by destruct Hmiss.
Qed.

Lemma doUpdate_sort_column_is_shown_witness :
  exists t',
    doUpdate plainCollaborators (exampleTable "" false "VALID") toastData = Done t' /\
    tSortCol t' = {| scName := "VALID"; scAsc := true |}.
Proof.
  destruct (doUpdate plainCollaborators (exampleTable "" false "VALID") toastData)
    as [t' | why] eqn:Hrun.
  - exists t'. split; [reflexivity |].
    refine (proj2 (doUpdate_sort_column_is_shown plainCollaborators
                     (exampleTable "" false "VALID") toastData t' Hrun) _).
    right. split; [discriminate | vm_compute; discriminate].
  - exfalso. vm_compute in Hrun. discriminate.
Defined.

(** ** The title *)

Lemma IsLabelSelector_long s : IsLabelSelector s = true -> (2 <= String.length s)%nat.
Proof.
  unfold IsLabelSelector, LableRx_MatchString.
  destruct s as [| a [| b s]]; [done | | simpl; lia].
  destruct (String.eqb (String a "") ""); [done |].
  unfold String.prefix. by destruct (Ascii.ascii_dec "-" a).
Qed.

Lemma styleTitle_runs th v :
  styleTitle th v =
    Done (if String.eqb (CmdBuff_String (tCmdBuff (tvTable v))) ""
          then styleTitle_base th v
          else styleTitle_base th v +:+
               SkinTitle th
                 (SearchFmt (if IsLabelSelector (CmdBuff_String (tCmdBuff (tvTable v)))
                             then thTrimSpace th
                                    (string_drop 2 (CmdBuff_String (tCmdBuff (tvTable v))))
                             else CmdBuff_String (tCmdBuff (tvTable v))))
                 (tvFrame v)).
Proof.
  unfold styleTitle.
  destruct (String.eqb (CmdBuff_String (tCmdBuff (tvTable v))) ""); [done |].
  destruct (IsLabelSelector (CmdBuff_String (tCmdBuff (tvTable v)))) eqn:Hlabel;
    [| done].
  apply IsLabelSelector_long in Hlabel. unfold TrimLabelSelector.
  apply Nat.ltb_ge in Hlabel. by rewrite Hlabel.
Qed.

(** X16. The title is always computed: the slice [s[2:]] of
    [TrimLabelSelector], which panics exactly on a string shorter than two
    bytes, is only reached for a label query, which has its two-byte
    prefix.  The title is the base title alone when the query buffer is
    empty, else the base title followed by the skinned filter part, which
    shows a label query without its prefix; and [UpdateTitle] sets it. *)
Theorem styleTitle_always_returns (th : TitleHelpers) (v : TableView) :
  (forall s, (exists why, TrimLabelSelector th s = Panic why) <->
             (String.length s < 2)%nat) /\
  (forall s, IsLabelSelector s = true ->
             TrimLabelSelector th s = Done (thTrimSpace th (string_drop 2 s))) /\
  exists title,
    styleTitle th v = Done title /\
    UpdateTitle th v = Done (SetTitle title v) /\
    (CmdBuff_String (tCmdBuff (tvTable v)) = "" -> title = styleTitle_base th v) /\
    (CmdBuff_String (tCmdBuff (tvTable v)) <> "" ->
     title = styleTitle_base th v +:+
             SkinTitle th
               (SearchFmt (if IsLabelSelector (CmdBuff_String (tCmdBuff (tvTable v)))
                           then thTrimSpace th
                                  (string_drop 2 (CmdBuff_String (tCmdBuff (tvTable v))))
                           else CmdBuff_String (tCmdBuff (tvTable v))))
               (tvFrame v)).
Proof.
  split; [| split].
  - intros s. unfold TrimLabelSelector.
    destruct (String.length s <? 2)%nat eqn:Hshort.
    + apply Nat.ltb_lt in Hshort. split; [done | eauto].
    + apply Nat.ltb_ge in Hshort. split; [by intros [why ?] | lia].
  - intros s Hlabel. apply IsLabelSelector_long in Hlabel. unfold TrimLabelSelector.
    apply Nat.ltb_ge in Hlabel. by rewrite Hlabel.
  - eexists. split; [apply styleTitle_runs |]. split.
    + unfold UpdateTitle. by rewrite styleTitle_runs.
    + split.
      * intros ->. done.
      * intros Hq. apply String.eqb_neq in Hq. by rewrite Hq.
Qed.

(** ** A full update *)

Lemma filtered_table rxe Find ext t data d t1 :
  filtered rxe Find ext t data = Done (d, t1) -> t1 = t \/ t1 = clearedQuery t.
Proof.
  unfold filtered. destruct (if tToast t then _ else _) as [d0 | why]; [| done].
  simpl. destruct (_ || _); [intros [= _ <-]; by left |].
  destruct (IsFuzzySelector _).
  - destruct (fuzzyFilter _ _ _ _) as [r | why]; [| done].
    simpl. intros [= _ <-]. by left.
  - destruct (rxFilter _ _ _) as [d1 [e |]]; intros [= _ <-]; [by right | by left].
Qed.

(** The three steps of [Update]. *)
Lemma Table_Update_steps rxe Find ext th v data v' :
  Table_Update rxe Find ext th v data = Done v' ->
  exists d t1 t2 title,
    filtered rxe Find ext (Table_withHeader (tdHeader data) (tvTable v))
             (match tvDecorateFn v with
              | Some f => f data
              | None => data
              end) = Done (d, t1) /\
    doUpdate ext t1 d = Done t2 /\
    styleTitle th (TableView_withTable t2 v) = Done title /\
    v' = SetTitle title (TableView_withTable t2 v).
Proof.
  unfold Table_Update. intros Hrun.
  destruct (filtered rxe Find ext _ _) as [[d t1] | why]; [| done].
  simpl in Hrun. destruct (doUpdate ext t1 d) as [t2 | why] eqn:Hpass; [| done].
  simpl in Hrun. unfold UpdateTitle in Hrun.
  destruct (styleTitle th _) as [title | why] eqn:Htitle; [| done].
  simpl in Hrun. injection Hrun as <-. by exists d, t1, t2, title.
Qed.

(** What an update hands on: the flags, the sort direction, the header of
    the data it was given, the path, the decorator and the frame. *)
Lemma Table_Update_keeps rxe Find ext th v data v' :
  Table_Update rxe Find ext th v data = Done v' ->
  tToast (tvTable v') = tToast (tvTable v) /\
  tWide (tvTable v') = tWide (tvTable v) /\
  scAsc (tSortCol (tvTable v')) = scAsc (tSortCol (tvTable v)) /\
  tHeader (tvTable v') = tdHeader data /\
  tvPath v' = tvPath v /\ tvDecorateFn v' = tvDecorateFn v /\ tvFrame v' = tvFrame v.
Proof.
  intros Hrun.
  apply Table_Update_steps in Hrun as (d & t1 & t2 & title & Hfilter & Hpass & _ & ->).
  apply doUpdate_keeps in Hpass as (_ & Htoast & Hwide & Hheader & Hasc & _). simpl.
  rewrite Htoast, Hwide, Hheader, Hasc.
  by destruct (filtered_table _ _ _ _ _ _ _ Hfilter) as [-> | ->].
Qed.

(** X17. An update run while the query buffer holds an expression that
    does not compile (and is no label or fuzzy query) ends with the buffer
    empty and with the base title alone, without a filter part; the failed
    expression is logged when the buffer held one. *)
Theorem Table_Update_invalid_regexp_title (rxe : RegexEngine) (Find : Finder)
        (ext : Collaborators) (th : TitleHelpers) (v : TableView)
        (data : TableData) (e : string) (v' : TableView) :
  Compile rxe ("(?i)" +:+ CmdBuff_String (tCmdBuff (tvTable v))) = inr e ->
  IsLabelSelector (CmdBuff_String (tCmdBuff (tvTable v))) = false ->
  IsFuzzySelector (CmdBuff_String (tCmdBuff (tvTable v))) = false ->
  Table_Update rxe Find ext th v data = Done v' ->
  CmdBuff_String (tCmdBuff (tvTable v')) = "" /\
  tvTitle v' = styleTitle_base th v' /\
  (CmdBuff_String (tCmdBuff (tvTable v)) <> "" -> LogInvalidFilter ∈ tLog (tvTable v')).
Proof.
  intros He Hlabel Hfuzzy Hrun.
  apply Table_Update_steps in Hrun as (d & t1 & t2 & title & Hfilter & Hpass & Htitle & ->).
  apply doUpdate_keeps in Hpass as (Hbuff & _ & _ & _ & _ & Hlog).
  assert (CmdBuff_String (tCmdBuff t1) = "" /\
          (CmdBuff_String (tCmdBuff (tvTable v)) <> "" -> LogInvalidFilter ∈ tLog t1))
    as [Hempty Hlogged].
  { unfold filtered in Hfilter. simpl in Hfilter.
    destruct (if tToast (tvTable v) then _ else _) as [d0 | why]; [| done].
    simpl in Hfilter. rewrite Hlabel, Hfuzzy, orb_false_r in Hfilter.
    destruct (CmdBuff_Empty (tCmdBuff (tvTable v))) eqn:Hblank.
    - injection Hfilter as _ <-. unfold CmdBuff_Empty in Hblank.
      apply String.eqb_eq in Hblank. split; [done | by intros []].
    - rewrite (rxFilter_invalid _ _ _ _ He) in Hfilter. injection Hfilter as _ <-.
      split; [done |]. intros _. simpl. set_solver. }
  rewrite styleTitle_runs in Htitle. simpl in Htitle. rewrite Hbuff, Hempty in Htitle.
  simpl in Htitle. injection Htitle as <-. simpl.
  split; [by rewrite Hbuff |]. split; [done |].
  intros Hq. destruct Hlog as [k ->]. apply elem_of_app. left. by apply Hlogged.
Qed.

Lemma Table_Update_invalid_regexp_title_witness :
  exists v',
    Table_Update literalRx stableFind plainCollaborators exampleTitles
                 (exampleView "zz(" false "" toastData) toastData = Done v' /\
    CmdBuff_String (tCmdBuff (tvTable v')) = "" /\
    tvTitle v' = styleTitle_base exampleTitles v' /\
    LogInvalidFilter ∈ tLog (tvTable v').
Proof.
  destruct (Table_Update literalRx stableFind plainCollaborators exampleTitles
              (exampleView "zz(" false "" toastData) toastData) as [v' | why] eqn:Hrun.
  - exists v'. split; [reflexivity |].
    destruct (Table_Update_invalid_regexp_title literalRx stableFind plainCollaborators
                exampleTitles (exampleView "zz(" false "" toastData) toastData
                "error parsing regexp: (?i)zz(" v' eq_refl eq_refl eq_refl Hrun)
      as (Hbuff & Htitle & Hlog).
    split; [exact Hbuff |]. split; [exact Htitle |]. apply Hlog. discriminate.
  - exfalso. vm_compute in Hrun. discriminate.
Defined.

(** ** The commands *)

Lemma Table_Refresh_keeps rxe Find ext th v v' :
  Table_Refresh rxe Find ext th v = Done v' ->
  tToast (tvTable v') = tToast (tvTable v) /\
  tWide (tvTable v') = tWide (tvTable v) /\
  scAsc (tSortCol (tvTable v')) = scAsc (tSortCol (tvTable v)) /\
  (tdHeader (mdPeek (GetModel (tvTable v))) = [] -> v' = v) /\
  (tdHeader (mdPeek (GetModel (tvTable v))) <> [] ->
   tHeader (tvTable v') = tdHeader (mdPeek (GetModel (tvTable v)))).
Proof.
  unfold Table_Refresh. intros Hrun.
  destruct (tdHeader (mdPeek (GetModel (tvTable v)))) as [| h0 rest] eqn:Hhead.
  - simpl in Hrun. injection Hrun as <-. done.
  - simpl in Hrun. apply Table_Update_keeps in Hrun as (-> & -> & -> & -> & _).
    by rewrite Hhead.
Qed.

(** X18. The handler of [SortColCmd], when it returns: pressed for the
    column the table is sorted on it reverses the direction, pressed for
    another column it takes the direction the command was made with, and
    the refresh that follows keeps that direction; over a model without a
    header nothing else changes and the sort column is the one asked for. *)
Theorem Table_SortColCmd_direction (rxe : RegexEngine) (Find : Finder)
        (ext : Collaborators) (th : TitleHelpers) (name : string) (asc : bool)
        (v v' : TableView) :
  Table_SortColCmd rxe Find ext th name asc v = Done v' ->
  scAsc (tSortCol (tvTable v')) =
    (if String.eqb (scName (tSortCol (tvTable v))) name
     then negb (scAsc (tSortCol (tvTable v)))
     else asc) /\
  tToast (tvTable v') = tToast (tvTable v) /\
  tWide (tvTable v') = tWide (tvTable v) /\
  (tdHeader (mdPeek (GetModel (tvTable v))) = [] ->
   scName (tSortCol (tvTable v')) = name /\
   tSelectTable (tvTable v') = tSelectTable (tvTable v) /\
   tvTitle v' = tvTitle v).
Proof.
  unfold Table_SortColCmd. intros Hrun.
  apply Table_Refresh_keeps in Hrun as (Htoast & Hwide & Hasc & Hnil & _).
  simpl in *. rewrite Hasc, Htoast, Hwide. unfold SortColCmd_set. simpl.
  split; [by destruct (String.eqb _ _) |]. split; [done |]. split; [done |].
  intros Hhead. by rewrite (Hnil Hhead).
Qed.

Lemma Table_SortColCmd_direction_witness :
  exists v',
    Table_SortColCmd literalRx stableFind plainCollaborators exampleTitles "VALID" false
                     (exampleView "" false "NAME" toastData) = Done v' /\
    tSortCol (tvTable v') = {| scName := "VALID"; scAsc := false |}.
Proof.
  destruct (Table_SortColCmd literalRx stableFind plainCollaborators exampleTitles
              "VALID" false (exampleView "" false "NAME" toastData))
    as [v' | why] eqn:Hrun.
  - exists v'. split; [reflexivity |].
    pose proof (proj1 (Table_SortColCmd_direction literalRx stableFind plainCollaborators
                         exampleTitles "VALID" false
                         (exampleView "" false "NAME" toastData) v' Hrun)) as Hasc.
    simpl in Hasc. destruct (tSortCol (tvTable v')) as [n a] eqn:Hsort.
    simpl in Hasc. subst a. f_equal.
    vm_compute in Hrun. injection Hrun as <-. simpl in Hsort. by injection Hsort as <-.
  - exfalso. vm_compute in Hrun. discriminate.
Defined.

(** X19. The one-flag commands, when they return: [ToggleToast] and
    [ToggleWide] negate their flag and leave the other one, [ResetToast]
    clears the toast flag, [SortInvertCmd] reverses the sort direction;
    the refresh each of them ends with does not touch the flags or the
    direction, and sets the header to the model's when that is not empty. *)
Theorem flag_commands_survive_refresh (rxe : RegexEngine) (Find : Finder)
        (ext : Collaborators) (th : TitleHelpers) (v v' : TableView) :
  (Table_ToggleToast rxe Find ext th v = Done v' ->
   tToast (tvTable v') = negb (tToast (tvTable v)) /\
   tWide (tvTable v') = tWide (tvTable v) /\
   scAsc (tSortCol (tvTable v')) = scAsc (tSortCol (tvTable v))) /\
  (Table_ToggleWide rxe Find ext th v = Done v' ->
   tWide (tvTable v') = negb (tWide (tvTable v)) /\
   tToast (tvTable v') = tToast (tvTable v) /\
   scAsc (tSortCol (tvTable v')) = scAsc (tSortCol (tvTable v))) /\
  (Table_ResetToast rxe Find ext th v = Done v' ->
   tToast (tvTable v') = false /\
   tWide (tvTable v') = tWide (tvTable v) /\
   scAsc (tSortCol (tvTable v')) = scAsc (tSortCol (tvTable v))) /\
  (Table_SortInvertCmd rxe Find ext th v = Done v' ->
   scAsc (tSortCol (tvTable v')) = negb (scAsc (tSortCol (tvTable v))) /\
   tToast (tvTable v') = tToast (tvTable v) /\
   tWide (tvTable v') = tWide (tvTable v)) /\
  (Table_Refresh rxe Find ext th v = Done v' ->
   tdHeader (mdPeek (GetModel (tvTable v))) <> [] ->
   tHeader (tvTable v') = tdHeader (mdPeek (GetModel (tvTable v)))).
Proof.
  assert (forall w, Table_Refresh rxe Find ext th w = Done v' ->
                    tToast (tvTable v') = tToast (tvTable w) /\
                    tWide (tvTable v') = tWide (tvTable w) /\
                    scAsc (tSortCol (tvTable v')) = scAsc (tSortCol (tvTable w))) as Hkeeps.
  { intros w Hrun. by apply Table_Refresh_keeps in Hrun as (? & ? & ? & _). }
  split; [| split; [| split; [| split]]].
  - intros Hrun. by destruct (Hkeeps _ Hrun) as (-> & -> & ->).
  - intros Hrun. by destruct (Hkeeps _ Hrun) as (-> & -> & ->).
  - intros Hrun. by destruct (Hkeeps _ Hrun) as (-> & -> & ->).
  - intros Hrun. by destruct (Hkeeps _ Hrun) as (-> & -> & ->).
  - intros Hrun Hhead. apply Table_Refresh_keeps in Hrun as (_ & _ & _ & _ & Hset).
    by apply Hset.
Qed.

Lemma flag_commands_survive_refresh_witness :
  exists v',
    Table_ToggleToast literalRx stableFind plainCollaborators exampleTitles
                      (exampleView "" false "NAME" toastData) = Done v' /\
    tToast (tvTable v') = true.
Proof.
  destruct (Table_ToggleToast literalRx stableFind plainCollaborators exampleTitles
              (exampleView "" false "NAME" toastData)) as [v' | why] eqn:Hrun.
  - exists v'. split; [reflexivity |].
    exact (proj1 (proj1 (flag_commands_survive_refresh literalRx stableFind
                           plainCollaborators exampleTitles
                           (exampleView "" false "NAME" toastData) v') Hrun)).
  - exfalso. vm_compute in Hrun. discriminate.
Defined.

(** ** The header row *)

Lemma doUpdate_header_spec hh fg bg :
  forall col t,
    (forall k hc,
        hh !! k = Some hc -> hidden t hc = false ->
        stGrid (tSelectTable (doUpdate_header hh col fg bg t))
          !! (0%nat, (col + shownIn t (take k hh))%nat)
        = Some (headerCell t fg bg hc)) /\
    (forall r c,
        r <> 0%nat \/ (c < col)%nat \/ (col + shownIn t hh <= c)%nat ->
        stGrid (tSelectTable (doUpdate_header hh col fg bg t)) !! (r, c)
        = stGrid (tSelectTable t) !! (r, c)).
Proof.
  induction hh as [| h0 hh IH]; intros col t.
  { split; [intros k hc Hk; done | done]. }
  assert (hidden t h0 = true ->
          (forall k hc,
              (h0 :: hh) !! k = Some hc -> hidden t hc = false ->
              stGrid (tSelectTable (doUpdate_header hh col fg bg t))
                !! (0%nat, (col + shownIn t (take k (h0 :: hh)))%nat)
              = Some (headerCell t fg bg hc)) /\
          (forall r c,
              r <> 0%nat \/ (c < col)%nat \/ (col + shownIn t (h0 :: hh) <= c)%nat ->
              stGrid (tSelectTable (doUpdate_header hh col fg bg t)) !! (r, c)
              = stGrid (tSelectTable t) !! (r, c))) as Hskip.
  { intros Hhid. destruct (IH col t) as [IHcells IHrest]. split.
    - intros [| k] hc Hk Hvis; simpl in Hk.
      + injection Hk as ->. congruence.
      + simpl take. rewrite shownIn_cons, Hhid. by apply IHcells.
    - intros r c Hout. rewrite shownIn_cons, Hhid in Hout. by apply IHrest. }
  cbn [doUpdate_header].
  destruct (String.eqb (hcName h0) "NAMESPACE" && negb (mdClusterWide (GetModel t)))
    eqn:Hns.
  { apply Hskip. unfold hidden. by rewrite Hns. }
  destruct (hcMX h0 && negb (tHasMetrics t)) eqn:Hmx.
  { apply Hskip. unfold hidden. rewrite Hmx. apply orb_true_r. }
  assert (hidden t h0 = false) as Hvis0 by (unfold hidden; by rewrite Hns, Hmx).
  clear Hskip.
  assert (stGrid (tSelectTable (AddHeaderCell col h0 t)) !! (0%nat, col)
          = Some (SetAlign (hcAlign h0)
                    (SetExpansion 1
                       (NewTableCell
                          (sortIndicator (String.eqb (hcName h0) (scName (tSortCol t)))
                                         (scAsc (tSortCol t)) (tStyles t) (hcName h0))))))
    as Hadded by (simpl; apply lookup_insert_eq).
  rewrite Hadded.
  match goal with
  | |- context [doUpdate_header hh (S col) fg bg ?t1] =>
      destruct (IH (S col) t1) as [IHcells IHrest]
  end.
  split.
  - intros [| k] hc Hk Hvis; simpl in Hk.
    + injection Hk as <-. simpl take. replace (col + shownIn t [])%nat with col
        by (unfold shownIn; simpl; lia).
      rewrite IHrest by (right; left; lia). simpl. by rewrite lookup_insert_eq.
    + simpl take. rewrite shownIn_cons, Hvis0.
      replace (col + S (shownIn t (take k hh)))%nat
        with (S col + shownIn t (take k hh))%nat by lia.
      by apply (IHcells k hc).
  - intros r c Hout. rewrite shownIn_cons, Hvis0 in Hout.
    rewrite IHrest.
    + simpl. rewrite !lookup_insert_ne; [done | |]; intros [= ? ?]; lia.
    + destruct Hout as [Hr | [Hc | Hc]]; [by left | right; left; lia |].
      right. right. change (shownIn (Table_SetCell 0 col _ (AddHeaderCell col h0 t)) hh)
        with (shownIn t hh). lia.
Qed.

(** X20. The header loop of a render pass writes one cell for each column
    it displays (neither the namespace column outside a cluster-wide view
    nor a metrics column without metrics), at the column's position among
    the displayed ones: the cell of [AddHeaderCell], whose text carries
    the sort indicator exactly for the sort column, in the header colors.
    It writes nothing below the header row or right of the displayed
    columns. *)
Theorem doUpdate_header_draws_shown_columns (t : Table) (hh : Header) (fg bg : Color) :
  (forall k hc,
      hh !! k = Some hc -> hidden t hc = false ->
      stGrid (tSelectTable (doUpdate_header hh 0 fg bg t))
        !! (0%nat, shownIn t (take k hh))
      = Some (headerCell t fg bg hc) /\
      cText (headerCell t fg bg hc) =
        (if String.eqb (hcName hc) (scName (tSortCol t))
         then hcName hc +:+ "[" +:+ stSorterColor (tStyles t) +:+ "::b]" +:+
              (if scAsc (tSortCol t) then ascIndicator else descIndicator) +:+ "[::]"
         else hcName hc)) /\
  (forall r c,
      r <> 0%nat \/ (shownIn t hh <= c)%nat ->
      stGrid (tSelectTable (doUpdate_header hh 0 fg bg t)) !! (r, c)
      = stGrid (tSelectTable t) !! (r, c)).
Proof.
  destruct (doUpdate_header_spec hh fg bg 0%nat t) as [Hcells Hrest]. split.
  - intros k hc Hk Hvis. split; [exact (Hcells k hc Hk Hvis) |].
    simpl. unfold sortIndicator. by destruct (String.eqb _ _).
  - intros r c Hout. apply Hrest. destruct Hout; [by left | right; right; lia].
Qed.

(** ** The color of a chart row *)

(** X21. A cell [buildRow] makes for a table whose colorer is the chart
    colorer: the error color when the original row is not happy, also
    when the row is marked; else the mark color when the row is marked
    and medium spring green when it is not.  The chart colorer's error
    color is the table's, and medium spring green is another color. *)
Theorem chart_row_color (ext : Collaborators) (hp : ChartHelpers) (t : Table)
        (re ore : RowEvent) (h : Header) (pads : MaxyPad) (marked : bool)
        (c col : nat) (hc : HeaderColumn) (field : string) (cell : TableCell) :
  chErrColor hp = ErrColor ext ->
  chColorMediumSpringGreen hp <> ErrColor ext ->
  buildRow_cell ext (SetColorerFn (Chart_ColorerFunc hp) t) re ore h pads marked
                c col hc field = Done cell ->
  cTextColor cell =
    Some (if negb (chHappy hp (mdNamespace (GetModel t)) (tHeader t) (reRow ore))
          then ErrColor ext
          else if marked then stMarkColor (tStyles t)
               else chColorMediumSpringGreen hp).
Proof.
  intros Herr Hgreen Hrun. unfold buildRow_cell in Hrun.
  match type of Hrun with
  | (mbind _ ?m) = _ => destruct m as [field1 | why]; [| done]
  end.
  simpl in Hrun.
  match type of Hrun with
  | (mbind _ ?m) = _ => destruct m as [field2 | why]; [| done]
  end.
  simpl in Hrun. injection Hrun as <-.
  change (GetModel (SetColorerFn (Chart_ColorerFunc hp) t)) with (GetModel t).
  unfold Chart_ColorerFunc.
  destruct (chHappy hp (mdNamespace (GetModel t)) (tHeader t) (reRow ore)).
  - apply Z.eqb_neq in Hgreen. cbn [negb]. rewrite Hgreen.
    by destruct marked; destruct (col =? 0)%nat.
  - cbn [negb]. rewrite Herr, Z.eqb_refl, andb_false_r. by destruct (col =? 0)%nat.
Qed.

Lemma chart_row_color_witness :
  exists cell,
    buildRow_cell plainCollaborators
                  (SetColorerFn (Chart_ColorerFunc exampleHelpers)
                                (exampleTable "" false "NAME"))
                  (rowEvent (exampleChartRow "web" "deployed"))
                  (rowEvent (exampleChartRow "web" "deployed"))
                  (Chart_Header exampleHelpers "default")
                  (replicate 8 0) true 1 1 (column "NAME") "web" = Done cell /\
    cTextColor cell = Some 4.
Proof.
  eexists. split; [reflexivity |].
  exact (chart_row_color plainCollaborators exampleHelpers (exampleTable "" false "NAME")
           (rowEvent (exampleChartRow "web" "deployed"))
           (rowEvent (exampleChartRow "web" "deployed"))
           (Chart_Header exampleHelpers "default") (replicate 8 0) true 1 1
           (column "NAME") "web" _ eq_refl ltac:(discriminate) eq_refl).
Defined.

(** ** The sort column a render pass falls back to *)




